(** * serato-crates-sync: a shallow embedding of [serato_crates_sync/cli.py]

    The crate synchronisation engine of the command line tool: the folder
    scanner, the file name sanitiser, the track path resolver, the binary
    crate writer, the SQLite writer and the orchestrator [execute_sync].
    Python objects are modelled by the data they hold, exceptions by the
    [Raises] outcome, the file system and the database by explicit state. *)

From Stdlib Require Import ZArith String Ascii Lia.
From stdpp Require Import base tactics option list gmap.

Local Open Scope Z_scope.
Local Set Warnings "-register-all".

(** ** Python values *)

(** A Python [str] is a sequence of Unicode code points, a [bytes] object a
    sequence of integers below 256. *)
Definition codepoint := Z.
Definition str := list codepoint.
Definition bytes := list Z.

(** An ASCII literal of the source as a [str]. *)
Definition lit (s : string) : str :=
  map (fun a => Z.of_N (N_of_ascii a)) (list_ascii_of_string s).
Arguments lit : simpl never.

(** The exceptions the modelled code can meet. *)
Inductive exn :=
| UnicodeEncodeError
| StructError
| ValueError
| TypeError
| ImportError
| PermissionError
| FileExistsError
| OSError
| RecursionError
| SqliteError.

(** What a call does: it returns, it raises, or it never comes back. *)
Inductive outcome (A : Type) :=
| Returns (a : A)
| Raises (e : exn)
| Loops.
Arguments Returns {A} a.
Arguments Raises {A} e.
Arguments Loops {A}.

Definition obind {A B} (m : outcome A) (k : A -> outcome B) : outcome B :=
  match m with
  | Returns a => k a
  | Raises e => Raises e
  | Loops => Loops
  end.

Declare Scope outcome_scope.
Delimit Scope outcome_scope with out.
Notation "x <- m ;; k" := (obind m (fun x => k))
  (at level 100, m at next level, right associativity) : outcome_scope.

(** [for x in xs: ys.append(f(x))], stopping at the first exception. *)
Fixpoint omap {A B} (f : A -> outcome B) (xs : list A) : outcome (list B) :=
  match xs with
  | [] => Returns []
  | x :: xs' => (y <- f x ;; ys <- omap f xs' ;; Returns (y :: ys))%out
  end.

(** Python's truth value of a string or a list: non-empty. *)
Definition truthy {A} (l : list A) : bool :=
  match l with [] => false | _ :: _ => true end.

Definition str_eqb (a b : str) : bool := bool_decide (a = b).

(** [sep.join(parts)]. *)
Fixpoint join (sep : str) (parts : list str) : str :=
  match parts with
  | [] => []
  | [p] => p
  | p :: rest => p ++ sep ++ join sep rest
  end.

(** [s.startswith(prefix)]. *)
Fixpoint startswith (prefix s : str) : bool :=
  match prefix, s with
  | [], _ => true
  | _ :: _, [] => false
  | a :: prefix', b :: s' => (a =? b) && startswith prefix' s'
  end.

Definition endswith (suffix s : str) : bool := startswith (rev suffix) (rev s).

(** ** Unicode

    The tables of the Unicode character database are not part of the
    program: [unicodedata.normalize('NFC', _)] and [str.lower] are taken
    from the platform. *)
Class Unicode := {
  normalize_NFC : str -> str;
  lower : str -> str
}.

(** Code points that cannot be encoded: lone surrogates. *)
Definition is_surrogate (c : codepoint) : bool := (0xD800 <=? c) && (c <=? 0xDFFF).

(** [chr(c).encode('utf-8')]. *)
Definition utf8_encode_char (c : codepoint) : outcome bytes :=
  if c <? 0x80 then Returns [c]
  else if c <? 0x800 then
    Returns [Z.lor 0xC0 (Z.shiftr c 6); Z.lor 0x80 (Z.land c 0x3F)]
  else if is_surrogate c then Raises UnicodeEncodeError
  else if c <? 0x10000 then
    Returns [Z.lor 0xE0 (Z.shiftr c 12);
             Z.lor 0x80 (Z.land (Z.shiftr c 6) 0x3F);
             Z.lor 0x80 (Z.land c 0x3F)]
  else
    Returns [Z.lor 0xF0 (Z.shiftr c 18);
             Z.lor 0x80 (Z.land (Z.shiftr c 12) 0x3F);
             Z.lor 0x80 (Z.land (Z.shiftr c 6) 0x3F);
             Z.lor 0x80 (Z.land c 0x3F)].

(** [s.encode('utf-8')]. *)
Fixpoint utf8_encode (s : str) : outcome bytes :=
  match s with
  | [] => Returns []
  | c :: s' => (b <- utf8_encode_char c ;; bs <- utf8_encode s' ;; Returns (b ++ bs))%out
  end.

(** [chr(c).encode('utf-16-be')]: one 16-bit unit, or a surrogate pair for
    the supplementary planes; no byte-order mark. *)
Definition utf16be_unit (u : Z) : bytes := [Z.shiftr u 8; Z.land u 0xFF].

Definition utf16be_encode_char (c : codepoint) : outcome bytes :=
  if is_surrogate c then Raises UnicodeEncodeError
  else if c <? 0x10000 then Returns (utf16be_unit c)
  else
    let c' := c - 0x10000 in
    Returns (utf16be_unit (0xD800 + Z.shiftr c' 10) ++
             utf16be_unit (0xDC00 + Z.land c' 0x3FF)).

Fixpoint utf16be_encode (s : str) : outcome bytes :=
  match s with
  | [] => Returns []
  | c :: s' =>
      (b <- utf16be_encode_char c ;; bs <- utf16be_encode s' ;; Returns (b ++ bs))%out
  end.

(** [str.isspace] for one character, the set [str.strip()] removes. *)
Definition is_space (c : codepoint) : bool :=
  ((0x09 <=? c) && (c <=? 0x0D)) || ((0x1C <=? c) && (c <=? 0x20)) ||
  (c =? 0x85) || (c =? 0xA0) || (c =? 0x1680) ||
  ((0x2000 <=? c) && (c <=? 0x200A)) ||
  (c =? 0x2028) || (c =? 0x2029) || (c =? 0x202F) || (c =? 0x205F) || (c =? 0x3000).

Fixpoint lstrip (s : str) : str :=
  match s with
  | [] => []
  | c :: s' => if is_space c then lstrip s' else s
  end.

Definition rstrip (s : str) : str := rev (lstrip (rev s)).

Definition strip (s : str) : str := lstrip (rstrip s).

(** [s.replace(ch, '')] and [s.replace(ch, by)] for one-character [ch]. *)
Definition str_remove (ch : codepoint) (s : str) : str :=
  List.filter (fun c => negb (c =? ch)) s.

Definition str_replace_char (ch by_ : codepoint) (s : str) : str :=
  map (fun c => if c =? ch then by_ else c) s.

(** [s.lstrip("/")]. *)
Fixpoint lstrip_slash (s : str) : str :=
  match s with
  | [] => []
  | c :: s' => if c =? 47 then lstrip_slash s' else s
  end.

(** ** The file name sanitiser (cli.py, [sanitize_crate_filename]) *)

Definition invisible_chars : str :=
  [0x200b; 0x200c; 0x200d; 0x200e; 0x200f; 0xfeff; 0x00ad].

(** The characters replaced by a hyphen: slash, backslash, colon, star,
    question mark, double quote, less-than, greater-than and bar. *)
Definition reserved_chars : str := [47; 92; 58; 42; 63; 34; 60; 62; 124].

Definition hyphen : codepoint := 45.
Definition ellipsis : codepoint := 0x2026.

(** The loop
    [while len(filename.encode('utf-8')) > max_bytes: filename = filename[:-1]].
    [n] counts the characters still to drop and starts at [len(filename)];
    when it is used up the string is empty, [''[:-1]] is [''] again, and a
    budget still exceeded (a negative one) is exceeded for ever. *)
Fixpoint truncate_loop (n : nat) (filename : str) (max_bytes : Z) : outcome str :=
  match utf8_encode filename with
  | Returns enc =>
      if Z.of_nat (length enc) >? max_bytes then
        match n with
        | O => Loops
        | S n' => truncate_loop n' (removelast filename) max_bytes
        end
      else Returns filename
  | Raises e => Raises e
  | Loops => Loops
  end.

Definition sanitize_crate_filename `{Unicode} (filename : str) (max_bytes : Z)
  : outcome str :=
  let filename := fold_left (fun f ch => str_remove ch f) invisible_chars filename in
  let filename := normalize_NFC filename in
  let filename := fold_left (fun f ch => str_replace_char ch hyphen f) reserved_chars filename in
  (encoded <- utf8_encode filename ;;
   filename <-
     (if Z.of_nat (length encoded) >? max_bytes then
        (filename <- truncate_loop (length filename) filename max_bytes ;;
         Returns (rstrip filename ++ [ellipsis]))
      else Returns filename) ;;
   Returns (strip filename))%out.

(** The default of the [max_bytes] argument. *)
Definition default_max_bytes : Z := 240.

(** A platform that fits ASCII-only text: normalisation leaves it alone and
    lowering maps A-Z to a-z. *)
Definition ascii_lower_char (c : codepoint) : codepoint :=
  if (65 <=? c) && (c <=? 90) then c + 32 else c.

Definition ascii_unicode : Unicode :=
  {| normalize_NFC := fun s => s; lower := map ascii_lower_char |}.

(** A string that normalisation leaves as it is. *)
Definition nfc_stable `{Unicode} (s : str) : Prop := normalize_NFC s = s.

Definition is_reserved (c : codepoint) : bool := existsb (Z.eqb c) reserved_chars.
Definition is_invisible (c : codepoint) : bool := existsb (Z.eqb c) invisible_chars.

(** What the sanitiser's proofs use of NFC, each a fact of the Unicode
    normalisation algorithm and its tables: ASCII text is already
    normalised; normalising twice changes nothing more; no invisible
    character of the list above is the result of a canonical decomposition
    or composition; a contiguous piece of a normalised string is
    normalised; the hyphen and the ellipsis are starters that take part in
    no canonical composition, so replacing an ASCII character by a hyphen
    or appending an ellipsis keeps a normalised string normalised. *)
Class UnicodeLaws (U : Unicode) : Prop := {
  nfc_ascii : forall s, Forall (fun c => 0 <= c < 128) s -> nfc_stable s;
  nfc_idempotent : forall s, nfc_stable (normalize_NFC s);
  nfc_invisible : forall s c,
    is_invisible c = true -> In c (normalize_NFC s) -> In c s;
  nfc_substring : forall s1 s2, nfc_stable (s1 ++ s2) -> nfc_stable s1 /\ nfc_stable s2;
  nfc_hyphen : forall s,
    nfc_stable s -> nfc_stable (map (fun c => if is_reserved c then hyphen else c) s);
  nfc_ellipsis : forall s, nfc_stable s -> nfc_stable (s ++ [ellipsis])
}.

(** The number of bytes of one character in UTF-8. *)
Definition utf8_width (c : codepoint) : Z :=
  if c <? 0x80 then 1 else if c <? 0x800 then 2 else if c <? 0x10000 then 3 else 4.

Fixpoint utf8_len (s : str) : Z :=
  match s with
  | [] => 0
  | c :: s' => utf8_width c + utf8_len s'
  end.

(** ** Paths (pathlib)

    A [Path] as pathlib parses it: drive, root and the names below them.
    The POSIX flavour has no drive and separates by a slash, the Windows
    flavour separates by a backslash and compares names case-folded. *)
Inductive flavour := Posix | Windows.

Record Path := mkPath { path_drv : str; path_root : str; path_tail : list str }.

(** What the operating system contributes: the path flavour and
    [Path.resolve()], which asks the file system. *)
Class Platform := {
  path_flavour : flavour;
  os_resolve : Path -> outcome Path
}.

Definition path_sep (fl : flavour) : str :=
  match fl with Posix => [47] | Windows => [92] end.

Definition has_anchor (p : Path) : bool := truthy (path_drv p) || truthy (path_root p).

(** [p.parts] *)
Definition path_parts (p : Path) : list str :=
  if has_anchor p then (path_drv p ++ path_root p) :: path_tail p else path_tail p.

(** [str(p)] *)
Definition path_str `{Platform} (p : Path) : str :=
  let s := if has_anchor p
           then path_drv p ++ path_root p ++ join (path_sep path_flavour) (path_tail p)
           else join (path_sep path_flavour) (path_tail p) in
  if truthy s then s else [46].

(** [p.name] *)
Definition path_name (p : Path) : str := List.last (path_tail p) [].

(** [p / child] for a single name [child]. *)
Definition path_child (p : Path) (child : str) : Path :=
  {| path_drv := path_drv p; path_root := path_root p; path_tail := path_tail p ++ [child] |}.

(** [s.rfind(ch)] *)
Fixpoint rfind_from (ch : codepoint) (s : str) (i : nat) : option nat :=
  match s with
  | [] => None
  | c :: s' =>
      match rfind_from ch s' (S i) with
      | Some j => Some j
      | None => if c =? ch then Some i else None
      end
  end.

(** [p.suffix]: from the last dot of the name, unless the name begins or
    ends with it. *)
Definition path_suffix (p : Path) : str :=
  let name := path_name p in
  match rfind_from 46 name 0 with
  | Some i => if (0 <? i)%nat && (i <? length name - 1)%nat then drop i name else []
  | None => []
  end.

(** Lexicographic order of strings by code point, and of lists of them. *)
Fixpoint str_ltb (a b : str) : bool :=
  match a, b with
  | _, [] => false
  | [], _ :: _ => true
  | x :: a', y :: b' => (x <? y) || ((x =? y) && str_ltb a' b')
  end.

Fixpoint parts_ltb (a b : list str) : bool :=
  match a, b with
  | _, [] => false
  | [], _ :: _ => true
  | x :: a', y :: b' => str_ltb x y || (str_eqb x y && parts_ltb a' b')
  end.

Definition casefold_parts `{Unicode} `{Platform} (parts : list str) : list str :=
  match path_flavour with Posix => parts | Windows => map lower parts end.

(** [p < q] on paths. *)
Definition path_ltb `{Unicode} `{Platform} (p q : Path) : bool :=
  parts_ltb (casefold_parts (path_parts p)) (casefold_parts (path_parts q)).

(** [sorted(xs)], a stable sort. *)
Fixpoint insert_sorted {A} (ltb : A -> A -> bool) (x : A) (l : list A) : list A :=
  match l with
  | [] => [x]
  | y :: l' => if ltb x y then x :: y :: l' else y :: insert_sorted ltb x l'
  end.

Definition sorted {A} (ltb : A -> A -> bool) (l : list A) : list A :=
  fold_left (fun acc x => insert_sorted ltb x acc) l [].

(** [p.relative_to(other)]: [other]'s parts must begin [p]'s. *)
Definition abs_parts (p : Path) : list str :=
  if truthy (path_root p) then path_drv p :: path_root p :: path_tail p else path_parts p.

Definition relative_to `{Unicode} `{Platform} (p other : Path) : outcome Path :=
  let ap := abs_parts p in
  let tp := abs_parts other in
  let n := length tp in
  let mismatch :=
    if (n =? 0)%nat then has_anchor p
    else negb (bool_decide (casefold_parts (take n ap) = casefold_parts tp)) in
  if mismatch then Raises ValueError
  else if (n =? 1)%nat && truthy (path_root p)
  then Returns {| path_drv := []; path_root := path_root p; path_tail := drop 2 ap |}
  else Returns {| path_drv := []; path_root := []; path_tail := drop n ap |}.

(** ** The folder scanner (cli.py, [build_crate_tree])

    What the scanner can see of the music folder: files, folders with
    their entries, entries that are neither, and entries whose [stat] is
    refused. A folder that cannot be listed makes [iterdir] raise
    [PermissionError]. *)
Inductive FsNode :=
| FsFile (name : str)
| FsDir (name : str) (listable : bool) (entries : list FsNode)
| FsOther (name : str)
| FsDenied (name : str).

Definition fs_name (n : FsNode) : str :=
  match n with
  | FsFile name | FsDir name _ _ | FsOther name | FsDenied name => name
  end.

(** [path.is_file()] and [path.is_dir()] *)
Definition is_file (n : FsNode) : outcome bool :=
  match n with
  | FsFile _ => Returns true
  | FsDenied _ => Raises PermissionError
  | _ => Returns false
  end.

Definition is_dir (n : FsNode) : outcome bool :=
  match n with
  | FsDir _ _ _ => Returns true
  | FsDenied _ => Raises PermissionError
  | _ => Returns false
  end.

(** [sorted(folder.iterdir())]: each entry with its path. *)
Definition iterdir_sorted `{Unicode} `{Platform} (folder : Path) (node : FsNode)
  : outcome (list (Path * FsNode)) :=
  match node with
  | FsDir _ true entries =>
      Returns (sorted (fun a b => path_ltb (fst a) (fst b))
                 (map (fun e => (path_child folder (fs_name e), e)) entries))
  | FsDir _ false _ => Raises PermissionError
  | _ => Raises OSError
  end.

(** The dataclass [CratePlan]. *)
Inductive CratePlan :=
| mkCratePlan (name : str) (path : Path) (parent_name : option str)
    (tracks : list Path) (children : list CratePlan).

Definition name (c : CratePlan) : str := let (n, _, _, _, _) := c in n.
Definition path (c : CratePlan) : Path := let (_, p, _, _, _) := c in p.
Definition parent_name (c : CratePlan) : option str := let (_, _, p, _, _) := c in p.
Definition tracks (c : CratePlan) : list Path := let (_, _, _, t, _) := c in t.
Definition children (c : CratePlan) : list CratePlan := let (_, _, _, _, ch) := c in ch.

(** [is_audio_file] *)
Definition is_audio_file `{Unicode} (path : Path) (node : FsNode) (extensions : gset str)
  : outcome bool :=
  (f <- is_file node ;;
   Returns (f && bool_decide (lower (path_suffix path) ∈ extensions)))%out.

(** The loop of [scan_folder_for_tracks]; a [PermissionError] ends it and
    keeps the tracks found so far. *)
Fixpoint scan_items `{Unicode} (items : list (Path * FsNode)) (extensions : gset str)
  (tracks : list Path) : outcome (list Path) :=
  match items with
  | [] => Returns tracks
  | (item, node) :: rest =>
      match is_audio_file item node extensions with
      | Returns true => scan_items rest extensions (tracks ++ [item])
      | Returns false => scan_items rest extensions tracks
      | Raises PermissionError => Returns tracks
      | Raises e => Raises e
      | Loops => Loops
      end
  end.

Definition scan_folder_for_tracks `{Unicode} `{Platform} (folder : Path) (node : FsNode)
  (extensions : gset str) : outcome (list Path) :=
  match iterdir_sorted folder node with
  | Returns items => scan_items items extensions []
  | Raises PermissionError => Returns []
  | Raises e => Raises e
  | Loops => Loops
  end.

(** The loop over the subfolders, with the recursive call as [build]; the
    loop is inside a [try] that ends it at a [PermissionError]. *)
Fixpoint collect_children
  (build : Path -> FsNode -> outcome (option CratePlan))
  (items : list (Path * FsNode)) (children : list CratePlan)
  : outcome (list CratePlan) :=
  match items with
  | [] => Returns children
  | (subfolder, node) :: rest =>
      match is_dir node with
      | Returns true =>
          if negb (startswith [46] (path_name subfolder)) then
            match build subfolder node with
            | Returns (Some child_crate) =>
                collect_children build rest (children ++ [child_crate])
            | Returns None => collect_children build rest children
            | Raises PermissionError => Returns children
            | Raises e => Raises e
            | Loops => Loops
            end
          else collect_children build rest children
      | Returns false => collect_children build rest children
      | Raises PermissionError => Returns children
      | Raises e => Raises e
      | Loops => Loops
      end
  end.

(** [build_crate_tree]. [depth] is the number of nested calls the
    interpreter still allows; a folder tree deeper than that ends the scan
    with [RecursionError]. *)
Fixpoint build_crate_tree `{Unicode} `{Platform} (depth : nat)
  (folder : Path) (node : FsNode) (extensions : gset str)
  (parent_name : option str) (include_empty : bool) : outcome (option CratePlan) :=
  match depth with
  | O => Raises RecursionError
  | S depth' =>
      match is_dir node with
      | Returns true =>
          let crate_name := path_name folder in
          (tracks <- scan_folder_for_tracks folder node extensions ;;
           children <-
             match iterdir_sorted folder node with
             | Returns items =>
                 collect_children
                   (fun subfolder sub =>
                      build_crate_tree depth' subfolder sub extensions
                        (Some (match parent_name with
                               | None => crate_name
                               | Some pn => pn ++ lit "%%" ++ crate_name
                               end))
                        include_empty)
                   items []
             | Raises PermissionError => Returns []
             | Raises e => Raises e
             | Loops => Loops
             end ;;
           if truthy tracks || truthy children || include_empty
           then Returns (Some (mkCratePlan crate_name folder parent_name tracks children))
           else Returns None)%out
      | Returns false => Returns None
      | Raises e => Raises e
      | Loops => Loops
      end
  end.

(** [count_crates_and_tracks] *)
Fixpoint count_recursive (crate : CratePlan) (totals : Z * Z) : Z * Z :=
  let totals := (fst totals + 1, snd totals + Z.of_nat (length (tracks crate))) in
  (fix each (cs : list CratePlan) (totals : Z * Z) : Z * Z :=
     match cs with
     | [] => totals
     | child :: rest => each rest (count_recursive child totals)
     end) (children crate) totals.

Definition count_crates_and_tracks (crates : list CratePlan) : Z * Z :=
  fold_left (fun totals crate => count_recursive crate totals) crates (0, 0).

(** The dataclass [SyncPlan]. *)
Record SyncPlan := {
  music_root : Path;
  serato_root : Path;
  crates : list CratePlan;
  total_tracks : Z;
  total_crates : Z;
  existing_crates : list str
}.

(** ** The track path resolver (cli.py, [resolve_track_path])

    The closure over [path_mode] and [plan.music_root] takes them as
    arguments. *)
Definition resolve_track_path `{Unicode} `{Platform}
  (path_mode : str) (music_root : Path) (track : Path) : outcome str :=
  if str_eqb path_mode (lit "relative-to-music-root") then
    match relative_to track music_root with
    | Returns rel => Returns (path_str rel)
    | Raises ValueError =>
        (resolved <- os_resolve track ;;
         Returns (lstrip_slash (path_str resolved)))%out
    | Raises e => Raises e
    | Loops => Loops
    end
  else if str_eqb path_mode (lit "relative-to-volume-root") then
    (resolved <- os_resolve track ;;
     let parts := path_parts resolved in
     if (2 <? length parts)%nat && str_eqb (nth 1 parts []) (lit "Volumes")
     then Returns (join [47] (drop 3 parts))
     else Returns (lstrip_slash (path_str resolved)))%out
  else
    (resolved <- os_resolve track ;;
     Returns (lstrip_slash (path_str resolved)))%out.

(** ** The binary crate format (cli.py, [write_crate_binary]) *)

(** [s.encode('utf-16-be')] *)
Definition encode_string (s : str) : outcome bytes := utf16be_encode s.

(** [s.encode('ascii')] *)
Fixpoint ascii_encode (s : str) : outcome bytes :=
  match s with
  | [] => Returns []
  | c :: s' =>
      if c <? 0x80 then (bs <- ascii_encode s' ;; Returns (c :: bs))%out
      else Raises UnicodeEncodeError
  end.

(** [struct.pack('>I', n)]: four bytes, most significant first. *)
Definition struct_pack_I_be (n : Z) : outcome bytes :=
  if (0 <=? n) && (n <? 2 ^ 32) then
    Returns [Z.land (Z.shiftr n 24) 0xFF; Z.land (Z.shiftr n 16) 0xFF;
             Z.land (Z.shiftr n 8) 0xFF; Z.land n 0xFF]
  else Raises StructError.

Definition make_tag (tag_name : str) (data : bytes) : outcome bytes :=
  (tag_bytes <- ascii_encode tag_name ;;
   packed <- struct_pack_I_be (Z.of_nat (length data)) ;;
   Returns (tag_bytes ++ packed ++ data))%out.

Definition version_string : str := lit "1.0/Serato ScratchLive Crate".

(** The loop over the tracks, appending one chunk for each. *)
Fixpoint track_chunks (resolve_path : Path -> outcome str) (tracks : list Path)
  (chunks : list bytes) : outcome (list bytes) :=
  match tracks with
  | [] => Returns chunks
  | track :: rest =>
      (track_path <- resolve_path track ;;
       path_data <- encode_string track_path ;;
       ptrk_tag <- make_tag (lit "ptrk") path_data ;;
       otrk_tag <- make_tag (lit "otrk") ptrk_tag ;;
       track_chunks resolve_path rest (chunks ++ [otrk_tag]))%out
  end.

Definition crate_chunks (crate_plan : CratePlan) (resolve_path : Path -> outcome str)
  : outcome (list bytes) :=
  (version_data <- encode_string version_string ;;
   vrsn <- make_tag (lit "vrsn") version_data ;;
   track_chunks resolve_path (tracks crate_plan) ([] ++ [vrsn]))%out.

(** ** The Serato folder and the system around it *)

(** What the run prints and logs. *)
Inductive Event :=
| LogNoSubcrates
| LogCreatingBackup (backup_name : str)
| PrintBackupCreated (backup_name : str)
| PrintCleaning
| LogDeleted (file_name : str)
| LogCouldNotDelete (file_name : str)
| PrintDeleted (count : Z)
| PrintWriting
| LogNotInstalled
| LogSkipping (crate_filename : str)
| LogCreated (crate_filename : str) (n_tracks : nat)
| LogFailed (crate_filename : str)
| LogCreatedBinary (crate_filename : str) (n_tracks : nat)
| LogBinaryFailed
| PrintSyncComplete
| PrintCreated (count : Z)
| PrintSkipped (count : Z)
| PrintRestore (backup_name : str).

(** The Serato root: the files of its [Subcrates] folder by name (absent
    while the folder does not exist), its other folders by name, the
    number of system calls made so far, and the output so far. *)
Record World := {
  subcrates : option (gmap str bytes);
  siblings : gmap str (gmap str bytes);
  ticks : nat;
  trace : list Event
}.

(** What the program does not decide: which system calls fail, the time,
    and the optional [serato_crate] library (absent when the import fails;
    otherwise the bytes its writer produces for a list of track paths, or
    the exception it raises). *)
Class System := {
  fails : nat -> bool;
  timestamp : nat -> str;
  clock : nat -> Z;
  serato_crate : option (list str -> outcome bytes)
}.

(** Code that changes a state [S] and may raise: the state it leaves
    behind is kept when it raises. *)
Definition ST (S A : Type) : Type := S -> outcome A * S.

Definition st_ret {S A} (a : A) : ST S A := fun s => (Returns a, s).

Definition st_bind {S A B} (m : ST S A) (k : A -> ST S B) : ST S B :=
  fun s =>
    match m s with
    | (Returns a, s') => k a s'
    | (Raises e, s') => (Raises e, s')
    | (Loops, s') => (Loops, s')
    end.

Declare Scope st_scope.
Delimit Scope st_scope with st.
Notation "x <- m ;; k" := (st_bind m (fun x => k))
  (at level 100, m at next level, right associativity) : st_scope.
Notation "m ;;; k" := (st_bind m (fun _ => k))
  (at level 100, right associativity) : st_scope.

(** [try: body except Exception: handler] *)
Definition st_try {S A} (body : ST S A) (handler : exn -> ST S A) : ST S A :=
  fun s =>
    match body s with
    | (Raises e, s') => handler e s'
    | r => r
    end.

Definition IO : Type -> Type := ST World.

(** A pure computation inside the run. *)
Definition st_lift {S A} (m : outcome A) : ST S A := fun s => (m, s).

Definition emit (ev : Event) : IO unit :=
  fun w => (Returns tt, {| subcrates := subcrates w; siblings := siblings w;
                           ticks := ticks w; trace := trace w ++ [ev] |}).

(** One system call: it counts, and fails when the system says so. *)
Definition syscall `{System} : IO unit :=
  fun w =>
    let w' := {| subcrates := subcrates w; siblings := siblings w;
                 ticks := S (ticks w); trace := trace w |} in
    if fails (ticks w) then (Raises OSError, w') else (Returns tt, w').

Definition get_world : IO World := fun w => (Returns w, w).

Definition set_subcrates (d : option (gmap str bytes)) : IO unit :=
  fun w => (Returns tt, {| subcrates := d; siblings := siblings w;
                           ticks := ticks w; trace := trace w |}).

Definition set_siblings (s : gmap str (gmap str bytes)) : IO unit :=
  fun w => (Returns tt, {| subcrates := subcrates w; siblings := s;
                           ticks := ticks w; trace := trace w |}).

(** [open(crate_file, 'wb')] followed by [f.write(chunk)] for each chunk:
    the file is created or emptied, then grows chunk by chunk. *)
Definition write_file (file_name : str) (chunks : list bytes) : World -> World :=
  fun w =>
    match subcrates w with
    | Some files =>
        {| subcrates :=
             Some (fold_left (fun fs chunk =>
                                <[file_name := default [] (fs !! file_name) ++ chunk]> fs)
                             chunks (<[file_name := []]> files));
           siblings := siblings w; ticks := ticks w; trace := trace w |}
    | None => w
    end.

Definition open_and_write `{System} (file_name : str) (chunks : list bytes) : IO unit :=
  (syscall ;;;
   w <- get_world ;;
   match subcrates w with
   | Some _ => fun w => (Returns tt, write_file file_name chunks w)
   | None => st_lift (Raises OSError)
   end)%st.

(** [write_crate_binary]: the chunks are built first, then written. *)
Definition write_crate_binary `{System} (crate_file : str) (crate_plan : CratePlan)
  (resolve_path : Path -> outcome str) : IO unit :=
  (chunks <- st_lift (crate_chunks crate_plan resolve_path) ;;
   open_and_write crate_file chunks)%st.

(** ** Backup and clean-up (cli.py, [backup_subcrates], [clean_existing_crates]) *)

(** [shutil.copytree(src, dst)] of the [Subcrates] folder to a new folder
    of the Serato root; an existing destination is an error. *)
Definition copytree `{System} (files : gmap str bytes) (backup_name : str) : IO unit :=
  (syscall ;;;
   w <- get_world ;;
   match siblings w !! backup_name with
   | Some _ => st_lift (Raises FileExistsError)
   | None => set_siblings (<[backup_name := files]> (siblings w))
   end)%st.

(** [backup_subcrates]: the name of the backup folder, or [None] when
    there is nothing to back up. *)
Definition backup_subcrates `{System} : IO (option str) :=
  (w <- get_world ;;
   match subcrates w with
   | None => emit LogNoSubcrates ;;; st_ret None
   | Some files =>
       let backup_name := lit "Subcrates.BACKUP." ++ timestamp (ticks w) in
       emit (LogCreatingBackup backup_name) ;;;
       copytree files backup_name ;;;
       st_ret (Some backup_name)
   end)%st.

(** [subcrates.mkdir(parents=True, exist_ok=True)] *)
Definition mkdir_subcrates `{System} : IO unit :=
  (syscall ;;;
   w <- get_world ;;
   match subcrates w with
   | Some _ => st_ret tt
   | None => set_subcrates (Some ∅)
   end)%st.

(** [crate_file.unlink()] *)
Definition unlink `{System} (file_name : str) : IO unit :=
  (syscall ;;;
   w <- get_world ;;
   match subcrates w with
   | Some files => set_subcrates (Some (delete file_name files))
   | None => st_lift (Raises OSError)
   end)%st.

(** The loop of [clean_existing_crates] over the files that match
    [*.crate]. *)
Fixpoint clean_loop `{System} (crate_files : list str) (deleted_count : Z) : IO Z :=
  match crate_files with
  | [] => st_ret deleted_count
  | crate_file :: rest =>
      (deleted_count <-
         st_try (unlink crate_file ;;;
                 emit (LogDeleted crate_file) ;;;
                 st_ret (deleted_count + 1))
                (fun _ => emit (LogCouldNotDelete crate_file) ;;; st_ret deleted_count) ;;
       clean_loop rest deleted_count)%st
  end.

(** [subcrates.glob(pattern)] for the pattern that ends in [.crate]. *)
Definition glob_crate (files : gmap str bytes) : list str :=
  List.filter (endswith (lit ".crate")) (map fst (map_to_list files)).

Definition clean_existing_crates `{System} : IO Z :=
  (w <- get_world ;;
   match subcrates w with
   | None => st_ret 0
   | Some files => clean_loop (glob_crate files) 0
   end)%st.

(** ** The crate file writer (cli.py, [write_crates_with_serato_crate]) *)

(** The body of the outer [try] of [write_crate_recursive]: a crate object
    of the library, every track path appended, the crate written. The
    library's [write] opens the file, which creates or empties it, before
    it encodes the crate: a write that raises leaves the file empty. *)
Definition write_with_library `{Unicode} `{Platform} `{System}
  (write : list str -> outcome bytes) (crate_file : str) (crate_plan : CratePlan)
  (path_mode : str) (music_root : Path) : IO unit :=
  (track_paths <- st_lift (omap (resolve_track_path path_mode music_root)
                                (tracks crate_plan)) ;;
   open_and_write crate_file [] ;;;
   data <- st_lift (write track_paths) ;;
   fun w => (Returns tt, write_file crate_file [data] w))%st.

(** [write_crate_recursive]; the counters [crates_created] and
    [crates_skipped] of the enclosing function are passed along. *)
Fixpoint write_crate_recursive `{Unicode} `{Platform} `{System}
  (write : list str -> outcome bytes)
  (overwrite : bool) (subcrate_delimiter path_mode : str) (music_root : Path)
  (crate_plan : CratePlan) (parent_prefix : str) (counts : Z * Z) : IO (Z * Z) :=
  let crate_filename :=
    if truthy parent_prefix
    then parent_prefix ++ subcrate_delimiter ++ name crate_plan
    else name crate_plan in
  (crate_filename <- st_lift (sanitize_crate_filename crate_filename default_max_bytes) ;;
   let crate_file := crate_filename ++ lit ".crate" in
   w <- get_world ;;
   let exists_ :=
     match subcrates w with Some files => bool_decide (is_Some (files !! crate_file))
                       | None => false end in
   counts <-
     (if exists_ && negb overwrite then
        emit (LogSkipping crate_filename) ;;;
        st_ret (fst counts, snd counts + 1)
      else
        st_try
          (write_with_library write crate_file crate_plan path_mode music_root ;;;
           emit (LogCreated crate_filename (length (tracks crate_plan))) ;;;
           st_ret (fst counts + 1, snd counts))
          (fun _ =>
             emit (LogFailed crate_filename) ;;;
             st_try
               (write_crate_binary crate_file crate_plan
                  (resolve_track_path path_mode music_root) ;;;
                emit (LogCreatedBinary crate_filename (length (tracks crate_plan))) ;;;
                st_ret (fst counts + 1, snd counts))
               (fun _ => emit LogBinaryFailed ;;; st_ret counts))) ;;
   (fix each (cs : list CratePlan) (counts : Z * Z) : IO (Z * Z) :=
      match cs with
      | [] => st_ret counts
      | child :: rest =>
          counts <- write_crate_recursive write overwrite subcrate_delimiter
                      path_mode music_root child crate_filename counts ;;
          each rest counts
      end) (children crate_plan) counts)%st.

Fixpoint write_each `{Unicode} `{Platform} `{System}
  (write : list str -> outcome bytes)
  (overwrite : bool) (subcrate_delimiter path_mode : str) (music_root : Path)
  (crates : list CratePlan) (counts : Z * Z) : IO (Z * Z) :=
  match crates with
  | [] => st_ret counts
  | crate_plan :: rest =>
      (counts <- write_crate_recursive write overwrite subcrate_delimiter
                   path_mode music_root crate_plan [] counts ;;
       write_each write overwrite subcrate_delimiter path_mode music_root rest counts)%st
  end.

Definition write_crates_with_serato_crate `{Unicode} `{Platform} `{System}
  (plan : SyncPlan) (overwrite : bool) (subcrate_delimiter path_mode : str)
  : IO (Z * Z) :=
  match serato_crate with
  | None => (emit LogNotInstalled ;;; st_ret (0, 0))%st
  | Some write =>
      (mkdir_subcrates ;;;
       write_each write overwrite subcrate_delimiter path_mode (music_root plan)
         (crates plan) (0, 0))%st
  end.

(** ** The orchestrator (cli.py, [execute_sync]) *)
Definition execute_sync `{Unicode} `{Platform} `{System}
  (plan : SyncPlan) (overwrite clean : bool) (subcrate_delimiter path_mode : str)
  : IO bool :=
  (backup_path <- backup_subcrates ;;
   match backup_path with
   | Some b => emit (PrintBackupCreated b)
   | None => st_ret tt
   end ;;;
   mkdir_subcrates ;;;
   (if clean then
      emit PrintCleaning ;;;
      deleted <- clean_existing_crates ;;
      emit (PrintDeleted deleted)
    else st_ret tt) ;;;
   emit PrintWriting ;;;
   counts <- write_crates_with_serato_crate plan (overwrite || clean)
               subcrate_delimiter path_mode ;;
   emit PrintSyncComplete ;;;
   emit (PrintCreated (fst counts)) ;;;
   emit (PrintSkipped (snd counts)) ;;;
   match backup_path with
   | Some b => emit (PrintRestore b)
   | None => st_ret tt
   end ;;;
   st_ret true)%st.

(** ** The SQLite writer (cli.py, [write_crates_to_sqlite])

    The two tables the writer touches: [container], one row per crate in
    insertion order, and the one-column table [serato] with the library's
    revision counter. *)
Record Row := {
  row_id : Z;
  row_revision : Z;
  row_parent_id : Z;
  row_name : str;
  row_type : Z;
  row_list_order : Z;
  row_time_added : Z;
  row_expanded : Z;
  row_portable_id : str
}.

Record Database := {
  serato : list Z;
  container : list Row
}.

(** An open connection: the database as the connection sees it, with the
    statements not yet committed, and the number of calls made to SQLite. *)
Record Session := {
  db : Database;
  calls : nat
}.

Definition SQL : Type -> Type := ST Session.

(** One call into SQLite ([connect], [execute], [commit]): it counts, and
    fails when the system says so. *)
Definition sql_call `{System} : SQL unit :=
  fun s =>
    let s' := {| db := db s; calls := S (calls s) |} in
    if fails (calls s) then (Raises SqliteError, s') else (Returns tt, s').

Definition get_db : SQL Database := fun s => (Returns (db s), s).

Definition set_db (d : Database) : SQL unit :=
  fun s => (Returns tt, {| db := d; calls := calls s |}).

(** [SELECT revision FROM serato LIMIT 1] and [fetchone()] *)
Definition select_revision `{System} : SQL (option Z) :=
  (sql_call ;;; d <- get_db ;; st_ret (head (serato d)))%st.

(** [SELECT COALESCE(MAX(list_order), 0) + 1 FROM container WHERE parent_id = 0] *)
Definition max_list_order (rows : list Row) : Z :=
  match map row_list_order rows with
  | [] => 0
  | x :: xs => fold_left Z.max xs x
  end.

Definition select_next_order `{System} : SQL Z :=
  (sql_call ;;;
   d <- get_db ;;
   st_ret (max_list_order (List.filter (fun r => row_parent_id r =? 0) (container d)) + 1))%st.

(** [SELECT id FROM container WHERE parent_id = ? AND name = ? AND type = 1]
    and [fetchone()]: the first row that matches, if any. *)
Definition matches (parent_id : Z) (name : str) (r : Row) : bool :=
  (row_parent_id r =? parent_id) && str_eqb (row_name r) name && (row_type r =? 1).

Definition select_existing `{System} (parent_id : Z) (name : str) : SQL (option Z) :=
  (sql_call ;;;
   d <- get_db ;;
   st_ret (option_map row_id (List.find (matches parent_id name) (container d))))%st.

(** The id SQLite gives the next row: one more than the largest in use,
    and 1 in an empty table. *)
Definition next_id (rows : list Row) : Z :=
  match map row_id rows with
  | [] => 1
  | x :: xs => fold_left Z.max xs x + 1
  end.

(** [INSERT INTO container (...) VALUES (?, ?, ?, 1, ?, ?, 0, ?)] and
    [cursor.lastrowid] *)
Definition insert_container `{System}
  (revision parent_id : Z) (name : str) (list_order time_added : Z) (portable_id : str)
  : SQL Z :=
  (sql_call ;;;
   d <- get_db ;;
   let crate_id := next_id (container d) in
   set_db {| serato := serato d;
             container := container d ++
               [{| row_id := crate_id; row_revision := revision;
                   row_parent_id := parent_id; row_name := name; row_type := 1;
                   row_list_order := list_order; row_time_added := time_added;
                   row_expanded := 0; row_portable_id := portable_id |}] |} ;;;
   st_ret crate_id)%st.

(** [UPDATE serato SET revision = ?] *)
Definition update_revision `{System} (revision : Z) : SQL unit :=
  (sql_call ;;;
   d <- get_db ;;
   set_db {| serato := map (fun _ => revision) (serato d); container := container d |})%st.

(** [int(time.time())] *)
Definition time_now `{System} : SQL Z := fun s => (Returns (clock (calls s)), s).

(** The variables [crates_created], [crates_skipped] and [revision] that
    [create_crate_recursive] shares with the enclosing function. *)
Record Locals := {
  crates_created : Z;
  crates_skipped : Z;
  revision : Z
}.

Fixpoint create_crate_recursive `{System} (subcrate_delimiter : str)
  (crate_plan : CratePlan) (parent_id : Z) (parent_prefix : str) (list_order : Z)
  (loc : Locals) : SQL (Z * Locals) :=
  let display_name :=
    if truthy parent_prefix
    then parent_prefix ++ subcrate_delimiter ++ name crate_plan
    else name crate_plan in
  (existing <- select_existing parent_id (name crate_plan) ;;
   r <- match existing with
        | Some crate_id =>
            st_ret (crate_id,
                    {| crates_created := crates_created loc;
                       crates_skipped := crates_skipped loc + 1;
                       revision := revision loc |})
        | None =>
            let revision := revision loc + 1 in
            now <- time_now ;;
            crate_id <- insert_container revision parent_id (name crate_plan)
                          list_order now (lit "crate://" ++ display_name) ;;
            st_ret (crate_id,
                    {| crates_created := crates_created loc + 1;
                       crates_skipped := crates_skipped loc;
                       revision := revision |})
        end ;;
   let crate_id := fst r in
   loc <- (fix each (cs : list CratePlan) (child_order : Z) (loc : Locals)
             : SQL Locals :=
             match cs with
             | [] => st_ret loc
             | child :: rest =>
                 r <- create_crate_recursive subcrate_delimiter child crate_id
                        display_name child_order loc ;;
                 each rest (child_order + 1) (snd r)
             end) (children crate_plan) 1 (snd r) ;;
   st_ret (crate_id, loc))%st.

(** The loop over [plan.crates], from the root container 0. *)
Fixpoint create_each `{System} (subcrate_delimiter : str) (crates : list CratePlan)
  (next_order : Z) (loc : Locals) : SQL Locals :=
  match crates with
  | [] => st_ret loc
  | crate_plan :: rest =>
      (r <- create_crate_recursive subcrate_delimiter crate_plan 0 [] next_order loc ;;
       create_each subcrate_delimiter rest (next_order + 1) (snd r))%st
  end.

(** The body of the [try]: from [connect] to [commit]. *)
Definition sqlite_session `{System} (plan : SyncPlan) (subcrate_delimiter : str)
  : SQL (Z * Z) :=
  (sql_call ;;;
   row <- select_revision ;;
   next_order <- select_next_order ;;
   loc <- create_each subcrate_delimiter (crates plan) next_order
            {| crates_created := 0; crates_skipped := 0;
               revision := match row with Some r => r | None => 1 end |} ;;
   update_revision (revision loc) ;;;
   sql_call ;;;
   st_ret (crates_created loc, crates_skipped loc))%st.

(** The database file, when there is one, and the calls made so far. *)
Record Store := {
  db_file : option Database;
  sql_calls : nat
}.

(** [write_crates_to_sqlite]: nothing without a database file; what the
    session did is on disk once its [commit] went through, and not at all
    when anything before raised. *)
Definition write_crates_to_sqlite `{System} (plan : SyncPlan) (subcrate_delimiter : str)
  (st : Store) : (Z * Z) * Store :=
  match db_file st with
  | None => ((0, 0), st)
  | Some d =>
      match sqlite_session plan subcrate_delimiter {| db := d; calls := sql_calls st |} with
      | (Returns counts, s) => (counts, {| db_file := Some (db s); sql_calls := calls s |})
      | (_, s) => ((0, 0), {| db_file := Some d; sql_calls := calls s |})
      end
  end.

(** ** Specification-level definitions *)

(** Systems used in examples: every path handed to [resolve] is already
    canonical, on a POSIX and on a Windows machine. *)
Definition posix_canonical : Platform :=
  {| path_flavour := Posix; os_resolve := fun p => Returns p |}.

Definition windows_canonical : Platform :=
  {| path_flavour := Windows; os_resolve := fun p => Returns p |}.

(** The crate format in the words of its description: a chunk is a
    four-byte tag, the payload length as four bytes, most significant
    first, and the payload; text is UTF-16, most significant byte first,
    with neither byte-order mark nor terminator. *)
Definition be32 (n : Z) : bytes :=
  [(n / 2 ^ 24) mod 256; (n / 2 ^ 16) mod 256; (n / 2 ^ 8) mod 256; n mod 256].

Definition be16 (u : Z) : bytes := [u / 256; u mod 256].

Definition utf16be (s : str) : bytes :=
  flat_map (fun c =>
              if c <? 0x10000 then be16 c
              else be16 (0xD800 + (c - 0x10000) / 1024) ++
                   be16 (0xDC00 + (c - 0x10000) mod 1024)) s.

Definition chunk (tag : str) (payload : bytes) : bytes :=
  tag ++ be32 (Z.of_nat (length payload)) ++ payload.

Definition crate_encoding (track_paths : list str) : bytes :=
  chunk (lit "vrsn") (utf16be version_string) ++
  concat (map (fun p => chunk (lit "otrk") (chunk (lit "ptrk") (utf16be p))) track_paths).

(** A path string the format can hold: no lone surrogate, and a payload
    whose length fits the four-byte field once wrapped. *)
Definition storable (p : str) : Prop :=
  Forall (fun c => is_surrogate c = false) p /\
  Z.of_nat (length (utf16be p)) + 8 < 2 ^ 32.

(** A system where no call fails and the library is not installed, and
    one where the library writes the same format as the fallback. *)
Definition calm_system : System :=
  {| fails := fun _ => false;
     timestamp := fun _ => lit "20240101_120000";
     clock := fun _ => 1704110400;
     serato_crate := None |}.

Definition library_system : System :=
  {| fails := fun _ => false;
     timestamp := fun _ => lit "20240101_120000";
     clock := fun _ => 1704110400;
     serato_crate := Some (fun paths => Returns (crate_encoding paths)) |}.

(** A track on a Windows drive, [C:\Music\a.mp3]. *)
Definition windows_track : Path :=
  {| path_drv := lit "C:"; path_root := [92]; path_tail := [lit "Music"; lit "a.mp3"] |}.

(** A track below a POSIX root, [/Users/dj/Music/a.mp3]. *)
Definition posix_track : Path :=
  {| path_drv := []; path_root := [47];
     path_tail := [lit "Users"; lit "dj"; lit "Music"; lit "a.mp3"] |}.

(** The children [build_crate_tree] collects for a folder: the crates of
    its visible subfolders, built one level deeper. *)
Definition subfolder_crates `{Unicode} `{Platform} (depth : nat)
  (folder : Path) (node : FsNode) (extensions : gset str)
  (parent_name : option str) (include_empty : bool) : outcome (list CratePlan) :=
  match iterdir_sorted folder node with
  | Returns items =>
      collect_children
        (fun subfolder sub =>
           build_crate_tree depth subfolder sub extensions
             (Some (match parent_name with
                    | None => path_name folder
                    | Some pn => pn ++ lit "%%" ++ path_name folder
                    end))
             include_empty)
        items []
  | Raises PermissionError => Returns []
  | Raises e => Raises e
  | Loops => Loops
  end.

(** A property of every crate of a tree. *)
Fixpoint every_crate (P : CratePlan -> Prop) (c : CratePlan) : Prop :=
  P c /\
  (fix all (cs : list CratePlan) : Prop :=
     match cs with
     | [] => True
     | x :: rest => every_crate P x /\ all rest
     end) (children c).

(** A crate that is there for a reason: it has a track, or a child, or
    empty crates were asked for. *)
Definition justified (include_empty : bool) (c : CratePlan) : Prop :=
  tracks c <> [] \/ children c <> [] \/ include_empty = true.

(** The number of nested folders of a folder tree. *)
Fixpoint fs_height (n : FsNode) : nat :=
  match n with
  | FsDir _ _ entries => S (fold_right Nat.max 0%nat (map fs_height entries))
  | _ => 1%nat
  end.

(** The folder tree of the test suite. *)
Definition test_extensions : gset str :=
  list_to_set [lit ".mp3"; lit ".m4a"; lit ".aiff"; lit ".aif"; lit ".wav"; lit ".flac"].

Definition test_music_folder : FsNode :=
  FsDir (lit "MusicRoot") true
    [ FsDir (lit "House") true
        [ FsDir (lit "Deep") true [FsFile (lit "track1.mp3"); FsFile (lit "track2.mp3")];
          FsDir (lit "Classic") true [FsFile (lit "track3.mp3")] ];
      FsDir (lit "HipHop") true
        [FsFile (lit "track4.mp3"); FsFile (lit "track5.m4a"); FsFile (lit "readme.txt")];
      FsDir (lit "EmptyFolder") true [];
      FsDir (lit ".hidden") true [FsFile (lit "secret.mp3")] ].

Definition test_music_root : Path :=
  {| path_drv := []; path_root := [47]; path_tail := [lit "tmp"; lit "MusicRoot"] |}.

(** The loop over the children of a crate in [create_crate_recursive]. *)
Fixpoint create_children `{System} (subcrate_delimiter : str) (cs : list CratePlan)
  (crate_id : Z) (display_name : str) (child_order : Z) (loc : Locals) : SQL Locals :=
  match cs with
  | [] => st_ret loc
  | child :: rest =>
      (r <- create_crate_recursive subcrate_delimiter child crate_id display_name
              child_order loc ;;
       create_children subcrate_delimiter rest crate_id display_name
         (child_order + 1) (snd r))%st
  end.

(** The name a crate is displayed under, below a prefix. *)
Definition display_name_of (subcrate_delimiter parent_prefix : str) (c : CratePlan) : str :=
  if truthy parent_prefix then parent_prefix ++ subcrate_delimiter ++ name c else name c.

(** A session that only grew the [container] table: the rows it found are
    still there, unchanged and in place, and [serato] is as it was. *)
Definition grown (s s' : Session) : Prop :=
  exists added,
    container (db s') = container (db s) ++ added /\ serato (db s') = serato (db s).

(** The number of crates of a plan, as [count_crates_and_tracks] counts. *)
Definition crate_total (cs : list CratePlan) : Z := fst (count_crates_and_tracks cs).

(** A database of the kind Serato keeps: two crates at top level, one of
    them with a subcrate, and a smart crate of another type. *)
Definition sample_row (id parent : Z) (nm : string) (ty order : Z) : Row :=
  {| row_id := id; row_revision := 7; row_parent_id := parent; row_name := lit nm;
     row_type := ty; row_list_order := order; row_time_added := 1700000000;
     row_expanded := 0; row_portable_id := lit "crate://" ++ lit nm |}.

Definition sample_database : Database :=
  {| serato := [41];
     container := [sample_row 1 0 "House" 1 1; sample_row 2 1 "Deep" 1 1;
                   sample_row 3 0 "Recent" 2 2; sample_row 4 0 "Techno" 1 3] |}.

(** A plan with a crate the sample database has and two it has not. *)
Definition sample_plan : SyncPlan :=
  {| music_root := test_music_root;
     serato_root := {| path_drv := []; path_root := [47];
                       path_tail := [lit "tmp"; lit "_Serato_"] |};
     crates := [mkCratePlan (lit "House") test_music_root None []
                  [mkCratePlan (lit "Deep") test_music_root (Some (lit "House"))
                     [path_child test_music_root (lit "a.mp3")] [];
                   mkCratePlan (lit "Classic") test_music_root (Some (lit "House"))
                     [path_child test_music_root (lit "b.mp3")] []];
                mkCratePlan (lit "HipHop") test_music_root None
                  [path_child test_music_root (lit "c.mp3")] []];
     total_tracks := 3; total_crates := 4; existing_crates := [] |}.

(** A system whose fourth call into SQLite fails. *)
Definition failing_system : System :=
  {| fails := fun n => (n =? 4)%nat;
     timestamp := fun _ => lit "20240101_120000";
     clock := fun _ => 1704110400;
     serato_crate := None |}.

(** ** Predicates of the proofs *)

(** A string without lone surrogates, which [encode] accepts. *)
Definition encodable (s : str) : Prop := Forall (fun c => is_surrogate c = false) s.

(** A string is stripped when neither end is white space. *)
Definition stripped (s : str) : Prop := lstrip s = s /\ rstrip s = s.

(** A character the first three steps of the sanitiser leave alone, and a
    string of such characters that is normalised. *)
Definition plain (c : codepoint) : Prop :=
  is_invisible c = false /\ is_reserved c = false /\ is_surrogate c = false.

Definition settled `{Unicode} (s : str) : Prop := Forall plain s /\ nfc_stable s.

(** [stable R m]: whatever [m] does, the state it leaves is related to the
    one it started in. *)
Definition stable {S A} (R : S -> S -> Prop) (m : ST S A) : Prop :=
  forall s, R s (snd (m s)).

(** One more system call made. *)
Definition ticked (w : World) : World :=
  {| subcrates := subcrates w; siblings := siblings w;
     ticks := S (ticks w); trace := trace w |}.

(** The other folders of the Serato root stay as they are. *)
Definition same_siblings (w w' : World) : Prop := siblings w' = siblings w.

(** The [Subcrates] folder stays as it is. *)
Definition same_subcrates (w w' : World) : Prop := subcrates w' = subcrates w.

(** The output only grows. *)
Definition trace_grows (w w' : World) : Prop :=
  exists later, trace w' = trace w ++ later.

(** The output grows, and by no report of a deleted crate file. *)
Definition is_deletion (ev : Event) : bool :=
  match ev with LogDeleted _ => true | _ => false end.

Definition nothing_deleted (w w' : World) : Prop :=
  exists later,
    trace w' = trace w ++ later /\ forallb (fun ev => negb (is_deletion ev)) later = true.

(** One more call into SQLite made. *)
Definition called (s : Session) : Session := {| db := db s; calls := S (calls s) |}.

(** The counters follow the table: every row added is a crate counted as
    created and one step of the revision. *)
Definition accounted (loc loc' : Locals) (s s' : Session) : Prop :=
  exists added,
    container (db s') = container (db s) ++ added
    /\ serato (db s') = serato (db s)
    /\ crates_created loc' = crates_created loc + Z.of_nat (length added)
    /\ revision loc' = revision loc + Z.of_nat (length added)
    /\ Forall (fun r => row_type r = 1) added.

(** The number of crates of one tree and of a list of trees. *)
Definition crate_count (c : CratePlan) : Z := fst (count_recursive c (0, 0)).

Definition crates_count (cs : list CratePlan) : Z :=
  fst (fold_left (fun totals c => count_recursive c totals) cs (0, 0)).

(** A crate that a run resolved to [cid] is resolved to [cid] again by any
    later run that finds the table grown only, and that run adds nothing:
    it counts the crate and all below it as skipped. *)
Definition rerun_skips `{System} (delim : str) (c : CratePlan) : Prop :=
  forall parent_id parent_prefix list_order loc s cid loc' s',
    create_crate_recursive delim c parent_id parent_prefix list_order loc s
      = (Returns (cid, loc'), s') ->
    forall prefix2 order2 loc2 s2 more,
      container (db s2) = container (db s') ++ more ->
      (forall n, (calls s2 <= n)%nat -> fails n = false) ->
      exists s2',
        create_crate_recursive delim c parent_id prefix2 order2 loc2 s2
        = (Returns (cid, {| crates_created := crates_created loc2;
                            crates_skipped := crates_skipped loc2 + crate_count c;
                            revision := revision loc2 |}), s2')
        /\ db s2' = db s2 /\ (calls s2 <= calls s2')%nat.

(** [honest m]: [m] returns only if none of the calls it made failed, and
    fails to return only because its last call failed. *)
Definition honest `{System} {A} (m : SQL A) : Prop :=
  forall s,
    match m s with
    | (Returns _, s') =>
        (calls s <= calls s')%nat /\
        forall n, (calls s <= n < calls s')%nat -> fails n = false
    | (_, s') =>
        (calls s < calls s')%nat /\ fails (pred (calls s')) = true /\
        forall n, (calls s <= n < pred (calls s'))%nat -> fails n = false
    end.

(** The revision a session starts from. *)
Definition first_revision (d : Database) : Z :=
  match head (serato d) with Some r => r | None => 1 end.

(** ** More examples *)

(** The crate of the binary writer's test: two tracks, no children. *)
Definition test_crate : CratePlan :=
  mkCratePlan (lit "TestCrate") (path_child test_music_root (lit "HipHop")) None
    [path_child (path_child test_music_root (lit "HipHop")) (lit "track4.mp3");
     path_child (path_child test_music_root (lit "HipHop")) (lit "track5.m4a")] [].

(** The Serato folder of the tests: one crate file in [Subcrates]. *)
Definition test_serato_world : World :=
  {| subcrates := Some {[ lit "ExistingCrate.crate" := [] ]};
     siblings := ∅; ticks := 0; trace := [] |}.

(** What the scanner builds of the test folder. *)
Definition test_music_plan : option CratePlan :=
  Eval vm_compute in
    match @build_crate_tree ascii_unicode posix_canonical 4 test_music_root
            test_music_folder test_extensions None false with
    | Returns r => r
    | _ => None
    end.

Definition sample_store : Store := {| db_file := Some sample_database; sql_calls := 0 |}.



From Stdlib Require Import Sorting.Sorted.

(** ** The rest of the command line tool *)

(** ** Planning (cli.py, [get_existing_crate_names], [create_sync_plan]) *)

(** [p.stem]: the name without its suffix. *)
Definition path_stem (p : Path) : str :=
  let name := path_name p in
  match rfind_from 46 name 0 with
  | Some i => if (0 <? i)%nat && (i <? length name - 1)%nat then take i name else name
  | None => name
  end.

(** [get_subcrates_folder] *)
Definition get_subcrates_folder (serato_root : Path) : Path :=
  path_child serato_root (lit "Subcrates").

(** [get_existing_crate_names]: the stems of the entries of [Subcrates]
    whose suffix is [.crate], in the order the folder lists them. *)
Definition get_existing_crate_names (serato_root : Path) : IO (list str) :=
  let subcrates_folder := get_subcrates_folder serato_root in
  (w <- get_world ;;
   match subcrates w with
   | None => st_ret []
   | Some files =>
       st_ret (map path_stem
                 (List.filter (fun f => str_eqb (path_suffix f) (lit ".crate"))
                    (map (fun kv => path_child subcrates_folder (fst kv))
                       (map_to_list files))))
   end)%st.

(** [create_sync_plan]; [music] is the music folder as the scanner sees
    it and [depth] the calls the interpreter still allows. *)
Definition create_sync_plan `{Unicode} `{Platform} (depth : nat)
  (music_root : Path) (music : FsNode) (serato_root : Path)
  (extensions : gset str) (include_empty : bool) : IO SyncPlan :=
  (root_crate <- st_lift (build_crate_tree depth music_root music extensions None
                            include_empty) ;;
   let crates := match root_crate with
                 | Some c => [] ++ [c]
                 | None => []
                 end in
   let totals := count_crates_and_tracks crates in
   existing <- get_existing_crate_names serato_root ;;
   st_ret {| music_root := music_root; serato_root := serato_root; crates := crates;
             total_tracks := snd totals; total_crates := fst totals;
             existing_crates := existing |})%st.

(** ** The extensions option (cli.py, [parse_extensions]) *)

(** [s.split(",")]: the pieces between the commas, always at least one. *)
Fixpoint split_comma (s : str) : list str :=
  match s with
  | [] => [[]]
  | c :: s' =>
      if c =? 44 then [] :: split_comma s'
      else match split_comma s' with
           | [] => [[c]]
           | part :: parts => (c :: part) :: parts
           end
  end.

(** [parse_extensions]: each piece stripped and lowered, with a dot put in
    front unless it begins with one, added to a set. *)
Definition parse_extensions `{Unicode} (ext_str : str) : gset str :=
  fold_left
    (fun extensions ext =>
       let ext := lower (strip ext) in
       let ext := if negb (startswith [46] ext) then [46] ++ ext else ext in
       extensions ∪ {[ ext ]})
    (split_comma ext_str) ∅.

(** ** The database file (cli.py, [clear_serato_database])

    The files that lie directly in the Serato root, by name, with the
    number of system calls made so far and what was logged. *)
Inductive DbEvent :=
| LogNoDatabase
| LogBackedUp (backup_name : str)
| LogDatabaseDeleted
| LogCouldNotClear.

Record RootFolder := {
  root_files : gmap str bytes;
  root_ticks : nat;
  root_log : list DbEvent
}.

Definition RootIO : Type -> Type := ST RootFolder.

Definition root_log_event (ev : DbEvent) : RootIO unit :=
  fun r => (Returns tt, {| root_files := root_files r; root_ticks := root_ticks r;
                           root_log := root_log r ++ [ev] |}).

Definition root_call `{System} : RootIO unit :=
  fun r =>
    let r' := {| root_files := root_files r; root_ticks := S (root_ticks r);
                 root_log := root_log r |} in
    if fails (root_ticks r) then (Raises OSError, r') else (Returns tt, r').

Definition get_root : RootIO RootFolder := fun r => (Returns r, r).

Definition set_root_files (files : gmap str bytes) : RootIO unit :=
  fun r => (Returns tt, {| root_files := files; root_ticks := root_ticks r;
                           root_log := root_log r |}).

(** [shutil.copy2(src, dst)]: the destination is created or replaced. *)
Definition copy2 `{System} (src dst : str) : RootIO unit :=
  (root_call ;;;
   r <- get_root ;;
   match root_files r !! src with
   | Some data => set_root_files (<[dst := data]> (root_files r))
   | None => st_lift (Raises OSError)
   end)%st.

(** [db_file.unlink()] *)
Definition unlink_root_file `{System} (file_name : str) : RootIO unit :=
  (root_call ;;;
   r <- get_root ;;
   match root_files r !! file_name with
   | Some _ => set_root_files (delete file_name (root_files r))
   | None => st_lift (Raises OSError)
   end)%st.

Definition database_v2 : str := lit "database V2".

Definition clear_serato_database `{System} : RootIO bool :=
  (r <- get_root ;;
   match root_files r !! database_v2 with
   | None => root_log_event LogNoDatabase ;;; st_ret false
   | Some _ =>
       let backup_name := lit "database_V2.BACKUP." ++ timestamp (root_ticks r) in
       st_try
         (copy2 database_v2 backup_name ;;;
          root_log_event (LogBackedUp backup_name) ;;;
          unlink_root_file database_v2 ;;;
          root_log_event LogDatabaseDeleted ;;;
          st_ret true)
         (fun _ => root_log_event LogCouldNotClear ;;; st_ret false)
   end)%st.

(** ** The guide (cli.py, [print_serato_guide]) *)

(** [str(n)] for an integer: its decimal digits. *)
Fixpoint decimal_digits (fuel : nat) (n : Z) (acc : str) : str :=
  match fuel with
  | O => acc
  | S fuel' =>
      let acc := (48 + n mod 10) :: acc in
      if n <? 10 then acc else decimal_digits fuel' (n / 10) acc
  end.

Definition str_of_int (n : Z) : str :=
  if n <? 0 then 45 :: decimal_digits (S (Z.to_nat (Z.log2 (- n)))) (- n) []
  else decimal_digits (S (Z.to_nat (Z.log2 n))) n [].

(** [folder.iterdir()], in the order the system lists the entries. *)
Definition iterdir (folder : Path) (node : FsNode) : outcome (list (Path * FsNode)) :=
  match node with
  | FsDir _ true entries =>
      Returns (map (fun e => (path_child folder (fs_name e), e)) entries)
  | FsDir _ false _ => Raises PermissionError
  | _ => Raises OSError
  end.

(** The loop of [count_tracks]; a [PermissionError] ends it and keeps the
    count. *)
Fixpoint count_items `{Unicode} (items : list (Path * FsNode)) (extensions : gset str)
  (count : Z) : outcome Z :=
  match items with
  | [] => Returns count
  | (item, node) :: rest =>
      match (f <- is_file node ;;
             Returns (f && bool_decide (lower (path_suffix item) ∈ extensions)))%out with
      | Returns true => count_items rest extensions (count + 1)
      | Returns false => count_items rest extensions count
      | Raises PermissionError => Returns count
      | Raises e => Raises e
      | Loops => Loops
      end
  end.

Definition count_tracks `{Unicode} (folder : Path) (node : FsNode) (extensions : gset str)
  : outcome Z :=
  match iterdir folder node with
  | Returns items => count_items items extensions 0
  | Raises PermissionError => Returns 0
  | Raises e => Raises e
  | Loops => Loops
  end.

(** [[x for x in items if x.is_dir() and not x.name.startswith(".")]] *)
Fixpoint visible_dirs (items : list (Path * FsNode)) : outcome (list (Path * FsNode)) :=
  match items with
  | [] => Returns []
  | (item, node) :: rest =>
      (d <- is_dir node ;;
       dirs <- visible_dirs rest ;;
       Returns (if d && negb (startswith [46] (path_name item))
                then (item, node) :: dirs else dirs))%out
  end.

(** The lines written to the standard output. *)
Definition Out : Type -> Type := ST (list str).

Definition print (line : str) : Out unit := fun out => (Returns tt, out ++ [line]).

(** The box-drawing pieces of the tree. *)
Definition connector_last : str := [0x2514; 0x2500; 0x2500; 32].
Definition connector_mid : str := [0x251C; 0x2500; 0x2500; 32].
Definition prefix_last : str := lit "    ".
Definition prefix_mid : str := [0x2502; 32; 32; 32].

(** The loop of [print_folder_tree] over the folders of one level, with
    the recursive call as [below]; [n_items] is their number, [deeper]
    says whether the level below is shown. *)
Fixpoint print_items `{Unicode} (below : Path -> FsNode -> str -> Out Z)
  (extensions : gset str) (prefix : str) (deeper : bool) (n_items : nat)
  (rest : list (Path * FsNode)) (i : nat) (total_folders : Z) : Out Z :=
  match rest with
  | [] => st_ret total_folders
  | (item, sub) :: rest' =>
      let is_last := (i =? n_items - 1)%nat in
      (track_count <- st_lift (count_tracks item sub extensions) ;;
       subfolder_count <-
         st_lift
           match (entries <- iterdir item sub ;; visible_dirs entries)%out with
           | Returns l => Returns (Z.of_nat (length l))
           | Raises PermissionError => Returns 0
           | Raises e => Raises e
           | Loops => Loops
           end ;;
       let connector := if is_last then connector_last else connector_mid in
       let track_info :=
         if track_count >? 0
         then lit "(" ++ str_of_int track_count ++ lit " tracks)"
         else lit "(empty)" in
       let subfolder_info :=
         if subfolder_count >? 0
         then lit " [" ++ str_of_int subfolder_count ++ lit " subfolders]"
         else [] in
       print (prefix ++ connector ++ path_name item ++ lit " "
              ++ track_info ++ subfolder_info) ;;;
       let total_folders := total_folders + 1 in
       total_folders <-
         (if deeper then
            let new_prefix := prefix ++ (if is_last then prefix_last else prefix_mid) in
            found <- below item sub new_prefix ;;
            st_ret (total_folders + found)
          else st_ret total_folders) ;;
       print_items below extensions prefix deeper n_items rest' (S i) total_folders)%st
  end.

(** [print_folder_tree]; [fuel] is the number of nested calls the
    interpreter still allows. *)
Fixpoint print_folder_tree `{Unicode} `{Platform} (fuel : nat) (max_depth : Z)
  (extensions : gset str) (folder : Path) (node : FsNode) (prefix : str) (depth : Z)
  : Out Z :=
  match fuel with
  | O => st_lift (Raises RecursionError)
  | S fuel' =>
      if depth >? max_depth then st_ret 0
      else
        match (entries <- iterdir folder node ;; visible_dirs entries)%out with
        | Raises PermissionError => st_ret 0
        | Raises e => st_lift (Raises e)
        | Loops => st_lift Loops
        | Returns dirs =>
            let items := sorted (fun a b => path_ltb (fst a) (fst b)) dirs in
            print_items
              (fun item sub new_prefix =>
                 print_folder_tree fuel' max_depth extensions item sub new_prefix
                   (depth + 1))
              extensions prefix (depth <? max_depth) (length items) items 0%nat 0
        end
  end.

Definition print_serato_guide `{Unicode} `{Platform} (fuel : nat)
  (music_root : Path) (music : FsNode) (extensions : gset str) (max_depth : Z)
  : Out unit :=
  (print (repeat 61 70) ;;;
   print (lit "SERATO CRATE CREATION GUIDE") ;;;
   print (repeat 61 70) ;;;
   print [] ;;;
   print (lit "Since Serato DJ Pro 4.0.x doesn't support external crate creation,") ;;;
   print (lit "you'll need to create crates manually. Here's how:") ;;;
   print [] ;;;
   print (lit "STEPS:") ;;;
   print (lit "1. Open Serato DJ Pro") ;;;
   print (lit "2. Click 'Files' in the left panel to show file browser") ;;;
   print (lit "3. Navigate to: " ++ path_str music_root) ;;;
   print (lit "4. For each folder below, right-click and select 'Create Crate'") ;;;
   print (lit "   OR drag the folder to the Crates panel") ;;;
   print [] ;;;
   print (repeat 45 70) ;;;
   print (lit "FOLDERS TO CREATE AS CRATES:") ;;;
   print (repeat 45 70) ;;;
   print [] ;;;
   root_tracks <- st_lift (count_tracks music_root music extensions) ;;
   print (path_name music_root ++ lit "/ (" ++ str_of_int root_tracks ++ lit " tracks)") ;;;
   total <- print_folder_tree fuel max_depth extensions music_root music [] 0 ;;
   print [] ;;;
   print (repeat 45 70) ;;;
   print (lit "Total folders to create as crates: " ++ str_of_int (total + 1)) ;;;
   print [] ;;;
   print (lit "TIP: In Serato's Files panel, you can:") ;;;
   print (lit "  - Select multiple folders with Cmd+Click") ;;;
   print (lit "  - Drag them all at once to create multiple crates") ;;;
   print (lit "  - Subcrates are created automatically when you drag a parent folder") ;;;
   print (repeat 61 70))%st.

(** ** Specification-level definitions for the properties below *)

(** The path reached from [p] through the names [names], one [/] at a time. *)
Definition descend (p : Path) (names : list str) : Path :=
  fold_left path_child names p.

(** Text as Python holds it: every code point is below [0x110000]. *)
Definition valid_text (s : str) : Prop := Forall (fun c => 0 <= c < 0x110000) s.

(** A crate whose second track has a name that cannot be encoded (a lone
    surrogate, as [os.fsdecode] makes of a stray byte). *)
Definition broken_crate : CratePlan :=
  mkCratePlan (lit "Broken") (path_child test_music_root (lit "Broken")) None
    [path_child (path_child test_music_root (lit "Broken")) (lit "ok.mp3");
     path_child (path_child test_music_root (lit "Broken")) (lit "bad" ++ [0xDCE9] ++ lit ".mp3")]
    [].

(** The tracks of [test_crate] in another crate. *)
Definition other_crate : CratePlan :=
  mkCratePlan (lit "Other") test_music_root (Some (lit "MusicRoot")) (tracks test_crate) [].

(** The audio files of a folder in the words of the scanner's description:
    the entries that are files and whose suffix, in lower case, is one of
    the extensions, each with its path. *)
Definition audio_entries `{Unicode} (folder : Path) (entries : list FsNode)
  (extensions : gset str) : list Path :=
  map (fun e => path_child folder (fs_name e))
    (List.filter
       (fun e => match e with
                 | FsFile file_name =>
                     bool_decide (lower (path_suffix (path_child folder file_name))
                                  ∈ extensions)
                 | _ => false
                 end)
       entries).

(** [a <= b] on paths: [b < a] does not hold. *)
Definition path_leb `{Unicode} `{Platform} (a b : Path) : bool := negb (path_ltb b a).

(** The prefix a crate hands to its children as their [parent_name]. *)
Definition child_parent_name (d : CratePlan) : str :=
  match parent_name d with
  | None => name d
  | Some pn => pn ++ lit "%%" ++ name d
  end.

(** A crate that mirrors its folder: it has the folder's name, its tracks
    lie directly in the folder, and its children are crates of direct
    subfolders that know their parent's chain of names. *)
Definition mirrors_folder (d : CratePlan) : Prop :=
  name d = path_name (path d)
  /\ Forall (fun t => exists file_name, t = path_child (path d) file_name) (tracks d)
  /\ Forall (fun e => path e = path_child (path d) (name e)
                      /\ parent_name e = Some (child_parent_name d))
            (children d).

(** No child of the crate is named like a hidden folder. *)
Definition no_hidden_child (d : CratePlan) : Prop :=
  Forall (fun e => startswith [46] (name e) = false) (children d).

(** The crates and the tracks of a tree, counted by recursion on the tree. *)
Fixpoint plan_crates (c : CratePlan) : Z :=
  1 + (fix sum (cs : list CratePlan) : Z :=
         match cs with
         | [] => 0
         | x :: rest => plan_crates x + sum rest
         end) (children c).

Fixpoint plan_tracks (c : CratePlan) : Z :=
  Z.of_nat (length (tracks c)) +
  (fix sum (cs : list CratePlan) : Z :=
     match cs with
     | [] => 0
     | x :: rest => plan_tracks x + sum rest
     end) (children c).

Definition sum_over {A} (f : A -> Z) (l : list A) : Z :=
  fold_right (fun x acc => f x + acc) 0 l.

(** The crate the scanner builds of the test folder, and the folder
    [HipHop] of the test suite. *)
Definition test_music_crate : CratePlan :=
  Eval vm_compute in
    match test_music_plan with
    | Some c => c
    | None => mkCratePlan [] test_music_root None [] []
    end.

Definition hiphop_entries : list FsNode :=
  [FsFile (lit "track5.m4a"); FsFile (lit "readme.txt"); FsFile (lit "track4.MP3");
   FsDir (lit "live.mp3") true []].

(** The Serato folder of the tests after a backup made at the time every
    example system shows. *)
Definition backed_up_world : World :=
  {| subcrates := Some {[ lit "ExistingCrate.crate" := [] ]};
     siblings := {[ lit "Subcrates.BACKUP.20240101_120000" := {[ lit "Old.crate" := [1] ]} ]};
     ticks := 0; trace := [] |}.

(** The root of the test Serato folder. *)
Definition test_serato_root : Path :=
  {| path_drv := []; path_root := [47]; path_tail := [lit "tmp"; lit "_Serato_"] |}.

(** The [Subcrates] folder holds the files [orig], each with the content
    it has in [orig]. *)
Definition holds_files (orig : gmap str bytes) (w : World) : Prop :=
  exists cur, subcrates w = Some cur /\ orig ⊆ cur.

(** A step that keeps the files [orig], if they were there. *)
Definition keeps_files (orig : gmap str bytes) (w w' : World) : Prop :=
  holds_files orig w -> holds_files orig w'.

(** The files of [Subcrates], none when the folder does not exist. *)
Definition crate_files (w : World) : gmap str bytes := default ∅ (subcrates w).

(** A step that writes no file of [Subcrates]: what is there afterwards
    was there before, with the same content. *)
Definition nothing_written (w w' : World) : Prop := crate_files w' ⊆ crate_files w.

(** The plan made of the test folders. *)
Definition test_plan : SyncPlan :=
  Eval vm_compute in
    match fst (@create_sync_plan ascii_unicode posix_canonical 4 test_music_root
                 test_music_folder test_serato_root test_extensions false
                 test_serato_world) with
    | Returns plan => plan
    | _ => {| music_root := test_music_root; serato_root := test_serato_root;
              crates := []; total_tracks := 0; total_crates := 0; existing_crates := [] |}
    end.

(** A Serato folder that has the crate [House] of the sample plan. *)
Definition house_world : World :=
  {| subcrates := Some {[ lit "House.crate" := [7] ]};
     siblings := ∅; ticks := 0; trace := [] |}.

(** A parent id that the table knows: the root container 0, or the id of
    one of the rows. *)
Definition known_parent (rows : list Row) (parent_id : Z) : Prop :=
  parent_id = 0 \/ exists p, p ∈ rows /\ row_id p = parent_id.

(** Every row of the table hangs below the root or below a row of the
    table. *)
Definition parents_exist (rows : list Row) : Prop :=
  Forall (fun r => known_parent rows (row_parent_id r)) rows.

(** Rows numbered with the revisions that follow [rev0], in order. *)
Definition numbered (rev0 : Z) (added : list Row) : Prop :=
  forall i r, added !! i = Some r -> row_revision r = rev0 + 1 + Z.of_nat i.

(** The name a crate is shown under: the names from its top-level crate
    down to it, put together with the delimiter between them (nothing is
    put in front of a name while what comes before is empty). *)
Definition joined_names (delimiter : str) (names : list str) : str :=
  fold_left (fun shown n => if truthy shown then shown ++ delimiter ++ n else n) names [].

(** For every crate of a tree, the names from the top down to it, below
    the names [above]. *)
Fixpoint name_chains (above : list str) (c : CratePlan) : list (list str) :=
  (above ++ [name c]) :: flat_map (name_chains (above ++ [name c])) (children c).

(** A row as the writer inserts it for one of the crates [chains]: a user
    crate, not expanded, named as the crate, with a portable id made of
    the scheme and the names from the top down to the crate. *)
Definition crate_row (chains : list (list str)) (delimiter : str) (r : Row) : Prop :=
  row_type r = 1 /\ row_expanded r = 0
  /\ exists above,
       (above ++ [row_name r]) ∈ chains
       /\ row_portable_id r = lit "crate://" ++ joined_names delimiter (above ++ [row_name r]).

(** The rows a session added, with the revisions the counter went through. *)
Definition logged (chains : list (list str)) (delimiter : str) (loc loc' : Locals)
  (s s' : Session) : Prop :=
  exists added,
    container (db s') = container (db s) ++ added
    /\ revision loc' = revision loc + Z.of_nat (length added)
    /\ numbered (revision loc) added
    /\ Forall (crate_row chains delimiter) added.

(** The piece of the option a parsed extension comes from. *)
Definition extension_of `{Unicode} (part : str) : str :=
  let ext := lower (strip part) in
  if startswith [46] ext then ext else [46] ++ ext.

(** A Serato root with a database file and a crate index. *)
Definition test_root_folder : RootFolder :=
  {| root_files := {[ lit "database V2" := [1; 2; 3]; lit "crates.idx" := [9] ]};
     root_ticks := 0; root_log := [] |}.

(** An entry that the scanner and the guide go into: a folder whose name
    does not begin with a dot. *)
Definition visible (e : FsNode) : bool :=
  match e with
  | FsDir name _ _ => negb (startswith [46] name)
  | _ => false
  end.

(** A folder tree that can be read throughout: every folder can be
    listed, and no entry refuses [stat]. *)
Fixpoint readable (n : FsNode) : bool :=
  match n with
  | FsDir _ listable entries => listable && forallb readable entries
  | FsDenied _ => false
  | _ => true
  end.

(** The visible folders below a folder, down to [levels] levels, and at
    any depth. *)
Fixpoint folders_within (levels : nat) (n : FsNode) : Z :=
  match levels with
  | O => 0
  | S levels' =>
      match n with
      | FsDir _ _ entries =>
          sum_over (fun e => if visible e then 1 + folders_within levels' e else 0) entries
      | _ => 0
      end
  end.

Fixpoint folders_below (n : FsNode) : Z :=
  match n with
  | FsDir _ _ entries =>
      sum_over (fun e => if visible e then 1 + folders_below e else 0) entries
  | _ => 0
  end.

(** ** What the builder sees of a folder *)

(** A loop over the entries of a folder ends at the first entry that
    refuses [stat]: the entries before it are the ones the loop gets to. *)
Fixpoint until_denied (items : list (Path * FsNode)) : list (Path * FsNode) :=
  match items with
  | [] => []
  | (_, FsDenied _) :: _ => []
  | item :: rest => item :: until_denied rest
  end.

(** The entries of a folder that the scanner and the builder get to, each
    with its path: the entries in ascending order of their paths, up to
    the first that refuses [stat]; none when the folder cannot be listed. *)
Definition seen `{Unicode} `{Platform} (folder : Path) (node : FsNode)
  : list (Path * FsNode) :=
  match iterdir_sorted folder node with
  | Returns items => until_denied items
  | _ => []
  end.

(** A track: a file whose suffix, in lower case, is one of the recognised
    extensions. *)
Definition is_track `{Unicode} (extensions : gset str) (item : Path * FsNode) : bool :=
  match snd item with
  | FsFile _ => bool_decide (lower (path_suffix (fst item)) ∈ extensions)
  | _ => false
  end.

(** A subfolder that counts: a folder whose name does not begin with a
    dot. *)
Definition is_subfolder (item : Path * FsNode) : bool :=
  match snd item with
  | FsDir _ _ _ => negb (startswith [46] (path_name (fst item)))
  | _ => false
  end.

(** The folders that get a crate, in the words of the invariant: empty
    crates are asked for, or the folder has a track, or it has a subfolder
    that gets a crate. *)
Inductive appears `{Unicode} `{Platform} (extensions : gset str) (include_empty : bool)
  : Path -> FsNode -> Prop :=
| appears_forced folder name listable entries :
    include_empty = true ->
    appears extensions include_empty folder (FsDir name listable entries)
| appears_track folder name listable entries item :
    item ∈ seen folder (FsDir name listable entries) ->
    is_track extensions item = true ->
    appears extensions include_empty folder (FsDir name listable entries)
| appears_child folder name listable entries item :
    item ∈ seen folder (FsDir name listable entries) ->
    is_subfolder item = true ->
    appears extensions include_empty (fst item) (snd item) ->
    appears extensions include_empty folder (FsDir name listable entries).

(** The entries of the music folder of the test suite. *)
Definition test_music_entries : list FsNode :=
  match test_music_folder with
  | FsDir _ _ entries => entries
  | _ => []
  end.

(** A folder in which an entry refuses [stat]: a link [broken] that leads
    into a place the user may not enter sorts before the track. *)
Definition guarded_folder : FsNode :=
  FsDir (lit "Live") true [FsFile (lit "set.mp3"); FsDenied (lit "broken")].

(** ** The events of a run *)

(** How many of the events satisfy [p]. *)
Definition count_events (p : Event -> bool) (events : list Event) : Z :=
  Z.of_nat (length (List.filter p events)).

(** The three ends a crate of the plan can come to in the writer of crate
    files: written, by the library or by the fallback; skipped; or given
    up, when the fallback failed as well. *)
Definition reports_created (ev : Event) : bool :=
  match ev with
  | LogCreated _ _ | LogCreatedBinary _ _ => true
  | _ => false
  end.

Definition reports_skipped (ev : Event) : bool :=
  match ev with
  | LogSkipping _ => true
  | _ => false
  end.

Definition reports_given_up (ev : Event) : bool :=
  match ev with
  | LogBinaryFailed => true
  | _ => false
  end.

(** The counters of the writer after a part of the plan with [n] crates:
    the output has grown by [later], the counters by the crates reported
    as created and as skipped, and every one of the [n] crates is reported
    as created, as skipped or as given up. *)
Definition tallied (n : Z) (counts counts' : Z * Z) (w w' : World) : Prop :=
  exists later,
    trace w' = trace w ++ later
    /\ fst counts' = fst counts + count_events reports_created later
    /\ snd counts' = snd counts + count_events reports_skipped later
    /\ count_events reports_created later + count_events reports_skipped later
       + count_events reports_given_up later = n.

(** The output grows, by events that are all [allowed]. *)
Definition emits_only (allowed : Event -> Prop) (w w' : World) : Prop :=
  exists later, trace w' = trace w ++ later /\ Forall allowed later.

(** What a run with [clean] may put out once the files [files] are backed
    up: no crate is reported as skipped, and only files of [files] are
    reported as deleted. *)
Definition clean_run_event (files : gmap str bytes) (ev : Event) : Prop :=
  match ev with
  | LogSkipping _ => False
  | LogDeleted f => is_Some (files !! f)
  | _ => True
  end.

(** A system whose disk refuses the second and the third call: the first
    crate file can be opened neither by the library nor by the fallback. *)
Definition flaky_disk_system : System :=
  {| fails := fun n => (n =? 1)%nat || (n =? 2)%nat;
     timestamp := fun _ => lit "20240101_120000";
     clock := fun _ => 1704110400;
     serato_crate := Some (fun paths => Returns (crate_encoding paths)) |}.

(** The output stays as it is. *)
Definition same_trace (w w' : World) : Prop := trace w' = trace w.

(** Every file of [Subcrates] is one of [files]. *)
Definition within_files (files : gmap str bytes) (w : World) : Prop :=
  forall cur f, subcrates w = Some cur -> is_Some (cur !! f) -> is_Some (files !! f).

(** A system in which the third call, the first deletion of a clean run,
    is refused. *)
Definition stubborn_file_system : System :=
  {| fails := fun n => (n =? 2)%nat;
     timestamp := fun _ => lit "20240101_120000";
     clock := fun _ => 1704110400;
     serato_crate := Some (fun paths => Returns (crate_encoding paths)) |}.

(** * Proofs *)

(** * Exceptions and state *)

Lemma obind_returns {A B} (m : outcome A) (k : A -> outcome B) b :
  obind m k = Returns b -> exists a, m = Returns a /\ k a = Returns b.
Proof. destruct m; simpl; intros; try discriminate; eauto. Qed.

Lemma st_bind_returns {S A B} (m : ST S A) (k : A -> ST S B) s b s' :
  st_bind m k s = (Returns b, s') ->
  exists a s1, m s = (Returns a, s1) /\ k a s1 = (Returns b, s').
Proof.
  unfold st_bind. destruct (m s) as [[a| |] s1]; intros; simplify_eq; eauto.
Qed.

Lemma st_try_returns {S A} (body : ST S A) handler s a s' :
  st_try body handler s = (Returns a, s') ->
  body s = (Returns a, s') \/
  exists e s1, body s = (Raises e, s1) /\ handler e s1 = (Returns a, s').
Proof.
  unfold st_try. destruct (body s) as [[a0| |] s1]; intros; simplify_eq; eauto.
Qed.

Lemma CratePlan_nested_ind (Q : CratePlan -> Prop) :
  (forall n p pn ts cs, Forall Q cs -> Q (mkCratePlan n p pn ts cs)) ->
  forall c, Q c.
Proof.
  intros H. fix IH 1. intros [n p pn ts cs]. apply H.
  induction cs as [|c cs IHcs]; constructor; [apply IH|exact IHcs].
Qed.

(** ** What a step leaves untouched *)

Section Stable.
Context {S : Type} (R : S -> S -> Prop).
Hypothesis R_refl : forall s, R s s.
Hypothesis R_trans : forall s1 s2 s3, R s1 s2 -> R s2 s3 -> R s1 s3.

Lemma stable_ret {A} (a : A) : stable R (st_ret a).
Proof. intros s. apply R_refl. Qed.

Lemma stable_lift {A} (m : outcome A) : stable R (st_lift m).
Proof. intros s. apply R_refl. Qed.

Lemma stable_bind {A B} (m : ST S A) (k : A -> ST S B) :
  stable R m -> (forall a, stable R (k a)) -> stable R (st_bind m k).
Proof.
  intros Hm Hk s. unfold st_bind. specialize (Hm s).
  destruct (m s) as [[a| |] s1]; simpl in *; [|done|done].
  eapply R_trans; [exact Hm|apply Hk].
Qed.

Lemma stable_try {A} (body : ST S A) handler :
  stable R body -> (forall e, stable R (handler e)) -> stable R (st_try body handler).
Proof.
  intros Hm Hk s. unfold st_try. specialize (Hm s).
  destruct (body s) as [[a| |] s1]; simpl in *; [done| |done].
  eapply R_trans; [exact Hm|apply Hk].
Qed.
End Stable.

(** * The sanitiser *)

Lemma utf8_width_pos c : 1 <= utf8_width c <= 4.
Proof. unfold utf8_width; repeat case_match; lia. Qed.

Lemma utf8_len_nonneg s : 0 <= utf8_len s.
Proof. induction s; simpl; [lia | pose proof (utf8_width_pos a); lia]. Qed.

Lemma utf8_len_app s t : utf8_len (s ++ t) = utf8_len s + utf8_len t.
Proof. induction s; simpl; lia. Qed.

Lemma utf8_encode_char_length c b :
  utf8_encode_char c = Returns b -> Z.of_nat (length b) = utf8_width c.
Proof.
  unfold utf8_encode_char, utf8_width.
  repeat case_match; intros; simplify_eq; reflexivity.
Qed.

Lemma utf8_encode_length s enc :
  utf8_encode s = Returns enc -> Z.of_nat (length enc) = utf8_len s.
Proof.
  revert enc; induction s as [|c s IH]; simpl; intros enc He.
  - by simplify_eq.
  - apply obind_returns in He as (b & Hb & He).
    apply obind_returns in He as (bs & Hbs & He). simplify_eq.
    rewrite length_app, Nat2Z.inj_add, (utf8_encode_char_length _ _ Hb), (IH _ Hbs). lia.
Qed.

Lemma utf8_encode_char_returns c :
  is_surrogate c = false -> exists b, utf8_encode_char c = Returns b.
Proof. intros Hc. unfold utf8_encode_char. rewrite Hc. repeat case_match; eauto. Qed.

Lemma utf8_encode_char_encodable c b :
  utf8_encode_char c = Returns b -> is_surrogate c = false.
Proof.
  unfold utf8_encode_char. destruct (is_surrogate c) eqn:Hs; [|done].
  unfold is_surrogate in Hs. repeat case_match; try done; lia.
Qed.

Lemma utf8_encode_returns s : encodable s -> exists enc, utf8_encode s = Returns enc.
Proof.
  induction 1 as [|c s Hc _ [enc IH]]; simpl; [eauto|].
  destruct (utf8_encode_char_returns c Hc) as [b ->]. rewrite IH. simpl. eauto.
Qed.

Lemma utf8_encode_encodable s enc : utf8_encode s = Returns enc -> encodable s.
Proof.
  revert enc; induction s as [|c s IH]; simpl; intros enc He; [constructor|].
  apply obind_returns in He as (b & Hb & He).
  apply obind_returns in He as (bs & Hbs & He).
  constructor; [eapply utf8_encode_char_encodable; eauto | eapply IH; eauto].
Qed.

(** ** Removing and replacing characters *)

Lemma fold_remove chars s :
  fold_left (fun f ch => str_remove ch f) chars s
  = List.filter (fun c => negb (existsb (Z.eqb c) chars)) s.
Proof.
  revert s; induction chars as [|ch chars IH]; intros s; simpl.
  - induction s as [|c s IHs]; simpl; [done|]. by rewrite <- IHs.
  - rewrite IH. unfold str_remove.
    induction s as [|c s IHs]; simpl; [done|].
    destruct (c =? ch); simpl; [done|].
    destruct (existsb (Z.eqb c) chars); simpl; congruence.
Qed.

Lemma fold_replace chars by_ s :
  existsb (Z.eqb by_) chars = false ->
  fold_left (fun f ch => str_replace_char ch by_ f) chars s
  = map (fun c => if existsb (Z.eqb c) chars then by_ else c) s.
Proof.
  revert s; induction chars as [|ch chars IH]; intros s Hby; simpl.
  - induction s as [|c s IHs]; simpl; [done|]. by rewrite <- IHs.
  - simpl in Hby. apply orb_false_elim in Hby as [_ Hby].
    rewrite IH by done. unfold str_replace_char. rewrite List.map_map.
    apply List.map_ext. intros c. destruct (c =? ch); simpl; [|done].
    by rewrite Hby.
Qed.

Lemma remove_invisible_filter s :
  fold_left (fun f ch => str_remove ch f) invisible_chars s
  = List.filter (fun c => negb (is_invisible c)) s.
Proof. apply fold_remove. Qed.

Lemma replace_reserved_map s :
  fold_left (fun f ch => str_replace_char ch hyphen f) reserved_chars s
  = map (fun c => if is_reserved c then hyphen else c) s.
Proof. by apply fold_replace. Qed.

(** ** Stripping white space *)

Lemma lstrip_suffix s : exists w, s = w ++ lstrip s /\ forallb is_space w = true.
Proof.
  induction s as [|c s (w & Hw & Hsp)]; simpl.
  - by exists [].
  - destruct (is_space c) eqn:Hc.
    + exists (c :: w). simpl. rewrite Hc, Hsp. split; [congruence|done].
    + by exists [].
Qed.

Lemma lstrip_head s c t : lstrip s = c :: t -> is_space c = false.
Proof.
  induction s as [|a s IH]; simpl; [done|].
  destruct (is_space a) eqn:Ha; [done|]. intros; by simplify_eq.
Qed.

Lemma lstrip_id c t : is_space c = false -> lstrip (c :: t) = c :: t.
Proof. intros Hc; simpl; by rewrite Hc. Qed.

Lemma lstrip_idem s : lstrip (lstrip s) = lstrip s.
Proof.
  destruct (lstrip s) as [|c t] eqn:E; [done|].
  apply lstrip_id. by eapply lstrip_head.
Qed.

Lemma lstrip_app_nonspace s c :
  is_space c = false -> lstrip (s ++ [c]) = lstrip s ++ [c].
Proof.
  intros Hc. induction s as [|a s IH]; simpl.
  - by rewrite Hc.
  - destruct (is_space a); [done|done].
Qed.

Lemma lstrip_all_space w t : forallb is_space w = true -> lstrip (w ++ t) = lstrip t.
Proof.
  induction w as [|a w IH]; simpl; [done|].
  intros [Ha Hw]%andb_prop. rewrite Ha. auto.
Qed.

Lemma rstrip_prefix s : exists w, s = rstrip s ++ w /\ forallb is_space w = true.
Proof.
  unfold rstrip. destruct (lstrip_suffix (rev s)) as (w & Hw & Hsp).
  exists (rev w). split.
  - rewrite <- rev_app_distr, <- Hw. by rewrite rev_involutive.
  - rewrite forallb_forall in *. intros x Hx. apply Hsp. by apply in_rev.
Qed.

Lemma rstrip_snoc_nonspace s c : is_space c = false -> rstrip (s ++ [c]) = s ++ [c].
Proof.
  intros Hc. unfold rstrip. rewrite rev_app_distr. simpl. rewrite Hc.
  simpl. by rewrite rev_involutive.
Qed.

Lemma rstrip_nil : rstrip [] = [].
Proof. done. Qed.

Lemma rstrip_idem s : rstrip (rstrip s) = rstrip s.
Proof. unfold rstrip. by rewrite rev_involutive, lstrip_idem. Qed.

Lemma rstrip_last s t c : rstrip s = t ++ [c] -> is_space c = false.
Proof.
  unfold rstrip. intros H. apply (f_equal (@rev _)) in H.
  rewrite rev_involutive, rev_app_distr in H. simpl in H.
  by eapply lstrip_head.
Qed.

Lemma strip_stripped s : stripped (strip s).
Proof.
  unfold stripped, strip. split; [apply lstrip_idem|].
  destruct (lstrip_suffix (rstrip s)) as (w & Hw & Hsp).
  remember (lstrip (rstrip s)) as u eqn:E. clear E.
  induction u as [|x l _] using rev_ind; [done|].
  assert (is_space x = false) as Hx.
  { rewrite app_assoc in Hw. by eapply rstrip_last. }
  by apply rstrip_snoc_nonspace.
Qed.

Lemma stripped_strip s : stripped s -> strip s = s.
Proof. intros [Hl Hr]. unfold strip. by rewrite Hr. Qed.

Lemma stripped_snoc s c : lstrip s = s -> is_space c = false -> stripped (s ++ [c]).
Proof.
  intros Hl Hc. split; [|by apply rstrip_snoc_nonspace].
  by rewrite lstrip_app_nonspace, Hl.
Qed.

Lemma strip_substring s : exists a b, s = a ++ strip s ++ b.
Proof.
  destruct (rstrip_prefix s) as (b & Hb & _).
  destruct (lstrip_suffix (rstrip s)) as (a & Ha & _).
  exists a, b. unfold strip. rewrite app_assoc, <- Ha. exact Hb.
Qed.

(** ** The truncation loop *)

Lemma truncate_loop_within n s mb :
  encodable s -> utf8_len s <= mb -> truncate_loop n s mb = Returns s.
Proof.
  intros He Hl. destruct (utf8_encode_returns s He) as [enc Henc].
  pose proof (utf8_encode_length _ _ Henc) as Hlen.
  destruct n; simpl; rewrite Henc;
    (destruct (Z.of_nat (length enc) >? mb) eqn:Hc; [lia | done]).
Qed.

Lemma truncate_loop_returns n s mb P :
  truncate_loop n s mb = Returns P ->
  exists t, s = P ++ t /\ utf8_len P <= mb.
Proof.
  revert s; induction n as [|n IH]; intros s; simpl;
    destruct (utf8_encode s) as [enc| |] eqn:Henc; try done;
    pose proof (utf8_encode_length _ _ Henc) as Hlen;
    destruct (Z.of_nat (length enc) >? mb) eqn:Hc; try done.
  - intros; simplify_eq. exists []. rewrite app_nil_r. split; [done|lia].
  - intros (t & Ht & Hle)%IH.
    destruct s as [|x s _] using rev_ind.
    + exists t. by simpl in Ht.
    + rewrite removelast_last in Ht. exists (t ++ [x]). rewrite Ht.
      by rewrite <- app_assoc.
  - intros; simplify_eq. exists []. rewrite app_nil_r. split; [done|lia].
Qed.

Lemma truncate_loop_snoc Q c mb :
  encodable (Q ++ [c]) -> utf8_len Q <= mb < utf8_len (Q ++ [c]) ->
  truncate_loop (length (Q ++ [c])) (Q ++ [c]) mb = Returns Q.
Proof.
  intros He [Hq Hy]. rewrite length_app, Nat.add_1_r. simpl.
  destruct (utf8_encode_returns _ He) as [enc Henc]. rewrite Henc.
  pose proof (utf8_encode_length _ _ Henc) as Hlen.
  destruct (Z.of_nat (length enc) >? mb) eqn:Hc; [|lia].
  rewrite removelast_last. apply truncate_loop_within; [|done].
  by apply Forall_app in He as [? _].
Qed.

(** A negative budget is never met: the loop does not end. *)
Lemma truncate_loop_negative n s mb :
  n = length s -> encodable s -> mb < 0 -> truncate_loop n s mb = Loops.
Proof.
  revert s; induction n as [|n IH]; intros s Hn He Hmb; simpl;
    destruct (utf8_encode_returns _ He) as [enc Henc]; rewrite Henc;
    pose proof (utf8_encode_length _ _ Henc) as Hlen;
    pose proof (utf8_len_nonneg s);
    (destruct (Z.of_nat (length enc) >? mb) eqn:Hc; [|lia]); [done|].
  apply IH; [| |done].
  - destruct s as [|x s _] using rev_ind; [done|].
    rewrite removelast_last. rewrite length_app in Hn. simpl in Hn. lia.
  - destruct s as [|x s _] using rev_ind; [done|].
    rewrite removelast_last. by apply Forall_app in He as [? _].
Qed.

(** ** Strings the first three steps leave alone *)

Section Sanitize.
Context `{UL : UnicodeLaws}.

Lemma settled_app s t : settled (s ++ t) -> settled s /\ settled t.
Proof.
  intros [[Hs Ht]%Forall_app Hn]. apply nfc_substring in Hn as [? ?].
  by repeat split.
Qed.

Lemma settled_ellipsis s : settled s -> settled (s ++ [ellipsis]).
Proof.
  intros [Hs Hn]. split; [|by apply nfc_ellipsis].
  apply Forall_app; split; [done|]. by repeat constructor.
Qed.

Lemma settled_strip s : settled s -> settled (strip s).
Proof.
  destruct (strip_substring s) as (a & b & Hab). intros Hs. rewrite Hab in Hs.
  apply settled_app in Hs as [_ Hs]. by apply settled_app in Hs as [Hs _].
Qed.

Lemma settled_steps s :
  settled s ->
  fold_left (fun f ch => str_replace_char ch hyphen f) reserved_chars
    (normalize_NFC (fold_left (fun f ch => str_remove ch f) invisible_chars s)) = s
  /\ encodable s.
Proof.
  intros [Hp Hn]. rewrite remove_invisible_filter, replace_reserved_map.
  assert (List.filter (fun c => negb (is_invisible c)) s = s) as ->.
  { clear Hn. induction Hp as [|c s (Hc & _) _ IH]; simpl; [done|].
    by rewrite Hc, IH. }
  rewrite Hn. split.
  - clear Hn. induction Hp as [|c s (_ & Hc & _) _ IH]; simpl; [done|].
    by rewrite Hc, IH.
  - eapply Forall_impl; [exact Hp|]. by intros c (_ & _ & ?).
Qed.

Lemma sanitize_settles x enc :
  let s3 := fold_left (fun f ch => str_replace_char ch hyphen f) reserved_chars
    (normalize_NFC (fold_left (fun f ch => str_remove ch f) invisible_chars x)) in
  utf8_encode s3 = Returns enc -> settled s3.
Proof.
  intros s3 Henc. subst s3. revert Henc.
  rewrite remove_invisible_filter, replace_reserved_map.
  set (s1 := List.filter _ x). set (s2 := normalize_NFC s1). intros Henc.
  split; [|apply nfc_hyphen, nfc_idempotent].
  apply utf8_encode_encodable in Henc.
  apply Forall_forall. intros c Hc.
  unfold encodable in Henc. rewrite Forall_forall in Henc. specialize (Henc c Hc).
  apply list_elem_of_In, in_map_iff in Hc as (c0 & Hc0 & Hin).
  repeat split; [| |done].
  - destruct (is_reserved c0); [by subst|]. subst c0.
    destruct (is_invisible c) eqn:Hi; [|done]. exfalso.
    apply (nfc_invisible _ _ Hi) in Hin. subst s1.
    apply filter_In in Hin as [_ Hin]. by rewrite Hi in Hin.
  - destruct (is_reserved c0) eqn:Hr; [by subst|by subst].
Qed.

Lemma utf8_len_strip s : utf8_len (strip s) <= utf8_len s.
Proof.
  destruct (strip_substring s) as (a & b & Hab). rewrite Hab at 2.
  rewrite !utf8_len_app. pose proof (utf8_len_nonneg a). pose proof (utf8_len_nonneg b). lia.
Qed.

Lemma is_space_ellipsis : is_space ellipsis = false.
Proof. reflexivity. Qed.

(** A settled, stripped string within the budget, or one that ends in the
    ellipsis a truncation put there, comes back unchanged. *)
Lemma sanitize_settled_within y mb :
  settled y -> stripped y -> utf8_len y <= mb ->
  sanitize_crate_filename y mb = Returns y.
Proof.
  intros Hs Hst Hl. unfold sanitize_crate_filename.
  destruct (settled_steps y Hs) as [-> He].
  destruct (utf8_encode_returns y He) as [enc Henc]. rewrite Henc. simpl.
  pose proof (utf8_encode_length _ _ Henc).
  destruct (Z.of_nat (length enc) >? mb) eqn:Hc; [lia|]. simpl.
  by rewrite stripped_strip.
Qed.

Lemma sanitize_settled_truncated Q mb :
  settled (Q ++ [ellipsis]) -> stripped Q \/ Q = [] -> utf8_len Q <= mb ->
  sanitize_crate_filename (Q ++ [ellipsis]) mb = Returns (Q ++ [ellipsis]).
Proof.
  intros Hs HQ Hl.
  assert (lstrip Q = Q /\ rstrip Q = Q) as [HlQ HrQ].
  { destruct HQ as [[? ?]| ->]; by split. }
  assert (stripped (Q ++ [ellipsis])) as Hst by by apply stripped_snoc.
  destruct (Z_le_gt_dec (utf8_len (Q ++ [ellipsis])) mb) as [Hle|Hgt].
  { by apply sanitize_settled_within. }
  unfold sanitize_crate_filename.
  destruct (settled_steps _ Hs) as [-> He].
  destruct (utf8_encode_returns _ He) as [enc Henc]. rewrite Henc. simpl.
  pose proof (utf8_encode_length _ _ Henc).
  destruct (Z.of_nat (length enc) >? mb) eqn:Hc; [|lia].
  rewrite truncate_loop_snoc by (done || lia). simpl.
  by rewrite HrQ, stripped_strip.
Qed.

Lemma sanitize_fixpoint x y mb :
  sanitize_crate_filename x mb = Returns y ->
  sanitize_crate_filename y mb = Returns y.
Proof.
  unfold sanitize_crate_filename at 1.
  set (s3 := fold_left _ reserved_chars _).
  intros (enc & Henc & H)%obind_returns.
  apply obind_returns in H as (s4 & Hs4 & H). simplify_eq.
  assert (settled s3) as Hs3 by exact (sanitize_settles x enc Henc).
  clearbody s3.
  pose proof (utf8_encode_length _ _ Henc) as Hlen.
  destruct (Z.of_nat (length enc) >? mb) eqn:Hc.
  - apply obind_returns in Hs4 as (P & HP & Hs4). simplify_eq.
    apply truncate_loop_returns in HP as (t & Ht & Hle).
    rewrite Ht in Hs3. apply settled_app in Hs3 as [HsP _].
    assert (strip (rstrip P ++ [ellipsis]) = strip P ++ [ellipsis]) as ->.
    { unfold strip at 1. rewrite rstrip_snoc_nonspace by apply is_space_ellipsis.
      by rewrite lstrip_app_nonspace by apply is_space_ellipsis. }
    apply sanitize_settled_truncated.
    + by apply settled_ellipsis, settled_strip.
    + left. apply strip_stripped.
    + pose proof (utf8_len_strip P). lia.
  - simplify_eq. apply sanitize_settled_within.
    + by apply settled_strip.
    + apply strip_stripped.
    + match goal with |- utf8_len (strip ?s) <= _ => pose proof (utf8_len_strip s) end. lia.
Qed.

End Sanitize.

Lemma ascii_unicode_laws : UnicodeLaws ascii_unicode.
Proof.
  split; unfold nfc_stable; simpl; done.
Qed.

Lemma sanitize_bound `{UL : UnicodeLaws} x y mb :
  sanitize_crate_filename x mb = Returns y -> utf8_len y <= mb + 3.
Proof.
  unfold sanitize_crate_filename.
  set (s3 := fold_left _ reserved_chars _).
  intros (enc & Henc & H)%obind_returns.
  apply obind_returns in H as (s4 & Hs4 & H). simplify_eq.
  pose proof (utf8_encode_length _ _ Henc) as Hlen.
  pose proof (utf8_len_strip s4).
  destruct (Z.of_nat (length enc) >? mb) eqn:Hc.
  - apply obind_returns in Hs4 as (P & HP & Hs4). simplify_eq.
    apply truncate_loop_returns in HP as (t & Ht & Hle).
    rewrite utf8_len_app in *. simpl in *.
    destruct (rstrip_prefix P) as (w & Hw & _).
    rewrite Hw, utf8_len_app in Hle. pose proof (utf8_len_nonneg w).
    change (utf8_width ellipsis) with 3 in *. lia.
  - simplify_eq. lia.
Qed.

(** C1, at the input that breaks it: 241 letters [a] under the default
    budget of 240 bytes. The loop cuts the name to 240 bytes, the ellipsis
    appended afterwards takes three more, and the result has 243 bytes. *)
Theorem sanitize_exceeds_budget `{UL : UnicodeLaws} :
  sanitize_crate_filename (repeat 97 241) default_max_bytes
    = Returns (repeat 97 240 ++ [ellipsis])
  /\ utf8_encode (repeat 97 240 ++ [ellipsis])
    = Returns (repeat 97 240 ++ [226; 128; 166])
  /\ Z.of_nat (length (repeat 97 240 ++ [226; 128; 166])) = 243.
Proof.
  split; [|split; vm_compute; reflexivity].
  unfold sanitize_crate_filename.
  replace (fold_left (fun f ch => str_remove ch f) invisible_chars (repeat 97 241))
    with (repeat 97 241) by (vm_compute; reflexivity).
  assert (normalize_NFC (repeat 97 241) = repeat 97 241) as ->.
  { apply nfc_ascii, Forall_forall. intros c Hc%list_elem_of_In%repeat_spec. lia. }
  vm_compute. reflexivity.
Qed.

(** The same on the ASCII platform. *)
Lemma sanitize_exceeds_budget_witness :
  @sanitize_crate_filename ascii_unicode (repeat 97 241) default_max_bytes
    = Returns (repeat 97 240 ++ [ellipsis])
  /\ utf8_encode (repeat 97 240 ++ [ellipsis])
    = Returns (repeat 97 240 ++ [226; 128; 166])
  /\ Z.of_nat (length (repeat 97 240 ++ [226; 128; 166])) = 243.
Proof. exact (@sanitize_exceeds_budget ascii_unicode ascii_unicode_laws). Defined.

(** C8: sanitising twice is sanitising once. With the default budget,
    [sanitize(sanitize(x))] has the outcome of [sanitize(x)]: the same
    string when the first call returns one (truncated or not), the same
    exception when it raises. *)
Theorem sanitize_idempotent `{UL : UnicodeLaws} (x : str) :
  obind (sanitize_crate_filename x default_max_bytes)
        (fun y => sanitize_crate_filename y default_max_bytes)
  = sanitize_crate_filename x default_max_bytes.
Proof.
  destruct (sanitize_crate_filename x default_max_bytes) as [y| |] eqn:Hx; simpl;
    [|done|done].
  exact (sanitize_fixpoint x y _ Hx).
Qed.

(** A name that is stripped, has a reserved character replaced and is cut
    to the budget, sanitised twice. *)
Lemma sanitize_idempotent_witness :
  @sanitize_crate_filename ascii_unicode (lit " a/b " ++ repeat 98 241) default_max_bytes
    = Returns (lit "a-b " ++ repeat 98 235 ++ [ellipsis])
  /\ obind (@sanitize_crate_filename ascii_unicode (lit " a/b " ++ repeat 98 241) default_max_bytes)
        (fun y => @sanitize_crate_filename ascii_unicode y default_max_bytes)
  = @sanitize_crate_filename ascii_unicode (lit " a/b " ++ repeat 98 241) default_max_bytes.
Proof.
  split; [vm_compute; reflexivity|].
  exact (@sanitize_idempotent ascii_unicode ascii_unicode_laws (lit " a/b " ++ repeat 98 241)).
Defined.

Example sanitize_replaces_and_strips :
  @sanitize_crate_filename ascii_unicode (lit "  a/b:c?  ") default_max_bytes
  = Returns (lit "a-b-c-").
Proof. vm_compute. reflexivity. Qed.

Example sanitize_drops_invisible :
  @sanitize_crate_filename ascii_unicode ([0x200b] ++ lit "Deep" ++ [0xfeff; 0xad] ++ lit " House")
    default_max_bytes
  = Returns (lit "Deep House").
Proof. vm_compute. reflexivity. Qed.

Example sanitize_negative_budget :
  @sanitize_crate_filename ascii_unicode (lit "abc") (-1) = Loops.
Proof. vm_compute. reflexivity. Qed.

Example sanitize_lone_surrogate :
  @sanitize_crate_filename ascii_unicode [97; 0xDC80] default_max_bytes
  = Raises UnicodeEncodeError.
Proof. vm_compute. reflexivity. Qed.

(** * The track path resolver *)

Lemma lstrip_slash_no_slash s : startswith [47] (lstrip_slash s) = false.
Proof.
  induction s as [|c s IH]; [done|]. cbn [lstrip_slash].
  destruct (c =? 47) eqn:E; [exact IH|]. cbn [startswith].
  destruct (47 =? c) eqn:E'; [lia|done].
Qed.

Lemma lstrip_slash_slashes s : exists n, s = repeat 47 n ++ lstrip_slash s.
Proof.
  induction s as [|c s [n IH]]; [by exists 0%nat|]. simpl.
  destruct (c =? 47) eqn:E.
  - exists (S n). simpl. apply Z.eqb_eq in E. by rewrite E, <- IH.
  - by exists 0%nat.
Qed.

Lemma lstrip_slash_single rest :
  startswith [47] rest = false -> lstrip_slash (47 :: rest) = rest.
Proof.
  intros Hr. cbn [lstrip_slash]. rewrite Z.eqb_refl.
  destruct rest as [|c rest]; [done|]. cbn [startswith lstrip_slash] in *.
  destruct (c =? 47) eqn:E'; [|done].
  apply Z.eqb_eq in E'. subst c. done.
Qed.

(** C2, as the code has it: the absolute mode resolves the path and
    removes every leading slash of its string, however many there are, so
    the stored string begins with none; a canonical string that begins
    with a single slash loses exactly that character. *)
Theorem resolve_absolute_strips_slashes `{Unicode} `{Platform}
  (music_root track : Path) :
  resolve_track_path (lit "absolute") music_root track
  = obind (os_resolve track)
      (fun resolved => Returns (lstrip_slash (path_str resolved)))
  /\ (forall canonical, startswith [47] (lstrip_slash canonical) = false)
  /\ (forall canonical, exists n, canonical = repeat 47 n ++ lstrip_slash canonical)
  /\ (forall rest, startswith [47] rest = false -> lstrip_slash (47 :: rest) = rest).
Proof.
  split; [reflexivity|]. split; [apply lstrip_slash_no_slash|].
  split; [apply lstrip_slash_slashes|apply lstrip_slash_single].
Qed.

(** C2 as stated fails where the canonical path does not begin with a
    slash: on Windows [C:\Music\a.mp3] is stored whole, no character is
    removed. *)
Lemma resolve_absolute_strips_nothing :
  @os_resolve windows_canonical windows_track = Returns windows_track
  /\ @path_str windows_canonical windows_track = lit "C:\Music\a.mp3"
  /\ @resolve_track_path ascii_unicode windows_canonical
       (lit "absolute") windows_track windows_track
     = Returns (lit "C:\Music\a.mp3")
  /\ (forall c, lit "C:\Music\a.mp3" <> c :: lit "C:\Music\a.mp3").
Proof.
  repeat split; try (vm_compute; reflexivity).
  intros c Hc. apply (f_equal (@length _)) in Hc. vm_compute in Hc. lia.
Qed.

Example resolve_absolute_posix :
  @resolve_track_path ascii_unicode posix_canonical (lit "absolute") posix_track posix_track
  = Returns (lit "Users/dj/Music/a.mp3").
Proof. vm_compute. reflexivity. Qed.

(** * The binary crate format *)

Lemma be16_unit u : utf16be_unit u = be16 u.
Proof.
  unfold utf16be_unit, be16. f_equal; [apply (Z.shiftr_div_pow2 u 8); lia|].
  f_equal. change 0xFF with (Z.ones 8). rewrite Z.land_ones by lia. reflexivity.
Qed.

Lemma utf16be_encode_spec s :
  Forall (fun c => is_surrogate c = false) s -> utf16be_encode s = Returns (utf16be s).
Proof.
  induction 1 as [|c s Hc _ IH]; [done|].
  cbn [utf16be_encode utf16be flat_map]. unfold utf16be_encode_char. rewrite Hc.
  destruct (c <? 0x10000); cbn [obind]; rewrite IH; cbn [obind].
  - by rewrite be16_unit.
  - rewrite !be16_unit. rewrite (Z.shiftr_div_pow2 _ 10) by lia.
    change 0x3FF with (Z.ones 10). rewrite Z.land_ones by lia.
    by rewrite <- app_assoc.
Qed.

Lemma struct_pack_spec n : 0 <= n < 2 ^ 32 -> struct_pack_I_be n = Returns (be32 n).
Proof.
  intros Hn. unfold struct_pack_I_be, be32.
  destruct ((0 <=? n) && (n <? 2 ^ 32)) eqn:E; [|lia].
  change 0xFF with (Z.ones 8). rewrite !Z.land_ones by lia.
  rewrite !Z.shiftr_div_pow2 by lia. reflexivity.
Qed.

Lemma make_tag_spec tag data :
  Forall (fun c => c < 0x80) tag -> Z.of_nat (length data) < 2 ^ 32 ->
  make_tag tag data = Returns (chunk tag data).
Proof.
  intros Ht Hd. unfold make_tag, chunk.
  assert (ascii_encode tag = Returns tag) as ->.
  { induction Ht as [|c t Hc _ IH]; [done|]. simpl.
    destruct (c <? 128) eqn:E; [|lia]. by rewrite IH. }
  cbn [obind]. rewrite struct_pack_spec by lia. done.
Qed.

Lemma chunk_length tag payload :
  length (chunk tag payload) = (length tag + 4 + length payload)%nat.
Proof. unfold chunk, be32. rewrite !length_app. simpl. lia. Qed.

Lemma omap_cons {A B} (f : A -> outcome B) x xs ys :
  omap f (x :: xs) = Returns ys ->
  exists y ys', f x = Returns y /\ omap f xs = Returns ys' /\ ys = y :: ys'.
Proof.
  simpl. destruct (f x) as [y| |]; simpl; try done.
  destruct (omap f xs) as [ys'| |]; simpl; try done.
  intros; simplify_eq. eauto.
Qed.

Lemma track_chunks_spec resolve_path tracks paths chunks :
  omap resolve_path tracks = Returns paths ->
  Forall storable paths ->
  track_chunks resolve_path tracks chunks
  = Returns (chunks ++
             map (fun p => chunk (lit "otrk") (chunk (lit "ptrk") (utf16be p))) paths).
Proof.
  revert paths chunks; induction tracks as [|t tracks IH]; intros paths chunks Hr Hs.
  - simpl in Hr. simplify_eq. simpl. by rewrite app_nil_r.
  - apply omap_cons in Hr as (p & paths' & Hp & Hr & ->).
    apply Forall_cons in Hs as [[Hsur Hlen] Hs].
    cbn [track_chunks]. rewrite Hp. cbn [obind]. unfold encode_string.
    rewrite utf16be_encode_spec by done. cbn [obind].
    rewrite make_tag_spec; [|repeat constructor; lia|lia]. cbn [obind].
    rewrite make_tag_spec; [|repeat constructor; lia|].
    2:{ rewrite chunk_length. change (length (lit "ptrk")) with 4%nat. lia. }
    cbn [obind]. rewrite (IH paths') by done.
    rewrite <- app_assoc. done.
Qed.

Lemma crate_chunks_spec crate_plan resolve_path paths :
  omap resolve_path (tracks crate_plan) = Returns paths ->
  Forall storable paths ->
  crate_chunks crate_plan resolve_path
  = Returns (chunk (lit "vrsn") (utf16be version_string) ::
             map (fun p => chunk (lit "otrk") (chunk (lit "ptrk") (utf16be p))) paths).
Proof.
  intros Hr Hs. unfold crate_chunks, encode_string.
  rewrite utf16be_encode_spec by (vm_compute; repeat constructor).
  cbn [obind]. rewrite make_tag_spec; [|repeat constructor; lia|vm_compute; done].
  cbn [obind]. by rewrite (track_chunks_spec _ _ paths).
Qed.

Lemma write_file_chunks (file_name : str) (chunks : list bytes)
  (files : gmap str bytes) (acc : bytes) :
  fold_left (fun fs c => <[file_name := default [] (fs !! file_name) ++ c]> fs)
    chunks (<[file_name := acc]> files)
  = <[file_name := acc ++ concat chunks]> files.
Proof.
  revert acc; induction chunks as [|c chunks IH]; intros acc; simpl.
  - by rewrite app_nil_r.
  - rewrite lookup_insert_eq. simpl. rewrite insert_insert_eq, IH.
    by rewrite <- app_assoc.
Qed.

Lemma syscall_ok `{System} w : fails (ticks w) = false -> syscall w = (Returns tt, ticked w).
Proof. intros Hok. unfold syscall. by rewrite Hok. Qed.

Lemma syscall_fails `{System} w : fails (ticks w) = true -> syscall w = (Raises OSError, ticked w).
Proof. intros Hok. unfold syscall. by rewrite Hok. Qed.

Lemma open_and_write_ok `{System} file_name chunks w files :
  subcrates w = Some files -> fails (ticks w) = false ->
  open_and_write file_name chunks w = (Returns tt, write_file file_name chunks (ticked w)).
Proof.
  intros Hsub Hok. unfold open_and_write, st_bind. rewrite syscall_ok by done.
  unfold get_world. cbn [ticked subcrates]. by rewrite Hsub.
Qed.

Lemma write_file_subcrates file_name chunks w files :
  subcrates w = Some files ->
  subcrates (write_file file_name chunks w) = Some (<[file_name := concat chunks]> files).
Proof.
  intros Hsub. unfold write_file. rewrite Hsub. cbn [subcrates].
  by rewrite write_file_chunks.
Qed.

(** C4: the file that [write_crate_binary] leaves is the version chunk
    followed by one [otrk] chunk for each track, in track order, each
    holding exactly one [ptrk] chunk with the UTF-16 path, and nothing
    after the last chunk. It is written whenever the folder exists, the
    [open] call goes through and every track path can be stored. *)
Theorem write_crate_binary_layout `{System}
  (crate_file : str) (crate_plan : CratePlan) (resolve_path : Path -> outcome str)
  (w : World) (files : gmap str bytes) (paths : list str) :
  subcrates w = Some files ->
  fails (ticks w) = false ->
  omap resolve_path (tracks crate_plan) = Returns paths ->
  Forall storable paths ->
  exists w',
    write_crate_binary crate_file crate_plan resolve_path w = (Returns tt, w')
    /\ subcrates w' = Some (<[crate_file := crate_encoding paths]> files)
    /\ length paths = length (tracks crate_plan).
Proof.
  intros Hsub Hok Hr Hs.
  unfold write_crate_binary, st_bind, st_lift.
  rewrite (crate_chunks_spec _ _ paths Hr Hs).
  rewrite (open_and_write_ok _ _ _ files) by done.
  eexists; split; [reflexivity|]. split.
  - by rewrite (write_file_subcrates _ _ _ files).
  - clear -Hr. revert paths Hr. induction (tracks crate_plan) as [|t ts IH]; intros paths Hr.
    + simpl in Hr. by simplify_eq.
    + apply omap_cons in Hr as (p & paths' & _ & Hr & ->). simpl. by rewrite (IH paths').
Qed.

(** * The folder scanner *)

Section Scanner.
Context `{U : Unicode} `{P : Platform}.

Lemma build_crate_tree_unfold depth folder node extensions parent_name include_empty :
  build_crate_tree (S depth) folder node extensions parent_name include_empty
  = match is_dir node with
    | Returns true =>
        (tracks <- scan_folder_for_tracks folder node extensions ;;
         children <- subfolder_crates depth folder node extensions parent_name
                       include_empty ;;
         if truthy tracks || truthy children || include_empty
         then Returns (Some (mkCratePlan (path_name folder) folder parent_name
                               tracks children))
         else Returns None)%out
    | Returns false => Returns None
    | Raises e => Raises e
    | Loops => Loops
    end.
Proof. reflexivity. Qed.

Lemma truthy_nonempty {A} (l : list A) : truthy l = true <-> l <> [].
Proof. destruct l; simpl; split; intros; congruence. Qed.

Lemma justified_iff include_empty tracks children name path parent :
  truthy tracks || truthy children || include_empty = true
  <-> justified include_empty (mkCratePlan name path parent tracks children).
Proof.
  unfold justified; simpl. rewrite !orb_true_iff, !truthy_nonempty. tauto.
Qed.

Lemma every_crate_children (Q : CratePlan -> Prop) c :
  every_crate Q c <-> Q c /\ Forall (every_crate Q) (children c).
Proof.
  destruct c as [n p pn ts cs]. simpl.
  assert ((fix all (cs : list CratePlan) : Prop :=
             match cs with [] => True | x :: rest => every_crate Q x /\ all rest end) cs
          <-> Forall (every_crate Q) cs) as ->; [|done].
  induction cs as [|c cs IH]; [by split|].
  rewrite Forall_cons, IH. done.
Qed.

Lemma collect_children_all (Q : CratePlan -> Prop) build items acc cs :
  (forall sub n c, build sub n = Returns (Some c) -> Q c) ->
  Forall Q acc ->
  collect_children build items acc = Returns cs -> Forall Q cs.
Proof.
  intros Hb. revert acc; induction items as [|[sub n] items IH]; intros acc Hacc; simpl.
  - intros; by simplify_eq.
  - destruct (is_dir n) as [[|]|[]|] eqn:Hd; try done; try (by apply IH);
      try (intros; by simplify_eq).
    destruct (negb _); [|by apply IH].
    destruct (build sub n) as [[c|]|[]|] eqn:Hc; try done; try (by apply IH);
      try (intros; by simplify_eq).
    apply IH. apply Forall_app; split; [done|]. repeat constructor. eauto.
Qed.

Lemma build_crate_tree_justified depth folder node extensions parent_name include_empty c :
  build_crate_tree depth folder node extensions parent_name include_empty
    = Returns (Some c) ->
  every_crate (justified include_empty) c.
Proof.
  revert folder node parent_name c.
  induction depth as [|depth IH]; intros folder node parent_name c; [done|].
  rewrite build_crate_tree_unfold.
  destruct (is_dir node) as [[|]| |]; try done.
  destruct (scan_folder_for_tracks _ _ _) as [ts| |]; try done. cbn [obind].
  destruct (subfolder_crates _ _ _ _ _ _) as [cs| |] eqn:Hcs; try done. cbn [obind].
  destruct (truthy ts || truthy cs || include_empty) eqn:Hj; [|done].
  intros; simplify_eq. apply every_crate_children. split.
  - by apply justified_iff.
  - simpl. unfold subfolder_crates in Hcs.
    destruct (iterdir_sorted folder node) as [items|[]|]; try done;
      try (simplify_eq; constructor).
    eapply collect_children_all in Hcs; [done| |done].
    intros sub n c Hc. by eapply IH.
Qed.

Lemma insert_sorted_In {A} (ltb : A -> A -> bool) x l y :
  In y (insert_sorted ltb x l) -> y = x \/ In y l.
Proof.
  induction l as [|a l IH]; simpl; [intuition congruence|].
  destruct (ltb x a); simpl; [intuition congruence|].
  intros [->|H]; [tauto|]. apply IH in H. tauto.
Qed.

Lemma sorted_In {A} (ltb : A -> A -> bool) l y : In y (sorted ltb l) -> In y l.
Proof.
  unfold sorted. assert (forall acc, In y (fold_left (fun acc x => insert_sorted ltb x acc) l acc)
                                     -> In y acc \/ In y l) as H.
  { induction l as [|a l IH]; intros acc; simpl; [tauto|].
    intros [H|H]%IH; [|tauto]. apply insert_sorted_In in H. intuition. }
  intros [[]|]%H. done.
Qed.

Lemma scan_items_recognised items extensions acc ts :
  scan_items items extensions acc = Returns ts ->
  Forall (fun t => lower (path_suffix t) ∈ extensions) acc ->
  Forall (fun t => lower (path_suffix t) ∈ extensions) ts.
Proof.
  revert acc; induction items as [|[item n] items IH]; intros acc; simpl.
  - intros; by simplify_eq.
  - unfold is_audio_file. destruct (is_file n) as [[|]|[]|]; simpl; try done;
      try (by apply IH); try (intros; by simplify_eq).
    destruct (bool_decide _) eqn:E; [|by apply IH].
    intros H Hacc. apply (IH _ H). apply Forall_app; split; [done|].
    repeat constructor. by apply bool_decide_eq_true in E.
Qed.

Lemma scan_folder_recognised folder node extensions ts :
  scan_folder_for_tracks folder node extensions = Returns ts ->
  Forall (fun t => lower (path_suffix t) ∈ extensions) ts.
Proof.
  unfold scan_folder_for_tracks.
  destruct (iterdir_sorted folder node) as [items|[]|]; try done;
    try (intros; simplify_eq; constructor).
  intros H. by apply (scan_items_recognised _ _ [] _ H).
Qed.

Lemma scan_items_returns items extensions acc :
  exists ts, scan_items items extensions acc = Returns ts.
Proof.
  revert acc; induction items as [|[item n] items IH]; intros acc; simpl; [eauto|].
  unfold is_audio_file. destruct n; simpl; eauto.
  destruct (bool_decide _); eauto.
Qed.

Lemma scan_folder_returns folder name listable entries extensions :
  exists ts, scan_folder_for_tracks folder (FsDir name listable entries) extensions
             = Returns ts.
Proof.
  unfold scan_folder_for_tracks. simpl. destruct listable; [|eauto].
  apply scan_items_returns.
Qed.

Lemma collect_children_returns build items acc :
  (forall sub n, In (sub, n) items -> is_dir n = Returns true ->
                 exists r, build sub n = Returns r) ->
  exists cs, collect_children build items acc = Returns cs.
Proof.
  revert acc; induction items as [|[sub n] items IH]; intros acc Hb; simpl; [eauto|].
  assert (forall acc, exists cs, collect_children build items acc = Returns cs) as IH'.
  { intros acc'. apply IH. intros; apply Hb; [by right|done]. }
  destruct (is_dir n) as [[|]|[]|] eqn:Hd; try done; eauto;
    try (by destruct n).
  destruct (negb _); [|done].
  destruct (Hb sub n) as [[c|] ->]; [by left|done|done|done].
Qed.

Lemma fs_height_entry e entries :
  In e entries -> (fs_height e <= fold_right Nat.max 0 (map fs_height entries))%nat.
Proof.
  induction entries as [|a entries IH]; simpl; [done|].
  intros [->|H]; [lia|]. apply IH in H. lia.
Qed.

(** A folder no deeper than the interpreter allows is scanned to the end. *)
Lemma build_crate_tree_returns depth folder name listable entries extensions
  parent_name include_empty :
  (fs_height (FsDir name listable entries) <= depth)%nat ->
  exists r, build_crate_tree depth folder (FsDir name listable entries) extensions
              parent_name include_empty = Returns r.
Proof.
  revert folder name listable entries parent_name.
  induction depth as [|depth IH]; intros folder name listable entries parent_name Hh.
  { simpl in Hh. lia. }
  rewrite build_crate_tree_unfold. cbn [is_dir].
  destruct (scan_folder_returns folder name listable entries extensions) as [ts ->].
  cbn [obind].
  assert (exists cs, subfolder_crates depth folder (FsDir name listable entries) extensions
                       parent_name include_empty = Returns cs) as [cs ->].
  { unfold subfolder_crates. simpl. destruct listable; [|eauto].
    apply collect_children_returns. intros sub n Hin Hd.
    apply sorted_In, in_map_iff in Hin as (e & He & Hin).
    injection He as <- <-.
    destruct e as [|nm l es| |]; try done.
    apply IH. apply fs_height_entry in Hin. simpl in *. lia. }
  cbn [obind]. destruct (_ || _); eauto.
Qed.

End Scanner.

Example test_folder_scanned :
  option_map (fun c => (name c, map name (children c),
                        map (fun h => map name (children h)) (children c)))
    test_music_plan
  = Some (lit "MusicRoot", [lit "HipHop"; lit "House"], [[]; [lit "Classic"; lit "Deep"]]).
Proof. vm_compute. reflexivity. Qed.

Example empty_folder_absent :
  @build_crate_tree ascii_unicode posix_canonical 1
    (path_child test_music_root (lit "EmptyFolder")) (FsDir (lit "EmptyFolder") true [])
    test_extensions None false = Returns None.
Proof. vm_compute. reflexivity. Qed.

Example empty_folder_forced :
  @build_crate_tree ascii_unicode posix_canonical 1
    (path_child test_music_root (lit "EmptyFolder")) (FsDir (lit "EmptyFolder") true [])
    test_extensions None true
  = Returns (Some (mkCratePlan (lit "EmptyFolder")
                     (path_child test_music_root (lit "EmptyFolder")) None [] [])).
Proof. vm_compute. reflexivity. Qed.

(** * The orchestrator *)

Lemma same_siblings_refl w : same_siblings w w.
Proof. done. Qed.
Lemma same_siblings_trans w1 w2 w3 :
  same_siblings w1 w2 -> same_siblings w2 w3 -> same_siblings w1 w3.
Proof. unfold same_siblings. congruence. Qed.
Lemma same_subcrates_refl w : same_subcrates w w.
Proof. done. Qed.
Lemma same_subcrates_trans w1 w2 w3 :
  same_subcrates w1 w2 -> same_subcrates w2 w3 -> same_subcrates w1 w3.
Proof. unfold same_subcrates. congruence. Qed.
Lemma trace_grows_refl w : trace_grows w w.
Proof. exists []. by rewrite app_nil_r. Qed.
Lemma trace_grows_trans w1 w2 w3 :
  trace_grows w1 w2 -> trace_grows w2 w3 -> trace_grows w1 w3.
Proof. intros [l1 H1] [l2 H2]. exists (l1 ++ l2). by rewrite H2, H1, app_assoc. Qed.
Lemma nothing_deleted_refl w : nothing_deleted w w.
Proof. exists []. by rewrite app_nil_r. Qed.
Lemma nothing_deleted_trans w1 w2 w3 :
  nothing_deleted w1 w2 -> nothing_deleted w2 w3 -> nothing_deleted w1 w3.
Proof.
  intros (l1 & H1 & F1) (l2 & H2 & F2). exists (l1 ++ l2).
  rewrite H2, H1, app_assoc, forallb_app, F1, F2. done.
Qed.

Lemma nothing_deleted_In w w' f :
  nothing_deleted w w' -> In (LogDeleted f) (trace w') -> In (LogDeleted f) (trace w).
Proof.
  intros (l & -> & Hl) [H|H]%in_app_or; [done|].
  rewrite forallb_forall in Hl. by apply Hl in H.
Qed.

(** ** The backup step *)

Section Backup.
Context `{Sy : System}.

Lemma backup_subcrates_subcrates : stable same_subcrates backup_subcrates.
Proof.
  unfold backup_subcrates, copytree.
  repeat first
    [ simple apply (stable_ret _ same_subcrates_refl)
    | simple apply (stable_lift _ same_subcrates_refl)
    | simple apply (stable_bind _ same_subcrates_trans); [|intros ?]
    | match goal with |- stable _ (match ?x with _ => _ end) => destruct x end
    | (intros w; unfold syscall; by destruct (fails _))
    | (intros w; reflexivity) ].
Qed.

Lemma emit_nothing_deleted ev :
  is_deletion ev = false -> stable nothing_deleted (emit ev).
Proof. intros Hev w. exists [ev]. simpl. by rewrite Hev. Qed.

Lemma backup_subcrates_nothing_deleted : stable nothing_deleted backup_subcrates.
Proof.
  unfold backup_subcrates, copytree.
  repeat first
    [ simple apply (stable_ret _ nothing_deleted_refl)
    | simple apply (stable_lift _ nothing_deleted_refl)
    | simple apply emit_nothing_deleted; reflexivity
    | simple apply (stable_bind _ nothing_deleted_trans); [|intros ?]
    | match goal with |- stable _ (match ?x with _ => _ end) => destruct x end
    | (intros w; unfold syscall; destruct (fails _); exists []; simpl;
       by rewrite app_nil_r)
    | (intros w; exists []; simpl; by rewrite app_nil_r) ].
Qed.
End Backup.

(** ** The steps after the backup

    What holds of the steps that clean and write, for any relation between
    worlds that their primitive steps respect. *)

Section AfterBackup.
Context `{U : Unicode} `{P : Platform} `{Sy : System}.
Variable R : World -> World -> Prop.
Hypothesis R_refl : forall w, R w w.
Hypothesis R_trans : forall w1 w2 w3, R w1 w2 -> R w2 w3 -> R w1 w3.
Hypothesis R_emit : forall ev, stable R (emit ev).
Hypothesis R_syscall : stable R syscall.
Hypothesis R_set_subcrates : forall d, stable R (set_subcrates d).
Hypothesis R_write_file : forall file_name chunks w, R w (write_file file_name chunks w).

Lemma R_get_world : stable R get_world.
Proof. intros w. apply R_refl. Qed.

Ltac steps :=
  repeat first
    [ simple apply (stable_ret _ R_refl)
    | simple apply (stable_lift _ R_refl)
    | simple apply R_emit | simple apply R_syscall | simple apply R_get_world
    | simple apply R_set_subcrates
    | match goal with H : _ |- stable _ _ => simple apply H end
    | simple apply (stable_bind _ R_trans); [|intros ?]
    | simple apply (stable_try _ R_trans); [|intros ?]
    | match goal with |- stable _ (match ?x with _ => _ end) => destruct x end
    | match goal with |- stable _ (if ?x then _ else _) => destruct x end ].

Lemma mkdir_stable : stable R mkdir_subcrates.
Proof. unfold mkdir_subcrates. steps. Qed.

Lemma open_and_write_stable file_name chunks : stable R (open_and_write file_name chunks).
Proof. unfold open_and_write. steps. intros w. apply R_write_file. Qed.

Lemma clean_stable : stable R clean_existing_crates.
Proof.
  unfold clean_existing_crates. steps.
  generalize 0. induction (glob_crate _) as [|f fs IH]; intros n; cbn [clean_loop].
  - steps.
  - unfold unlink. steps.
Qed.

Lemma write_crate_recursive_stable write overwrite delim pm mr c prefix counts :
  stable R (write_crate_recursive write overwrite delim pm mr c prefix counts).
Proof.
  revert prefix counts. induction c as [n p pn ts cs IH] using CratePlan_nested_ind.
  intros prefix counts. cbn [write_crate_recursive].
  apply (stable_bind _ R_trans); [steps|intros crate_filename].
  apply (stable_bind _ R_trans); [steps|intros w0].
  apply (stable_bind _ R_trans).
  { unfold write_with_library, write_crate_binary.
    pose proof open_and_write_stable. steps; intros w; apply R_write_file. }
  intros counts'. cbn [children]. revert counts'.
  induction IH as [|c cs Hc _ IHcs]; intros counts'; [steps|].
  apply (stable_bind _ R_trans); [apply Hc|apply IHcs].
Qed.

Lemma write_crates_stable plan overwrite delim pm :
  stable R (write_crates_with_serato_crate plan overwrite delim pm).
Proof.
  unfold write_crates_with_serato_crate. destruct serato_crate as [write|]; [|steps].
  apply (stable_bind _ R_trans); [apply mkdir_stable|intros _].
  generalize (0, 0). induction (crates plan) as [|c cs IH]; intros counts; cbn [write_each].
  - steps.
  - apply (stable_bind _ R_trans);
      [apply write_crate_recursive_stable|intros ?; apply IH].
Qed.

Lemma execute_sync_after_backup plan overwrite clean delim pm w backup_path w1 :
  backup_subcrates w = (Returns backup_path, w1) ->
  R w1 (snd (execute_sync plan overwrite clean delim pm w)).
Proof.
  intros Hb. unfold execute_sync, st_bind at 1. rewrite Hb.
  match goal with |- R w1 (snd (?m w1)) => assert (stable R m) as Hst; [|apply Hst] end.
  pose proof mkdir_stable. pose proof clean_stable.
  pose proof (write_crates_stable plan (overwrite || clean) delim pm).
  steps.
Qed.
End AfterBackup.

Section Sync.
Context `{U : Unicode} `{P : Platform} `{Sy : System}.

Lemma execute_sync_keeps_siblings plan overwrite clean delim pm w backup_path w1 :
  backup_subcrates w = (Returns backup_path, w1) ->
  same_siblings w1 (snd (execute_sync plan overwrite clean delim pm w)).
Proof.
  apply (execute_sync_after_backup same_siblings same_siblings_refl same_siblings_trans).
  - done.
  - intros w0. unfold syscall. by destruct (fails _).
  - done.
  - intros f chunks w0. unfold write_file, same_siblings. by destruct (subcrates w0).
Qed.

Lemma execute_sync_trace_grows plan overwrite clean delim pm w backup_path w1 :
  backup_subcrates w = (Returns backup_path, w1) ->
  trace_grows w1 (snd (execute_sync plan overwrite clean delim pm w)).
Proof.
  apply (execute_sync_after_backup trace_grows trace_grows_refl trace_grows_trans).
  - intros ev w0. by exists [ev].
  - intros w0. unfold syscall. destruct (fails _); exists []; simpl; by rewrite app_nil_r.
  - intros d w0. exists []. simpl. by rewrite app_nil_r.
  - intros f chunks w0. unfold write_file.
    destruct (subcrates w0); exists []; simpl; by rewrite app_nil_r.
Qed.

Lemma backup_holds_files w backup_path w1 files :
  backup_subcrates w = (Returns backup_path, w1) ->
  subcrates w = Some files ->
  exists b, backup_path = Some b /\ siblings w1 !! b = Some files.
Proof.
  unfold backup_subcrates, st_bind at 1, get_world. intros Hb Hs. rewrite Hs in Hb.
  apply st_bind_returns in Hb as (? & w2 & _ & Hb).
  apply st_bind_returns in Hb as (? & w3 & Hc & Hb).
  unfold st_ret in Hb. injection Hb as <- <-. eexists; split; [reflexivity|].
  unfold copytree in Hc.
  apply st_bind_returns in Hc as (? & w4 & _ & Hc).
  apply st_bind_returns in Hc as (w5 & w6 & Hg & Hc).
  unfold get_world in Hg. injection Hg as <- <-.
  destruct (siblings w4 !! _) eqn:E; [discriminate Hc|].
  unfold set_siblings in Hc. injection Hc as _ <-. cbn [siblings].
  apply lookup_insert_eq.
Qed.

Ltac inv_st :=
  repeat match goal with
    | H : st_bind _ _ _ = (Returns _, _) |- _ =>
        apply st_bind_returns in H as (? & ? & ? & H)
    | H : st_try _ _ _ = (Returns _, _) |- _ =>
        apply st_try_returns in H as [H|(? & ? & ? & H)]
    | H : st_ret _ _ = (Returns _, _) |- _ => unfold st_ret in H; simplify_eq
    end.

Lemma write_crate_recursive_no_skip write delim pm mr c prefix counts w r w' :
  write_crate_recursive write true delim pm mr c prefix counts w = (Returns r, w') ->
  snd r = snd counts.
Proof.
  revert prefix counts w r w'. induction c as [n p pn ts cs IH] using CratePlan_nested_ind.
  intros prefix counts w r w'. cbn [write_crate_recursive]. intros H.
  apply st_bind_returns in H as (crate_filename & w1 & _ & H).
  apply st_bind_returns in H as (w2 & w3 & _ & H).
  apply st_bind_returns in H as (counts1 & w4 & Hc & H).
  assert (snd counts1 = snd counts) as <-.
  { clear H. rewrite andb_false_r in Hc. inv_st; done. }
  clear Hc. cbn [children] in H. revert counts1 w4 H.
  induction IH as [|c cs Hc _ IHcs]; intros counts1 w4 H.
  - by inv_st.
  - apply st_bind_returns in H as (counts2 & w5 & H1 & H).
    apply Hc in H1. apply IHcs in H. congruence.
Qed.

Lemma write_each_no_skip write delim pm mr cs counts w r w' :
  write_each write true delim pm mr cs counts w = (Returns r, w') ->
  snd r = snd counts.
Proof.
  revert counts w; induction cs as [|c cs IH]; intros counts w H; cbn [write_each] in H.
  - by inv_st.
  - apply st_bind_returns in H as (counts1 & w2 & H1 & H).
    apply write_crate_recursive_no_skip in H1. apply IH in H. congruence.
Qed.

Lemma write_crates_no_skip plan delim pm w created skipped w' :
  write_crates_with_serato_crate plan true delim pm w = (Returns (created, skipped), w') ->
  skipped = 0.
Proof.
  unfold write_crates_with_serato_crate. destruct serato_crate as [write|].
  - intros H. apply st_bind_returns in H as (? & w1 & _ & H).
    by apply write_each_no_skip in H.
  - intros H. by inv_st.
Qed.

(** C10: when [execute_sync] returns, it returns [True]. *)
Theorem execute_sync_returns_true plan overwrite clean delim pm w b w' :
  execute_sync plan overwrite clean delim pm w = (Returns b, w') -> b = true.
Proof.
  unfold execute_sync. intros H. inv_st. done.
Qed.

End Sync.

Example clean_sync_trace :
  trace (snd (@execute_sync ascii_unicode posix_canonical calm_system sample_plan
                false true (lit "%%") (lit "absolute") test_serato_world))
  = [LogCreatingBackup (lit "Subcrates.BACKUP.20240101_120000");
     PrintBackupCreated (lit "Subcrates.BACKUP.20240101_120000");
     PrintCleaning; LogDeleted (lit "ExistingCrate.crate"); PrintDeleted 1;
     PrintWriting; LogNotInstalled; PrintSyncComplete; PrintCreated 0; PrintSkipped 0;
     PrintRestore (lit "Subcrates.BACKUP.20240101_120000")].
Proof. vm_compute. reflexivity. Qed.

Example sync_skips_existing :
  let w := {| subcrates := Some {[ lit "House.crate" := [] ]};
              siblings := ∅; ticks := 0; trace := [] |} in
  fst (@write_crates_with_serato_crate ascii_unicode posix_canonical library_system
         sample_plan false (lit "%%") (lit "absolute") w) = Returns (3, 1)
  /\ fst (@write_crates_with_serato_crate ascii_unicode posix_canonical library_system
            sample_plan true (lit "%%") (lit "absolute") w) = Returns (4, 0).
Proof. vm_compute. split; reflexivity. Qed.

(** * The SQLite writer *)

Lemma grown_refl s : grown s s.
Proof. exists []. by rewrite app_nil_r. Qed.

Lemma grown_trans s1 s2 s3 : grown s1 s2 -> grown s2 s3 -> grown s1 s3.
Proof.
  intros (a1 & H1 & S1) (a2 & H2 & S2). exists (a1 ++ a2).
  rewrite H2, H1, S2, S1. by rewrite app_assoc.
Qed.

Section Writer.
Context `{Sy : System}.

Lemma sql_call_ok s : fails (calls s) = false -> sql_call s = (Returns tt, called s).
Proof. intros H. unfold sql_call. by rewrite H. Qed.

Lemma sql_call_fails s : fails (calls s) = true -> sql_call s = (Raises SqliteError, called s).
Proof. intros H. unfold sql_call. by rewrite H. Qed.

Lemma sql_call_returns s u s' : sql_call s = (Returns u, s') -> s' = called s.
Proof. unfold sql_call. destruct (fails _); intros; by simplify_eq. Qed.

Lemma st_bind_ext {S A B} (m : ST S A) (k1 k2 : A -> ST S B) s :
  (forall a s', k1 a s' = k2 a s') -> st_bind m k1 s = st_bind m k2 s.
Proof. intros H. unfold st_bind. destruct (m s) as [[a| |] s']; auto. Qed.

Lemma create_crate_recursive_unfold delim c parent_id parent_prefix list_order loc s :
  create_crate_recursive delim c parent_id parent_prefix list_order loc s
  = (existing <- select_existing parent_id (name c) ;;
     r <- match existing with
          | Some crate_id =>
              st_ret (crate_id,
                      {| crates_created := crates_created loc;
                         crates_skipped := crates_skipped loc + 1;
                         revision := revision loc |})
          | None =>
              now <- time_now ;;
              crate_id <- insert_container (revision loc + 1) parent_id (name c)
                            list_order now
                            (lit "crate://" ++ display_name_of delim parent_prefix c) ;;
              st_ret (crate_id,
                      {| crates_created := crates_created loc + 1;
                         crates_skipped := crates_skipped loc;
                         revision := revision loc + 1 |})
          end ;;
     loc' <- create_children delim (children c) (fst r)
               (display_name_of delim parent_prefix c) 1 (snd r) ;;
     st_ret (fst r, loc'))%st s.
Proof.
  destruct c as [n p pn ts cs]. cbn [create_crate_recursive name children].
  apply st_bind_ext. intros existing s1.
  apply st_bind_ext. intros r s2.
  unfold display_name_of. cbn [name].
  set (dn := if truthy parent_prefix then parent_prefix ++ delim ++ n else n).
  match goal with |- st_bind (?each cs 1 (snd r)) _ s2 = _ => set (loop := each) end.
  assert (forall cs order l s,
            loop cs order l s = create_children delim cs (fst r) dn order l s) as Hloop.
  { clear. induction cs as [|c cs IH]; intros order l s; [reflexivity|].
    change (loop (c :: cs) order l s)
      with (st_bind (create_crate_recursive delim c (fst r) dn order l)
              (fun r' => loop cs (order + 1) (snd r')) s).
    cbn [create_children]. apply st_bind_ext. intros r' s'. apply IH. }
  unfold st_bind. by rewrite Hloop.
Qed.

Lemma stable_ext {S A} (R : S -> S -> Prop) (m m' : ST S A) :
  (forall s, m s = m' s) -> stable R m' -> stable R m.
Proof. intros He Hm s. rewrite He. apply Hm. Qed.

Lemma sql_call_grown : stable grown sql_call.
Proof.
  intros s. unfold sql_call. destruct (fails _); exists []; simpl; by rewrite app_nil_r.
Qed.

Lemma get_db_grown : stable grown get_db.
Proof. intros s. apply grown_refl. Qed.

Lemma time_now_grown : stable grown time_now.
Proof. intros s. apply grown_refl. Qed.

Lemma select_existing_grown parent_id name : stable grown (select_existing parent_id name).
Proof.
  unfold select_existing.
  apply (stable_bind _ grown_trans); [apply sql_call_grown|intros _].
  apply (stable_bind _ grown_trans); [apply get_db_grown|intros d].
  apply (stable_ret _ grown_refl).
Qed.

Lemma insert_container_grown rev parent_id name list_order now portable_id :
  stable grown (insert_container rev parent_id name list_order now portable_id).
Proof.
  intros s. unfold insert_container, st_bind, sql_call, get_db, set_db, st_ret.
  destruct (fails _); simpl; [exists []; simpl; by rewrite app_nil_r|].
  eexists. simpl. split; reflexivity.
Qed.

Lemma create_children_grown_from delim cs :
  Forall (fun c => forall parent_id parent_prefix list_order loc,
            stable grown (create_crate_recursive delim c parent_id parent_prefix
                            list_order loc)) cs ->
  forall crate_id display_name child_order loc,
    stable grown (create_children delim cs crate_id display_name child_order loc).
Proof.
  induction 1 as [|c cs Hc _ IH]; intros crate_id display_name child_order loc;
    cbn [create_children].
  - apply (stable_ret _ grown_refl).
  - apply (stable_bind _ grown_trans); [apply Hc|intros r; apply IH].
Qed.

Lemma create_crate_recursive_grown delim c parent_id parent_prefix list_order loc :
  stable grown (create_crate_recursive delim c parent_id parent_prefix list_order loc).
Proof.
  revert parent_id parent_prefix list_order loc.
  induction c as [n p pn ts cs IH] using CratePlan_nested_ind.
  intros parent_id parent_prefix list_order loc.
  eapply stable_ext; [apply create_crate_recursive_unfold|].
  apply (stable_bind _ grown_trans); [apply select_existing_grown|intros existing].
  apply (stable_bind _ grown_trans).
  { destruct existing; [apply (stable_ret _ grown_refl)|].
    apply (stable_bind _ grown_trans); [apply time_now_grown|intros now].
    apply (stable_bind _ grown_trans); [apply insert_container_grown|intros ?].
    apply (stable_ret _ grown_refl). }
  intros r. apply (stable_bind _ grown_trans).
  - by apply create_children_grown_from.
  - intros ?. apply (stable_ret _ grown_refl).
Qed.

Lemma create_children_grown delim cs crate_id display_name child_order loc :
  stable grown (create_children delim cs crate_id display_name child_order loc).
Proof.
  apply create_children_grown_from, Forall_forall. intros c _ ? ? ? ?.
  apply create_crate_recursive_grown.
Qed.

Lemma create_each_grown delim cs next_order loc :
  stable grown (create_each delim cs next_order loc).
Proof.
  revert next_order loc; induction cs as [|c cs IH]; intros next_order loc;
    cbn [create_each].
  - apply (stable_ret _ grown_refl).
  - apply (stable_bind _ grown_trans); [apply create_crate_recursive_grown|].
    intros r. apply IH.
Qed.

(** ** What a session that returns has done *)

Lemma select_existing_returns parent_id name s e s' :
  select_existing parent_id name s = (Returns e, s') ->
  s' = called s /\
  e = option_map row_id (List.find (matches parent_id name) (container (db s))).
Proof.
  unfold select_existing. intros H.
  apply st_bind_returns in H as (? & s1 & ->%sql_call_returns & H).
  unfold st_bind, get_db, st_ret in H. by simplify_eq.
Qed.

Lemma insert_container_returns rev parent_id name list_order now portable_id s cid s' :
  insert_container rev parent_id name list_order now portable_id s = (Returns cid, s') ->
  cid = next_id (container (db s)) /\
  calls s' = S (calls s) /\
  serato (db s') = serato (db s) /\
  container (db s') = container (db s) ++
    [{| row_id := cid; row_revision := rev; row_parent_id := parent_id;
        row_name := name; row_type := 1; row_list_order := list_order;
        row_time_added := now; row_expanded := 0; row_portable_id := portable_id |}].
Proof.
  unfold insert_container. intros H.
  apply st_bind_returns in H as (? & s1 & ->%sql_call_returns & H).
  unfold st_bind, get_db, set_db, st_ret in H. simpl in H. by simplify_eq.
Qed.

Lemma accounted_refl loc s : accounted loc loc s s.
Proof. exists []. rewrite app_nil_r. simpl. repeat split; (lia || constructor). Qed.

Lemma accounted_trans l1 l2 l3 s1 s2 s3 :
  accounted l1 l2 s1 s2 -> accounted l2 l3 s2 s3 -> accounted l1 l3 s1 s3.
Proof.
  intros (a1 & C1 & S1 & N1 & R1 & T1) (a2 & C2 & S2 & N2 & R2 & T2).
  exists (a1 ++ a2). rewrite C2, C1, S2, S1, N2, N1, R2, R1, length_app.
  repeat split; try lia; [by rewrite app_assoc|by apply Forall_app].
Qed.

Lemma create_children_accounted_from delim cs :
  Forall (fun c => forall parent_id parent_prefix list_order loc s cid loc' s',
            create_crate_recursive delim c parent_id parent_prefix list_order loc s
              = (Returns (cid, loc'), s') -> accounted loc loc' s s') cs ->
  forall crate_id display_name child_order loc s loc' s',
    create_children delim cs crate_id display_name child_order loc s = (Returns loc', s') ->
    accounted loc loc' s s'.
Proof.
  induction 1 as [|c cs Hc _ IH]; intros crate_id display_name child_order loc s loc' s' H;
    cbn [create_children] in H.
  - unfold st_ret in H. simplify_eq. apply accounted_refl.
  - apply st_bind_returns in H as ([cid loc1] & s1 & H1 & H).
    eapply accounted_trans; [eapply Hc, H1|eapply IH, H].
Qed.

Lemma create_crate_recursive_accounted delim c parent_id parent_prefix list_order
  loc s cid loc' s' :
  create_crate_recursive delim c parent_id parent_prefix list_order loc s
    = (Returns (cid, loc'), s') ->
  accounted loc loc' s s'.
Proof.
  revert parent_id parent_prefix list_order loc s cid loc' s'.
  induction c as [n p pn ts cs IH] using CratePlan_nested_ind.
  intros parent_id parent_prefix list_order loc s cid loc' s'.
  rewrite create_crate_recursive_unfold. intros H.
  apply st_bind_returns in H as (existing & s1 & [-> ->]%select_existing_returns & H).
  apply st_bind_returns in H as ([cid1 loc1] & s2 & Hnode & H).
  apply st_bind_returns in H as (loc2 & s3 & Hch & H).
  unfold st_ret in H. simplify_eq. cbn [fst snd children] in Hch.
  eapply accounted_trans; [|eapply create_children_accounted_from; [exact IH|exact Hch]].
  destruct (List.find _ _) as [r|]; cbn [option_map] in Hnode.
  - unfold st_ret in Hnode. simplify_eq. exists []. rewrite app_nil_r. simpl.
    repeat split; (lia || constructor).
  - apply st_bind_returns in Hnode as (now & s4 & Hnow & Hnode).
    unfold time_now in Hnow. simplify_eq.
    apply st_bind_returns in Hnode as (cid2 & s5 & Hins & Hnode).
    unfold st_ret in Hnode. simplify_eq.
    apply insert_container_returns in Hins as (_ & _ & Hser & Hcon).
    eexists. split; [exact Hcon|]. split; [exact Hser|]. simpl.
    repeat split; try lia. by repeat constructor.
Qed.

Lemma create_each_accounted delim cs next_order loc s loc' s' :
  create_each delim cs next_order loc s = (Returns loc', s') -> accounted loc loc' s s'.
Proof.
  revert next_order loc s; induction cs as [|c cs IH]; intros next_order loc s H;
    cbn [create_each] in H.
  - unfold st_ret in H. simplify_eq. apply accounted_refl.
  - apply st_bind_returns in H as ([cid loc1] & s1 & H1 & H).
    eapply accounted_trans; [eapply create_crate_recursive_accounted, H1|eapply IH, H].
Qed.

(** ** Looking a crate up again *)

Lemma find_app_Some {A} (p : A -> bool) l m r :
  List.find p l = Some r -> List.find p (l ++ m) = Some r.
Proof.
  induction l as [|a l IH]; simpl; [done|]. destruct (p a); [done|apply IH].
Qed.

Lemma find_app_None {A} (p : A -> bool) l m :
  List.find p l = None -> List.find p (l ++ m) = List.find p m.
Proof.
  induction l as [|a l IH]; simpl; [done|]. destruct (p a); [done|apply IH].
Qed.

Lemma matches_spec parent_id name r :
  matches parent_id name r = true
  <-> row_parent_id r = parent_id /\ row_name r = name /\ row_type r = 1.
Proof.
  unfold matches, str_eqb. rewrite !andb_true_iff, !Z.eqb_eq, bool_decide_eq_true. tauto.
Qed.

Lemma select_existing_ok parent_id name s :
  fails (calls s) = false ->
  select_existing parent_id name s
  = (Returns (option_map row_id (List.find (matches parent_id name) (container (db s)))),
     called s).
Proof.
  intros Hf. unfold select_existing, st_bind. by rewrite sql_call_ok.
Qed.

Lemma count_recursive_unfold c totals :
  count_recursive c totals
  = fold_left (fun totals child => count_recursive child totals) (children c)
      (fst totals + 1, snd totals + Z.of_nat (length (tracks c))).
Proof. destruct c. reflexivity. Qed.

Lemma fold_count_from cs :
  Forall (fun c => forall a b, fst (count_recursive c (a, b)) = a + crate_count c) cs ->
  forall a b, fst (fold_left (fun totals c => count_recursive c totals) cs (a, b))
              = a + crates_count cs.
Proof.
  unfold crates_count.
  induction 1 as [|c cs Hc _ IH]; intros a b; simpl; [lia|].
  destruct (count_recursive c (a, b)) as [a1 b1] eqn:E1.
  destruct (count_recursive c (0, 0)) as [a2 b2] eqn:E2.
  rewrite (IH a1 b1), (IH a2 b2).
  pose proof (Hc a b) as H1. pose proof (Hc 0 0) as H2.
  rewrite E1 in H1. rewrite E2 in H2. simpl in *. lia.
Qed.

Lemma count_recursive_fst c a b : fst (count_recursive c (a, b)) = a + crate_count c.
Proof.
  revert a b. induction c as [n p pn ts cs IH] using CratePlan_nested_ind. intros a b.
  unfold crate_count. rewrite !count_recursive_unfold. cbn [children tracks fst snd].
  rewrite !(fold_count_from cs IH). lia.
Qed.

Lemma crate_count_unfold c : crate_count c = 1 + crates_count (children c).
Proof.
  unfold crate_count. rewrite count_recursive_unfold. cbn [fst snd].
  rewrite fold_count_from; [lia|]. apply Forall_forall. intros; apply count_recursive_fst.
Qed.

Lemma crates_count_cons c cs : crates_count (c :: cs) = crate_count c + crates_count cs.
Proof.
  unfold crates_count at 1. simpl.
  destruct (count_recursive c (0, 0)) as [a b] eqn:E.
  rewrite fold_count_from by (apply Forall_forall; intros; apply count_recursive_fst).
  unfold crate_count. by rewrite E.
Qed.

Lemma crate_total_count cs : crate_total cs = crates_count cs.
Proof. reflexivity. Qed.

Lemma rerun_children delim cs :
  Forall (rerun_skips delim) cs ->
  forall crate_id display_name child_order loc s loc' s',
    create_children delim cs crate_id display_name child_order loc s = (Returns loc', s') ->
    forall dn2 order2 loc2 s2 more,
      container (db s2) = container (db s') ++ more ->
      (forall n, (calls s2 <= n)%nat -> fails n = false) ->
      exists s2',
        create_children delim cs crate_id dn2 order2 loc2 s2
        = (Returns {| crates_created := crates_created loc2;
                      crates_skipped := crates_skipped loc2 + crates_count cs;
                      revision := revision loc2 |}, s2')
        /\ db s2' = db s2 /\ (calls s2 <= calls s2')%nat.
Proof.
  induction 1 as [|c cs Hc _ IH];
    intros crate_id display_name child_order loc s loc' s' H dn2 order2 loc2 s2 more Hm Hf;
    cbn [create_children] in *.
  - exists s2. unfold st_ret. change (crates_count []) with 0. rewrite Z.add_0_r.
    by destruct loc2.
  - apply st_bind_returns in H as ([cid1 loc1] & s1 & H1 & H).
    pose proof (create_children_grown delim cs crate_id display_name (child_order + 1)
                  loc1 s1) as (a & Ha & _).
    cbn [snd] in H. rewrite H in Ha. cbn [snd] in Ha.
    destruct (Hc _ _ _ _ _ _ _ _ H1 dn2 order2 loc2 s2 (a ++ more)) as (s3 & E1 & Hdb & Hle).
    { by rewrite Hm, Ha, <- app_assoc. }
    { done. }
    destruct (IH _ _ _ _ _ _ _ H dn2 (order2 + 1)
                {| crates_created := crates_created loc2;
                   crates_skipped := crates_skipped loc2 + crate_count c;
                   revision := revision loc2 |} s3 more) as (s4 & E2 & Hdb2 & Hle2).
    { by rewrite Hdb. }
    { intros n Hn. apply Hf. lia. }
    exists s4. unfold st_bind. rewrite E1. cbn [snd]. rewrite E2. cbn.
    rewrite crates_count_cons, Z.add_assoc. split; [done|]. split; [congruence|lia].
Qed.

Lemma rerun_crate delim c : rerun_skips delim c.
Proof.
  induction c as [n p pn ts cs IH] using CratePlan_nested_ind.
  intros parent_id parent_prefix list_order loc s cid loc' s' H
    prefix2 order2 loc2 s2 more Hm Hf.
  rewrite create_crate_recursive_unfold in H.
  apply st_bind_returns in H as (existing & s1 & [-> ->]%select_existing_returns & H).
  apply st_bind_returns in H as ([cid1 loc1] & s3 & Hnode & H).
  apply st_bind_returns in H as (loc4 & s4 & Hch & H).
  unfold st_ret in H. cbn [fst snd] in *. injection H as <- <- <-.
  pose proof (create_children_grown delim cs cid1
                (display_name_of delim parent_prefix (mkCratePlan n p pn ts cs)) 1 loc1 s3)
    as (a & Ha & _).
  cbn [children] in *. rewrite Hch in Ha. cbn [snd] in Ha.
  assert (exists r, List.find (matches parent_id n) (container (db s2)) = Some r
                    /\ row_id r = cid1) as (r & Hfind & Hid).
  { cbn [name] in *. rewrite Hm, Ha.
    destruct (List.find _ (container (db s))) as [r|] eqn:Hfound; cbn [option_map] in Hnode.
    - unfold st_ret in Hnode. injection Hnode as <- <- <-. exists r. split; [|done].
      rewrite <- !app_assoc. by apply find_app_Some.
    - apply st_bind_returns in Hnode as (now & s5 & Hnow & Hnode).
      unfold time_now in Hnow. injection Hnow as <- <-.
      apply st_bind_returns in Hnode as (cid2 & s6 & Hins & Hnode).
      unfold st_ret in Hnode. injection Hnode as <- <- <-.
      apply insert_container_returns in Hins as (_ & _ & _ & Hcon).
      cbn [called db] in Hcon. rewrite Hcon.
      match type of Hcon with _ = _ ++ [?row] => exists row end.
      split; [|reflexivity].
      rewrite <- !app_assoc. rewrite find_app_None by done.
      cbn [app List.find].
      match goal with |- (if ?b then _ else _) = _ =>
        assert (b = true) as ->; [by apply matches_spec|done] end. }
  destruct (rerun_children delim cs IH _ _ _ _ _ _ _ Hch
              (display_name_of delim prefix2 (mkCratePlan n p pn ts cs)) 1
              {| crates_created := crates_created loc2;
                 crates_skipped := crates_skipped loc2 + 1;
                 revision := revision loc2 |} (called s2) more)
    as (s5 & E & Hdb & Hle).
  { done. }
  { intros k Hk. apply Hf. simpl in Hk. lia. }
  exists s5. rewrite create_crate_recursive_unfold. unfold st_bind at 1.
  rewrite select_existing_ok by (apply Hf; lia).
  cbn [name]. rewrite Hfind. cbn [option_map]. rewrite Hid.
  unfold st_bind, st_ret. cbn [fst snd children]. rewrite E.
  rewrite crate_count_unfold. cbn [children crates_created crates_skipped revision].
  rewrite <- Z.add_assoc. split; [done|]. split; [done|]. simpl in Hle. lia.
Qed.

(** ** Failures *)

Lemma honest_ret {A} (a : A) : honest (st_ret a).
Proof. intros s. simpl. split; [lia|intros; lia]. Qed.

Lemma honest_bind {A B} (m : SQL A) (k : A -> SQL B) :
  honest m -> (forall a, honest (k a)) -> honest (st_bind m k).
Proof.
  intros Hm Hk s. unfold st_bind. specialize (Hm s).
  destruct (m s) as [[a| |] s1]; [|done|done].
  specialize (Hk a s1). destruct Hm as [Hle Hm].
  destruct (k a s1) as [[b| |] s2].
  - destruct Hk as [Hle2 Hk]. split; [lia|]. intros n Hn.
    destruct (Nat.lt_ge_cases n (calls s1)); [apply Hm|apply Hk]; lia.
  - destruct Hk as (Hlt & Hf & Hk). split; [lia|]. split; [done|]. intros n Hn.
    destruct (Nat.lt_ge_cases n (calls s1)); [apply Hm|apply Hk]; lia.
  - destruct Hk as (Hlt & Hf & Hk). split; [lia|]. split; [done|]. intros n Hn.
    destruct (Nat.lt_ge_cases n (calls s1)); [apply Hm|apply Hk]; lia.
Qed.

Lemma honest_ext {A} (m m' : SQL A) : (forall s, m s = m' s) -> honest m' -> honest m.
Proof. intros He Hm s. rewrite He. apply Hm. Qed.

Lemma honest_sql_call : honest sql_call.
Proof.
  intros s. unfold sql_call. destruct (fails (calls s)) eqn:Hf; simpl.
  - split; [lia|]. split; [done|]. intros; lia.
  - split; [lia|]. intros n Hn. by replace n with (calls s) by lia.
Qed.

Lemma honest_get_db : honest get_db.
Proof. intros s. simpl. split; [lia|intros; lia]. Qed.

Lemma honest_set_db d : honest (set_db d).
Proof. intros s. simpl. split; [lia|intros; lia]. Qed.

Lemma honest_time_now : honest time_now.
Proof. intros s. simpl. split; [lia|intros; lia]. Qed.

Ltac honest_steps :=
  repeat first
    [ simple apply @honest_ret | simple apply honest_sql_call
    | simple apply honest_get_db | simple apply honest_set_db
    | simple apply honest_time_now
    | assumption
    | simple apply @honest_bind; [|intros ?]
    | match goal with |- honest (match ?x with _ => _ end) => destruct x end ].

Lemma honest_select_existing parent_id name : honest (select_existing parent_id name).
Proof. unfold select_existing. honest_steps. Qed.

Lemma honest_insert_container rev parent_id name list_order now portable_id :
  honest (insert_container rev parent_id name list_order now portable_id).
Proof. unfold insert_container. honest_steps. Qed.

Lemma honest_create_children_from delim cs :
  Forall (fun c => forall parent_id parent_prefix list_order loc,
            honest (create_crate_recursive delim c parent_id parent_prefix
                      list_order loc)) cs ->
  forall crate_id display_name child_order loc,
    honest (create_children delim cs crate_id display_name child_order loc).
Proof.
  induction 1 as [|c cs Hc _ IH]; intros crate_id display_name child_order loc;
    cbn [create_children].
  - apply honest_ret.
  - apply honest_bind; [apply Hc|intros r; apply IH].
Qed.

Lemma honest_create_crate_recursive delim c parent_id parent_prefix list_order loc :
  honest (create_crate_recursive delim c parent_id parent_prefix list_order loc).
Proof.
  revert parent_id parent_prefix list_order loc.
  induction c as [n p pn ts cs IH] using CratePlan_nested_ind.
  intros parent_id parent_prefix list_order loc.
  eapply honest_ext; [apply create_crate_recursive_unfold|].
  apply honest_bind; [apply honest_select_existing|intros existing].
  apply honest_bind.
  { destruct existing; [apply honest_ret|].
    apply honest_bind; [apply honest_time_now|intros now].
    apply honest_bind; [apply honest_insert_container|intros ?]. apply honest_ret. }
  intros r. apply honest_bind; [by apply honest_create_children_from|].
  intros ?. apply honest_ret.
Qed.

Lemma honest_create_each delim cs next_order loc :
  honest (create_each delim cs next_order loc).
Proof.
  revert next_order loc; induction cs as [|c cs IH]; intros next_order loc;
    cbn [create_each].
  - apply honest_ret.
  - apply honest_bind; [apply honest_create_crate_recursive|intros r; apply IH].
Qed.

Lemma honest_sqlite_session plan delim : honest (sqlite_session plan delim).
Proof.
  unfold sqlite_session, select_revision, select_next_order, update_revision.
  honest_steps; apply honest_create_each.
Qed.

Lemma sqlite_session_returns plan delim s counts s' :
  sqlite_session plan delim s = (Returns counts, s') ->
  exists added,
    container (db s') = container (db s) ++ added
    /\ serato (db s')
       = map (fun _ => first_revision (db s) + Z.of_nat (length added)) (serato (db s))
    /\ fst counts = Z.of_nat (length added)
    /\ Forall (fun r => row_type r = 1) added.
Proof.
  unfold sqlite_session. intros H.
  apply st_bind_returns in H as (? & s1 & ->%sql_call_returns & H).
  apply st_bind_returns in H as (row & s2 & Hrow & H).
  apply st_bind_returns in H as (next_order & s3 & Hord & H).
  apply st_bind_returns in H as (loc & s4 & Hloop & H).
  apply st_bind_returns in H as (? & s5 & Hupd & H).
  apply st_bind_returns in H as (? & s6 & ->%sql_call_returns & H).
  unfold st_ret in H. simplify_eq.
  unfold select_revision in Hrow.
  apply st_bind_returns in Hrow as (? & ? & ->%sql_call_returns & Hrow).
  unfold st_bind, get_db, st_ret in Hrow. simplify_eq.
  unfold select_next_order in Hord.
  apply st_bind_returns in Hord as (? & ? & ->%sql_call_returns & Hord).
  unfold st_bind, get_db, st_ret in Hord. simplify_eq.
  apply create_each_accounted in Hloop as (added & Hc & Hs & Hn & Hr & Ht).
  unfold update_revision in Hupd.
  apply st_bind_returns in Hupd as (? & ? & ->%sql_call_returns & Hupd).
  unfold st_bind, get_db, set_db in Hupd. simplify_eq.
  cbn in *. exists added. rewrite Hs. repeat split; try done.
  by rewrite Hr.
Qed.

(** C3: the writer is all or nothing. Without a database file it
    returns zero counts and changes nothing. With one, either no call
    failed, and the file then holds every row the run added, as many as it
    counts as created, together with the revision written back; or a call
    failed, the counts returned are both zero and the file is as it was. *)
Theorem sqlite_write_all_or_nothing plan delim st :
  let result := write_crates_to_sqlite plan delim st in
  match db_file st with
  | None => result = ((0, 0), st)
  | Some d =>
      ((forall n, (sql_calls st <= n < sql_calls (snd result))%nat -> fails n = false)
       /\ exists added,
            db_file (snd result)
            = Some {| serato := map (fun _ => first_revision d + Z.of_nat (length added))
                                  (serato d);
                      container := container d ++ added |}
            /\ fst (fst result) = Z.of_nat (length added))
      \/
      ((sql_calls st < sql_calls (snd result))%nat
       /\ fails (pred (sql_calls (snd result))) = true
       /\ fst result = (0, 0)
       /\ db_file (snd result) = Some d)
  end.
Proof.
  unfold write_crates_to_sqlite. destruct (db_file st) as [d|] eqn:Hd; [|done].
  pose proof (honest_sqlite_session plan delim {| db := d; calls := sql_calls st |}) as Hh.
  destruct (sqlite_session _ _ _) as [[counts| |] s] eqn:Hs; cbn [fst snd db_file sql_calls].
  - left. destruct Hh as [_ Hh]. split; [exact Hh|].
    apply sqlite_session_returns in Hs as (added & Hc & Hser & Hn & _).
    exists added. split; [|done]. f_equal. cbn [db] in *.
    destruct (db s) as [ser con]. cbn in *. by rewrite Hc, Hser.
  - right. destruct Hh as (Hlt & Hf & _). done.
  - right. destruct Hh as (Hlt & Hf & _). done.
Qed.

Lemma rerun_each delim cs :
  forall next_order loc s loc' s',
    create_each delim cs next_order loc s = (Returns loc', s') ->
    forall order2 loc2 s2 more,
      container (db s2) = container (db s') ++ more ->
      (forall n, (calls s2 <= n)%nat -> fails n = false) ->
      exists s2',
        create_each delim cs order2 loc2 s2
        = (Returns {| crates_created := crates_created loc2;
                      crates_skipped := crates_skipped loc2 + crates_count cs;
                      revision := revision loc2 |}, s2')
        /\ db s2' = db s2 /\ (calls s2 <= calls s2')%nat.
Proof.
  induction cs as [|c cs IH];
    intros next_order loc s loc' s' H order2 loc2 s2 more Hm Hf; cbn [create_each] in *.
  - exists s2. unfold st_ret. change (crates_count []) with 0. rewrite Z.add_0_r.
    by destruct loc2.
  - apply st_bind_returns in H as ([cid1 loc1] & s1 & H1 & H).
    pose proof (create_each_grown delim cs (next_order + 1) loc1 s1) as (a & Ha & _).
    cbn [snd] in H. rewrite H in Ha. cbn [snd] in Ha.
    destruct (rerun_crate delim c _ _ _ _ _ _ _ _ H1 [] order2 loc2 s2 (a ++ more))
      as (s3 & E1 & Hdb & Hle).
    { by rewrite Hm, Ha, <- app_assoc. }
    { done. }
    destruct (IH _ _ _ _ _ H (order2 + 1)
                {| crates_created := crates_created loc2;
                   crates_skipped := crates_skipped loc2 + crate_count c;
                   revision := revision loc2 |} s3 more) as (s4 & E2 & Hdb2 & Hle2).
    { by rewrite Hdb. }
    { intros n Hn. apply Hf. lia. }
    exists s4. unfold st_bind. rewrite E1. cbn [snd]. rewrite E2. cbn.
    rewrite crates_count_cons, Z.add_assoc. split; [done|]. split; [congruence|lia].
Qed.

Lemma sqlite_session_inv plan delim s counts s' :
  sqlite_session plan delim s = (Returns counts, s') ->
  exists next_order loc0 sa loc sb,
    create_each delim (crates plan) next_order loc0 sa = (Returns loc, sb)
    /\ container (db s') = container (db sb)
    /\ serato (db s') = map (fun _ => revision loc) (serato (db sb)).
Proof.
  unfold sqlite_session. intros H.
  apply st_bind_returns in H as (? & s1 & _ & H).
  apply st_bind_returns in H as (row & s2 & _ & H).
  apply st_bind_returns in H as (next_order & s3 & _ & H).
  apply st_bind_returns in H as (loc & s4 & Hloop & H).
  apply st_bind_returns in H as (? & s5 & Hupd & H).
  apply st_bind_returns in H as (? & s6 & ->%sql_call_returns & H).
  unfold st_ret in H. injection H as <- <-.
  unfold update_revision in Hupd.
  apply st_bind_returns in Hupd as (? & ? & ->%sql_call_returns & Hupd).
  unfold st_bind, get_db, set_db in Hupd. injection Hupd as _ <-.
  do 5 eexists. split; [exact Hloop|]. done.
Qed.

Lemma map_const_head (r : Z) (l : list Z) :
  map (fun _ => match head (map (fun _ => r) l) with Some x => x | None => 1 end)
      (map (fun _ : Z => r) l)
  = map (fun _ => r) l.
Proof. destruct l as [|a l]; [done|]. by rewrite List.map_map. Qed.

(** C5: running the writer again on what it left. After a run that went
    through, a second run of the same plan in which no call fails creates
    nothing, counts every crate of the plan as skipped, and leaves the
    database as the first run left it, so that every parent has the rows
    it had. *)
Theorem sqlite_rerun_creates_nothing plan delim st d counts1 s1 :
  db_file st = Some d ->
  sqlite_session plan delim {| db := d; calls := sql_calls st |} = (Returns counts1, s1) ->
  (forall n, (calls s1 <= n)%nat -> fails n = false) ->
  let first := write_crates_to_sqlite plan delim st in
  let second := write_crates_to_sqlite plan delim (snd first) in
  fst first = counts1
  /\ db_file (snd first) = Some (db s1)
  /\ fst second = (0, crate_total (crates plan))
  /\ db_file (snd second) = db_file (snd first)
  /\ (forall parent_id d1 d2,
        db_file (snd first) = Some d1 -> db_file (snd second) = Some d2 ->
        length (List.filter (fun r => row_parent_id r =? parent_id) (container d2))
        = length (List.filter (fun r => row_parent_id r =? parent_id) (container d1))).
Proof.
  intros Hd H1 Hf first second.
  assert (first = (counts1, {| db_file := Some (db s1); sql_calls := calls s1 |})) as Hfirst.
  { subst first. unfold write_crates_to_sqlite. by rewrite Hd, H1. }
  assert (exists k, second = ((0, crate_total (crates plan)),
                              {| db_file := Some (db s1); sql_calls := k |})) as Hsecond.
  { subst second. rewrite Hfirst. cbn [snd].
    unfold write_crates_to_sqlite. cbn [db_file sql_calls].
    apply sqlite_session_inv in H1 as (no & loc0 & sa & loc & sb & Hloop & Hcon & Hser).
    unfold sqlite_session, st_bind at 1.
    rewrite sql_call_ok by (apply Hf; simpl; lia).
    unfold st_bind at 1, select_revision, st_bind at 1.
    rewrite sql_call_ok by (apply Hf; simpl; lia).
    unfold st_bind at 1, get_db, st_ret. cbn [called db calls].
    unfold st_bind at 1, select_next_order, st_bind at 1.
    rewrite sql_call_ok by (apply Hf; simpl; lia).
    unfold st_bind at 1, get_db, st_ret. cbn [called db calls].
    unfold st_bind at 1.
    edestruct (rerun_each delim (crates plan) _ _ _ _ _ Hloop) as (s2' & E & Hdb & Hle);
      [| |rewrite E].
    { cbn [db called]. rewrite Hcon. symmetry. apply app_nil_r. }
    { intros n Hn. apply Hf. simpl in Hn. lia. }
    cbn [revision crates_created crates_skipped].
    unfold st_bind at 1, update_revision, st_bind at 1.
    rewrite sql_call_ok by (apply Hf; simpl in Hle; lia).
    unfold st_bind at 1, get_db, set_db. cbn [called db calls].
    unfold st_bind at 1.
    rewrite sql_call_ok by (apply Hf; simpl in *; lia).
    unfold st_ret. cbn [called db calls]. eexists. f_equal. f_equal.
    f_equal. rewrite Hdb. cbn [db]. destruct (db s1) as [ser con]. cbn in *.
    f_equal. rewrite Hser. apply map_const_head. }
  destruct Hsecond as [k Hsecond]. rewrite Hfirst, Hsecond. cbn [fst snd db_file].
  repeat split; try done. intros parent_id d1 d2 ? ?. by simplify_eq.
Qed.

End Writer.

Example sqlite_first_run :
  let result := @write_crates_to_sqlite calm_system sample_plan (lit "%%") sample_store in
  fst result = (2, 2)
  /\ option_map (fun d => (serato d,
                           map (fun r => (row_id r, row_parent_id r, row_name r,
                                          row_list_order r, row_revision r))
                               (drop 4 (container d))))
       (db_file (snd result))
     = Some ([43], [(5, 1, lit "Classic", 2, 42); (6, 0, lit "HipHop", 5, 43)]).
Proof. vm_compute. split; reflexivity. Qed.

Example sqlite_failing_run :
  @write_crates_to_sqlite failing_system sample_plan (lit "%%") sample_store
  = ((0, 0), {| db_file := Some sample_database; sql_calls := 5 |}).
Proof. vm_compute. reflexivity. Qed.

Example sqlite_missing_file :
  @write_crates_to_sqlite calm_system sample_plan (lit "%%")
    {| db_file := None; sql_calls := 0 |}
  = ((0, 0), {| db_file := None; sql_calls := 0 |}).
Proof. reflexivity. Qed.

(** * The theorems at work *)

(** The crate of the test suite, written to the test folder. *)
Lemma write_crate_binary_layout_witness :
  exists w',
    @write_crate_binary calm_system (lit "TestCrate.crate") test_crate
      (fun p => Returns (@path_str posix_canonical p)) test_serato_world
    = (Returns tt, w')
    /\ subcrates w'
       = Some (<[lit "TestCrate.crate" :=
                   crate_encoding [lit "/tmp/MusicRoot/HipHop/track4.mp3";
                                   lit "/tmp/MusicRoot/HipHop/track5.m4a"]]>
                 {[ lit "ExistingCrate.crate" := [] ]})
    /\ length [lit "/tmp/MusicRoot/HipHop/track4.mp3";
               lit "/tmp/MusicRoot/HipHop/track5.m4a"]
       = length (tracks test_crate).
Proof.
  apply (@write_crate_binary_layout calm_system (lit "TestCrate.crate") test_crate
           (fun p => Returns (@path_str posix_canonical p)) test_serato_world
           {[ lit "ExistingCrate.crate" := [] ]}).
  - reflexivity.
  - reflexivity.
  - vm_compute. reflexivity.
  - repeat constructor; vm_compute; repeat constructor.
Defined.

(** A clean sync of the sample plan into the test folder. *)
Lemma execute_sync_returns_true_witness :
  match fst (@execute_sync ascii_unicode posix_canonical library_system sample_plan
               false true (lit "%%") (lit "absolute") test_serato_world) with
  | Returns b => b
  | _ => false
  end = true.
Proof.
  apply (@execute_sync_returns_true ascii_unicode posix_canonical library_system
           sample_plan false true (lit "%%") (lit "absolute") test_serato_world _
           (snd (@execute_sync ascii_unicode posix_canonical library_system sample_plan
                   false true (lit "%%") (lit "absolute") test_serato_world))).
  vm_compute. reflexivity.
Defined.

(** The sample plan written twice into the sample database. *)
Lemma sqlite_rerun_creates_nothing_witness :
  fst (@write_crates_to_sqlite calm_system sample_plan (lit "%%") sample_store) = (2, 2)
  /\ fst (@write_crates_to_sqlite calm_system sample_plan (lit "%%")
            (snd (@write_crates_to_sqlite calm_system sample_plan (lit "%%") sample_store)))
     = (0, 4).
Proof.
  destruct (@sqlite_rerun_creates_nothing calm_system sample_plan (lit "%%") sample_store
              sample_database (2, 2)
              (snd (@sqlite_session calm_system sample_plan (lit "%%")
                      {| db := sample_database; calls := 0 |})))
    as (A & _ & C & _).
  - reflexivity.
  - vm_compute. reflexivity.
  - intros n _. reflexivity.
  - split; [exact A|exact C].
Defined.


(** * Further properties of the code *)

(** * More on the sanitiser *)

Lemma encodable_app s t : encodable (s ++ t) <-> encodable s /\ encodable t.
Proof. apply Forall_app. Qed.

Lemma utf8_encode_raises s e : utf8_encode s = Raises e -> e = UnicodeEncodeError.
Proof.
  induction s as [|c s IH]; simpl; [done|].
  unfold utf8_encode_char.
  repeat case_match; simpl; try (intros; by simplify_eq);
    destruct (utf8_encode s); simpl; intros; simplify_eq; by auto.
Qed.

Lemma utf8_encode_never_loops s : utf8_encode s <> Loops.
Proof.
  induction s as [|c s IH]; simpl; [done|].
  unfold utf8_encode_char.
  repeat case_match; simpl; try done; destruct (utf8_encode s); simpl; done.
Qed.

Lemma no_reserved_app s t :
  Forall (fun c => is_reserved c = false) (s ++ t)
  <-> Forall (fun c => is_reserved c = false) s /\ Forall (fun c => is_reserved c = false) t.
Proof. apply Forall_app. Qed.

Lemma replaced_no_reserved s :
  Forall (fun c => is_reserved c = false)
    (fold_left (fun f ch => str_replace_char ch hyphen f) reserved_chars s).
Proof.
  rewrite replace_reserved_map. apply Forall_forall.
  intros c (a & -> & _)%list_elem_of_fmap.
  destruct (is_reserved a) eqn:Ha; [reflexivity|done].
Qed.

(** The result of the sanitiser, taken apart: the cleaned name [s3], or a
    prefix of it with its trailing white space dropped and an ellipsis,
    stripped. *)
Lemma sanitize_returns_shape `{Unicode} filename y mb :
  sanitize_crate_filename filename mb = Returns y ->
  let s3 := fold_left (fun f ch => str_replace_char ch hyphen f) reserved_chars
    (normalize_NFC (fold_left (fun f ch => str_remove ch f) invisible_chars filename)) in
  encodable s3 /\
  ((utf8_len s3 <= mb /\ y = strip s3)
   \/ (mb < utf8_len s3 /\
       exists P t, s3 = P ++ t /\ utf8_len P <= mb /\ y = strip (rstrip P ++ [ellipsis]))).
Proof.
  unfold sanitize_crate_filename.
  set (s3 := fold_left _ reserved_chars _). simpl.
  intros (enc & Henc & Hy)%obind_returns.
  apply obind_returns in Hy as (s4 & Hs4 & Hy). simplify_eq.
  pose proof (utf8_encode_length _ _ Henc) as Hlen.
  split; [by eapply utf8_encode_encodable|].
  destruct (Z.of_nat (length enc) >? mb) eqn:Hc.
  - right. split; [lia|].
    apply obind_returns in Hs4 as (P & HP & Hs4). simplify_eq.
    apply truncate_loop_returns in HP as (t & Ht & Hle).
    by exists P, t.
  - left. simplify_eq. split; [lia|done].
Qed.

(** X1. Whatever [sanitize_crate_filename] returns encodes to at most
    [max_bytes + 3] bytes of UTF-8: the name is cut to the budget, and the
    ellipsis that marks the cut takes three more. *)
Theorem sanitize_within_three_bytes `{Unicode} (filename y : str) (max_bytes : Z) :
  sanitize_crate_filename filename max_bytes = Returns y ->
  exists encoded,
    utf8_encode y = Returns encoded /\ Z.of_nat (length encoded) <= max_bytes + 3.
Proof.
  intros Hy. destruct (sanitize_returns_shape _ _ _ Hy) as [He Hcases].
  set (s3 := fold_left _ reserved_chars _) in *.
  assert (encodable y /\ utf8_len y <= max_bytes + 3) as [Hey Hly].
  { destruct Hcases as [[Hle ->]|(Hgt & P & t & Hs3 & HP & ->)].
    - destruct (strip_substring s3) as (a & b & Hab).
      rewrite Hab in He. apply encodable_app in He as [_ [He _]%encodable_app].
      split; [done|]. pose proof (utf8_len_strip s3). lia.
    - rewrite Hs3 in He. apply encodable_app in He as [He _].
      destruct (rstrip_prefix P) as (w & Hw & _).
      assert (encodable (rstrip P ++ [ellipsis])) as He'.
      { apply encodable_app. split.
        - rewrite Hw in He. by apply encodable_app in He as [? _].
        - by repeat constructor. }
      split.
      + destruct (strip_substring (rstrip P ++ [ellipsis])) as (a & b & Hab).
        rewrite Hab in He'. by apply encodable_app in He' as [_ [? _]%encodable_app].
      + pose proof (utf8_len_strip (rstrip P ++ [ellipsis])) as Hs.
        rewrite utf8_len_app in Hs. simpl in Hs.
        rewrite Hw, utf8_len_app in HP. pose proof (utf8_len_nonneg w).
        change (utf8_width ellipsis) with 3 in Hs. lia. }
  destruct (utf8_encode_returns y Hey) as [enc Henc].
  exists enc. split; [done|]. rewrite (utf8_encode_length _ _ Henc). lia.
Qed.

Lemma sanitize_within_three_bytes_witness :
  exists encoded,
    utf8_encode (repeat 97 240 ++ [ellipsis]) = Returns encoded
    /\ Z.of_nat (length encoded) <= default_max_bytes + 3.
Proof.
  apply (@sanitize_within_three_bytes ascii_unicode (repeat 97 241)).
  vm_compute. reflexivity.
Defined.

(** X2. A name returned by [sanitize_crate_filename] holds none of the
    nine characters the function replaces (slash, backslash, colon, star,
    question mark, double quote, less-than, greater-than, bar), and neither
    begins nor ends with white space. *)
Theorem sanitize_output_clean `{Unicode} (filename y : str) (max_bytes : Z) :
  sanitize_crate_filename filename max_bytes = Returns y ->
  Forall (fun c => is_reserved c = false) y /\ stripped y.
Proof.
  intros Hy. destruct (sanitize_returns_shape _ _ _ Hy) as [_ Hcases].
  set (s3 := fold_left _ reserved_chars _) in *.
  pose proof (replaced_no_reserved
    (normalize_NFC (fold_left (fun f ch => str_remove ch f) invisible_chars filename)))
    as Hres.
  fold s3 in Hres.
  destruct Hcases as [[_ ->]|(_ & P & t & Hs3 & _ & ->)]; (split; [|apply strip_stripped]).
  - destruct (strip_substring s3) as (a & b & Hab).
    rewrite Hab in Hres. by apply no_reserved_app in Hres as [_ [? _]%no_reserved_app].
  - rewrite Hs3 in Hres. apply no_reserved_app in Hres as [HP _].
    destruct (rstrip_prefix P) as (w & Hw & _).
    rewrite Hw in HP. apply no_reserved_app in HP as [HP _].
    assert (Forall (fun c => is_reserved c = false) (rstrip P ++ [ellipsis])) as He.
    { apply no_reserved_app. split; [done|]. by repeat constructor. }
    destruct (strip_substring (rstrip P ++ [ellipsis])) as (a & b & Hab).
    rewrite Hab in He. by apply no_reserved_app in He as [_ [? _]%no_reserved_app].
Qed.

Lemma sanitize_output_clean_witness :
  Forall (fun c => is_reserved c = false) (lit "a-b-c-") /\ stripped (lit "a-b-c-").
Proof.
  apply (@sanitize_output_clean ascii_unicode (lit "  a/b:c?  ") _ default_max_bytes).
  vm_compute. reflexivity.
Defined.

(** X3. With a negative [max_bytes] the function never returns: the
    truncation loop goes on for ever on the empty string, unless encoding
    the cleaned name raises first. *)
Theorem sanitize_negative_budget_never_returns `{Unicode} (filename : str) (max_bytes : Z) :
  max_bytes < 0 ->
  sanitize_crate_filename filename max_bytes = Loops
  \/ sanitize_crate_filename filename max_bytes = Raises UnicodeEncodeError.
Proof.
  intros Hneg. unfold sanitize_crate_filename.
  set (s3 := fold_left _ reserved_chars _).
  destruct (utf8_encode s3) as [enc|e|] eqn:Henc; simpl.
  - left. assert ((Z.of_nat (length enc) >? max_bytes) = true) as ->
      by (apply Z.gtb_lt; lia).
    rewrite (truncate_loop_negative (length s3) s3 max_bytes); try done.
    by eapply utf8_encode_encodable.
  - right. by rewrite (utf8_encode_raises _ _ Henc).
  - by apply utf8_encode_never_loops in Henc.
Qed.

Lemma sanitize_negative_budget_never_returns_witness :
  @sanitize_crate_filename ascii_unicode (lit "House") (-1) = Loops
  \/ @sanitize_crate_filename ascii_unicode (lit "House") (-1) = Raises UnicodeEncodeError.
Proof. apply (@sanitize_negative_budget_never_returns ascii_unicode). lia. Defined.

Lemma ascii_utf8_len s : Forall (fun c => 0 <= c < 128) s -> utf8_len s = Z.of_nat (length s).
Proof.
  induction 1 as [|c s Hc _ IH]; simpl; [done|].
  rewrite IH. unfold utf8_width.
  destruct (c <? 128) eqn:E; [lia|lia].
Qed.

(** X4. A name of ASCII characters, none of them replaced by the
    function, without white space at either end and no longer than
    [max_bytes], is returned as it is. *)
Theorem sanitize_keeps_clean_names `{UL : UnicodeLaws} (filename : str) (max_bytes : Z) :
  Forall (fun c => 0 <= c < 128 /\ is_reserved c = false) filename ->
  stripped filename ->
  Z.of_nat (length filename) <= max_bytes ->
  sanitize_crate_filename filename max_bytes = Returns filename.
Proof.
  intros Hall Hst Hlen.
  assert (Forall (fun c => 0 <= c < 128) filename) as Hascii.
  { eapply Forall_impl; [exact Hall|]. by intros c [? _]. }
  apply sanitize_settled_within; [|done|by rewrite ascii_utf8_len].
  split; [|by apply nfc_ascii].
  eapply Forall_impl; [exact Hall|]. intros c [Hc Hr].
  repeat split; [|done|].
  - unfold is_invisible, invisible_chars. simpl.
    repeat (apply orb_false_intro; [lia|]). done.
  - unfold is_surrogate. lia.
Qed.

Lemma sanitize_keeps_clean_names_witness :
  @sanitize_crate_filename ascii_unicode (lit "Deep House") default_max_bytes
  = Returns (lit "Deep House").
Proof.
  apply (@sanitize_keeps_clean_names ascii_unicode ascii_unicode_laws).
  - apply Forall_forall. intros c Hc. vm_compute in Hc.
    repeat (apply elem_of_cons in Hc as [->|Hc]; [split; [lia|reflexivity]|]).
    by apply elem_of_nil in Hc.
  - split; vm_compute; reflexivity.
  - vm_compute. discriminate.
Defined.

(** * More on the track path resolver *)

Lemma descend_tail p names :
  descend p names
  = {| path_drv := path_drv p; path_root := path_root p;
       path_tail := path_tail p ++ names |}.
Proof.
  unfold descend. revert p. induction names as [|n names IH]; intros p; simpl.
  - rewrite app_nil_r. by destruct p.
  - rewrite IH. simpl. by rewrite <- app_assoc.
Qed.

Lemma relative_to_descend `{Unicode} `{Platform} p names :
  relative_to (descend p names) p
  = Returns {| path_drv := []; path_root := []; path_tail := names |}.
Proof.
  rewrite descend_tail. destruct p as [drv root tail].
  unfold relative_to, abs_parts, path_parts, has_anchor. simpl.
  destruct (truthy root) eqn:Hroot; simpl.
  - rewrite take_app_length, bool_decide_eq_true_2 by done. simpl.
    by rewrite drop_app_length.
  - destruct (truthy drv) eqn:Hdrv; simpl.
    + rewrite take_app_length, bool_decide_eq_true_2 by done. simpl.
      rewrite drop_app_length. by rewrite ?andb_false_r.
    + destruct tail as [|t tail]; simpl; [done|].
      rewrite take_app_length, bool_decide_eq_true_2 by done. simpl.
      rewrite drop_app_length. by rewrite ?andb_false_r.
Qed.

(** X5. In the mode [relative-to-music-root] a track that lies below the
    music root is stored as the names from the root down to it, joined by
    the platform's separator; the file system is not asked
    ([Path.resolve] is not called, so the result is the same whatever it
    would answer). A track that is the root itself is stored as a dot. *)
Theorem resolve_relative_to_music_root `{Unicode} `{Platform}
  (music_root : Path) (names : list str) :
  resolve_track_path (lit "relative-to-music-root") music_root (descend music_root names)
  = Returns (let s := join (path_sep path_flavour) names in if truthy s then s else [46]).
Proof.
  unfold resolve_track_path.
  unfold str_eqb at 1. rewrite bool_decide_eq_true_2 by done.
  by rewrite relative_to_descend.
Qed.

(** In the mode [relative-to-volume-root] a track whose canonical path
    is [/Volumes/<volume>/<names...>] is stored as [<names...>] joined by
    slashes, without the volume; the volume folder itself is stored as the
    empty string. Any other canonical path is stored as in [absolute] mode. *)
Lemma resolve_relative_to_volume_root `{Unicode} `{Platform}
  (music_root track resolved : Path) :
  os_resolve track = Returns resolved ->
  resolve_track_path (lit "relative-to-volume-root") music_root track
  = Returns (match path_parts resolved with
             | _ :: volumes :: _ :: names =>
                 if str_eqb volumes (lit "Volumes") then join [47] names
                 else lstrip_slash (path_str resolved)
             | _ => lstrip_slash (path_str resolved)
             end).
Proof.
  intros Hres. unfold resolve_track_path.
  assert (str_eqb (lit "relative-to-volume-root") (lit "relative-to-music-root") = false)
    as -> by (vm_compute; reflexivity).
  assert (str_eqb (lit "relative-to-volume-root") (lit "relative-to-volume-root") = true)
    as -> by (vm_compute; reflexivity).
  rewrite Hres. simpl.
  destruct (path_parts resolved) as [|a [|b [|c names]]]; simpl; try done.
  - by destruct (str_eqb b (lit "Volumes")).
Qed.

Example resolve_volume_root_usb :
  @resolve_track_path ascii_unicode posix_canonical (lit "relative-to-volume-root")
    test_music_root
    {| path_drv := []; path_root := [47];
       path_tail := [lit "Volumes"; lit "USB"; lit "House"; lit "a.mp3"] |}
  = Returns (lit "House/a.mp3").
Proof.
  exact (@resolve_relative_to_volume_root ascii_unicode posix_canonical test_music_root
           {| path_drv := []; path_root := [47];
              path_tail := [lit "Volumes"; lit "USB"; lit "House"; lit "a.mp3"] |}
           {| path_drv := []; path_root := [47];
              path_tail := [lit "Volumes"; lit "USB"; lit "House"; lit "a.mp3"] |}
           eq_refl).
Qed.

(** * More on the binary crate format *)

Lemma be16_inj u v : 0 <= u < 65536 -> 0 <= v < 65536 -> be16 u = be16 v -> u = v.
Proof.
  unfold be16. intros Hu Hv Heq. injection Heq as Hq Hr.
  rewrite (Z.div_mod u 256), (Z.div_mod v 256) by lia. congruence.
Qed.

Lemma be32_inj n m : 0 <= n < 2 ^ 32 -> 0 <= m < 2 ^ 32 -> be32 n = be32 m -> n = m.
Proof.
  unfold be32. intros Hn Hm Heq. injection Heq as H3 H2 H1 H0.
  assert (forall x k, 0 <= x -> 0 < k -> x / k = 256 * (x / (k * 256)) + (x / k) mod 256)
    as Hstep.
  { intros x k Hx Hk. rewrite <- Z.div_div by lia. apply Z.div_mod. lia. }
  assert (forall x, 0 <= x < 2 ^ 32 -> (x / 2 ^ 24) mod 256 = x / 2 ^ 24) as Htop.
  { intros x Hx. apply Z.mod_small. split; [apply Z.div_pos; lia|].
    apply Z.div_lt_upper_bound; lia. }
  rewrite !Htop in H3 by done.
  assert (n / 2 ^ 16 = m / 2 ^ 16) as E16.
  { rewrite (Hstep n (2 ^ 16)), (Hstep m (2 ^ 16)) by lia.
    change (2 ^ 16 * 256) with (2 ^ 24). rewrite H3, H2. reflexivity. }
  assert (n / 2 ^ 8 = m / 2 ^ 8) as E8.
  { rewrite (Hstep n (2 ^ 8)), (Hstep m (2 ^ 8)) by lia.
    change (2 ^ 8 * 256) with (2 ^ 16). rewrite E16, H1. reflexivity. }
  rewrite (Z.div_mod n 256), (Z.div_mod m 256) by lia.
  change (n / 256) with (n / 2 ^ 8). change (m / 256) with (m / 2 ^ 8).
  rewrite E8, H0. reflexivity.
Qed.

(** The units of one character: a single unit outside the surrogate range,
    or a high surrogate followed by a low one. *)
Lemma utf16be_cons c s :
  utf16be (c :: s)
  = (if c <? 0x10000 then be16 c
     else be16 (0xD800 + (c - 0x10000) / 1024) ++ be16 (0xDC00 + (c - 0x10000) mod 1024))
    ++ utf16be s.
Proof. reflexivity. Qed.

Lemma be16_length u : length (be16 u) = 2%nat.
Proof. reflexivity. Qed.

Lemma be16_app_inj u v s t :
  0 <= u < 65536 -> 0 <= v < 65536 -> be16 u ++ s = be16 v ++ t -> u = v /\ s = t.
Proof.
  intros Hu Hv Heq.
  apply app_inj_1 in Heq as [Heq ->]; [|by rewrite !be16_length].
  split; [by apply be16_inj|done].
Qed.

Lemma utf16be_inj s t :
  encodable s -> encodable t -> valid_text s -> valid_text t ->
  utf16be s = utf16be t -> s = t.
Proof.
  intros Hes. revert t.
  induction Hes as [|c s Hc Hes IH]; intros t Het Hvs Hvt Heq.
  - destruct t as [|d t]; [done|]. rewrite utf16be_cons in Heq.
    apply (f_equal length) in Heq. rewrite length_app in Heq.
    destruct (d <? 0x10000); simpl in Heq; lia.
  - destruct t as [|d t].
    { rewrite utf16be_cons in Heq.
      apply (f_equal length) in Heq. rewrite length_app in Heq.
      destruct (c <? 0x10000); simpl in Heq; lia. }
    apply Forall_cons in Het as [Hd Het].
    apply Forall_cons in Hvs as [Hvc Hvs].
    apply Forall_cons in Hvt as [Hvd Hvt].
    rewrite !utf16be_cons in Heq.
    unfold is_surrogate in Hc, Hd.
    assert (0 <= (c - 0x10000) mod 1024 < 1024) by (apply Z.mod_pos_bound; lia).
    assert (0 <= (d - 0x10000) mod 1024 < 1024) by (apply Z.mod_pos_bound; lia).
    destruct (c <? 0x10000) eqn:Ec, (d <? 0x10000) eqn:Ed.
    + apply be16_app_inj in Heq as [-> Heq]; [|lia..]. f_equal. by apply IH.
    + assert (0 <= (d - 0x10000) / 1024 < 1024).
      { split; [apply Z.div_pos; lia|apply Z.div_lt_upper_bound; lia]. }
      rewrite <- app_assoc in Heq.
      apply be16_app_inj in Heq as [Hcd _]; lia.
    + assert (0 <= (c - 0x10000) / 1024 < 1024).
      { split; [apply Z.div_pos; lia|apply Z.div_lt_upper_bound; lia]. }
      rewrite <- app_assoc in Heq.
      apply be16_app_inj in Heq as [Hcd _]; lia.
    + assert (0 <= (c - 0x10000) / 1024 < 1024).
      { split; [apply Z.div_pos; lia|apply Z.div_lt_upper_bound; lia]. }
      assert (0 <= (d - 0x10000) / 1024 < 1024).
      { split; [apply Z.div_pos; lia|apply Z.div_lt_upper_bound; lia]. }
      rewrite <- !app_assoc in Heq.
      apply be16_app_inj in Heq as [Hhi Heq]; [|lia..].
      apply be16_app_inj in Heq as [Hlo Heq]; [|lia..].
      assert (c = d) as ->.
      { pose proof (Z.div_mod (c - 0x10000) 1024). pose proof (Z.div_mod (d - 0x10000) 1024).
        lia. }
      f_equal. by apply IH.
Qed.

Lemma be32_length n : length (be32 n) = 4%nat.
Proof. reflexivity. Qed.

(** A chunk can be read back from the front of a byte string: the length
    field says where it ends. *)
Lemma chunk_app_inj tag d1 d2 r1 r2 :
  Z.of_nat (length d1) < 2 ^ 32 -> Z.of_nat (length d2) < 2 ^ 32 ->
  chunk tag d1 ++ r1 = chunk tag d2 ++ r2 -> d1 = d2 /\ r1 = r2.
Proof.
  intros H1 H2 Heq. unfold chunk in Heq. rewrite <- !app_assoc in Heq.
  apply app_inv_head in Heq.
  apply app_inj_1 in Heq as [Hlen Heq]; [|by rewrite !be32_length].
  apply be32_inj in Hlen; [|lia..].
  apply Nat2Z.inj in Hlen.
  apply app_inj_1 in Heq as [? ?]; [done|exact Hlen].
Qed.

Lemma track_entries_inj paths1 paths2 :
  Forall storable paths1 -> Forall storable paths2 ->
  Forall valid_text paths1 -> Forall valid_text paths2 ->
  concat (map (fun p => chunk (lit "otrk") (chunk (lit "ptrk") (utf16be p))) paths1)
  = concat (map (fun p => chunk (lit "otrk") (chunk (lit "ptrk") (utf16be p))) paths2) ->
  paths1 = paths2.
Proof.
  assert (forall p qs, [] <> chunk (lit "otrk") (chunk (lit "ptrk") (utf16be p)) ++ qs)
    as Hne.
  { intros p qs Heq. apply (f_equal length) in Heq.
    rewrite length_app, chunk_length in Heq. simpl in Heq. lia. }
  intros Hs1. revert paths2.
  induction Hs1 as [|p ps [Hep Hlp] Hs1 IH]; intros paths2 Hs2 Hv1 Hv2 Heq.
  - destruct paths2 as [|q qs]; [done|]. cbn [map concat] in Heq. by apply Hne in Heq.
  - destruct paths2 as [|q qs].
    { cbn [map concat] in Heq. symmetry in Heq. by apply Hne in Heq. }
    apply Forall_cons in Hs2 as [[Heq_ Hlq] Hs2].
    apply Forall_cons in Hv1 as [Hvp Hv1].
    apply Forall_cons in Hv2 as [Hvq Hv2].
    cbn [map concat] in Heq.
    apply chunk_app_inj in Heq as [Hin Heq].
    2,3: rewrite chunk_length; change (length (lit "ptrk")) with 4%nat; lia.
    assert (chunk (lit "ptrk") (utf16be p) ++ [] = chunk (lit "ptrk") (utf16be q) ++ [])
      as Hin' by (by rewrite !app_nil_r).
    apply chunk_app_inj in Hin' as [Hpq _]; [|lia..].
    apply utf16be_inj in Hpq; [|done..]. subst q.
    f_equal. by apply IH.
Qed.

(** X6. The bytes of a crate file determine its track paths: two crates
    that the binary writer encodes to the same bytes hold the same list of
    resolved track paths, in the same order. *)
Theorem crate_file_determines_tracks
  (crate1 crate2 : CratePlan) (resolve1 resolve2 : Path -> outcome str)
  (paths1 paths2 : list str) (chunks1 chunks2 : list bytes) :
  omap resolve1 (tracks crate1) = Returns paths1 ->
  omap resolve2 (tracks crate2) = Returns paths2 ->
  Forall storable paths1 -> Forall storable paths2 ->
  Forall valid_text paths1 -> Forall valid_text paths2 ->
  crate_chunks crate1 resolve1 = Returns chunks1 ->
  crate_chunks crate2 resolve2 = Returns chunks2 ->
  concat chunks1 = concat chunks2 ->
  paths1 = paths2.
Proof.
  intros Hr1 Hr2 Hs1 Hs2 Hv1 Hv2 Hc1 Hc2 Heq.
  rewrite (crate_chunks_spec _ _ _ Hr1 Hs1) in Hc1.
  rewrite (crate_chunks_spec _ _ _ Hr2 Hs2) in Hc2.
  simplify_eq. cbn [concat] in Heq. try apply app_inv_head in Heq.
  by apply track_entries_inj.
Qed.

Lemma crate_file_determines_tracks_witness :
  [lit "/tmp/MusicRoot/HipHop/track4.mp3"; lit "/tmp/MusicRoot/HipHop/track5.m4a"]
  = [lit "/tmp/MusicRoot/HipHop/track4.mp3"; lit "/tmp/MusicRoot/HipHop/track5.m4a"].
Proof.
  apply (crate_file_determines_tracks test_crate other_crate
           (fun p => Returns (@path_str posix_canonical p))
           (fun p => Returns (@path_str posix_canonical p)) _ _
           [chunk (lit "vrsn") (utf16be version_string);
            chunk (lit "otrk") (chunk (lit "ptrk")
              (utf16be (lit "/tmp/MusicRoot/HipHop/track4.mp3")));
            chunk (lit "otrk") (chunk (lit "ptrk")
              (utf16be (lit "/tmp/MusicRoot/HipHop/track5.m4a")))]
           [chunk (lit "vrsn") (utf16be version_string);
            chunk (lit "otrk") (chunk (lit "ptrk")
              (utf16be (lit "/tmp/MusicRoot/HipHop/track4.mp3")));
            chunk (lit "otrk") (chunk (lit "ptrk")
              (utf16be (lit "/tmp/MusicRoot/HipHop/track5.m4a")))]).
  - vm_compute. reflexivity.
  - vm_compute. reflexivity.
  - repeat constructor; vm_compute; repeat constructor.
  - repeat constructor; vm_compute; repeat constructor.
  - repeat constructor; vm_compute; intros; discriminate.
  - repeat constructor; vm_compute; intros; discriminate.
  - vm_compute. reflexivity.
  - vm_compute. reflexivity.
  - reflexivity.
Defined.

(** ** Paths that cannot be encoded *)

Lemma utf16be_encode_encodable s enc : utf16be_encode s = Returns enc -> encodable s.
Proof.
  revert enc. induction s as [|c s IH]; intros enc; simpl; [by constructor|].
  unfold utf16be_encode_char.
  destruct (is_surrogate c) eqn:Hc; simpl; [done|].
  destruct (utf16be_encode s) as [bs| |]; simpl.
  - intros _. constructor; [done|by eapply IH].
  - by destruct (c <? 65536).
  - by destruct (c <? 65536).
Qed.

Lemma utf16be_encode_outcome s :
  (exists enc, utf16be_encode s = Returns enc)
  \/ utf16be_encode s = Raises UnicodeEncodeError.
Proof.
  induction s as [|c s IH]; simpl; [by left; eexists|].
  unfold utf16be_encode_char.
  destruct (is_surrogate c); simpl; [by right|].
  destruct IH as [[bs ->]| ->]; destruct (c <? 65536); simpl; eauto.
Qed.

Lemma make_tag_outcome (tag : string) data :
  Forall (fun c => c < 0x80) (lit tag) ->
  (exists b, make_tag (lit tag) data = Returns b)
  \/ make_tag (lit tag) data = Raises StructError.
Proof.
  intros Ht. unfold make_tag.
  assert (ascii_encode (lit tag) = Returns (lit tag)) as ->.
  { induction Ht as [|c t Hc _ IH]; [done|]. simpl.
    destruct (c <? 128) eqn:E; [|lia]. by rewrite IH. }
  simpl. unfold struct_pack_I_be.
  destruct ((0 <=? Z.of_nat (length data)) && (Z.of_nat (length data) <? 2 ^ 32));
    simpl; eauto.
Qed.

Lemma track_chunks_unencodable resolve_path tracks paths chunks :
  omap resolve_path tracks = Returns paths ->
  Exists (fun p => ~ encodable p) paths ->
  track_chunks resolve_path tracks chunks = Raises UnicodeEncodeError
  \/ track_chunks resolve_path tracks chunks = Raises StructError.
Proof.
  revert paths chunks. induction tracks as [|t tracks IH]; intros paths chunks Hr Hex.
  - simpl in Hr. simplify_eq. by apply Exists_nil in Hex.
  - apply omap_cons in Hr as (p & paths' & Hp & Hr & ->).
    cbn [track_chunks]. rewrite Hp. cbn [obind]. unfold encode_string.
    destruct (utf16be_encode_outcome p) as [[enc Henc]| ->]; [|by left].
    rewrite Henc. cbn [obind].
    destruct (make_tag_outcome "ptrk" enc) as [[b1 ->]| ->];
      [repeat constructor; lia| |by right].
    cbn [obind].
    destruct (make_tag_outcome "otrk" b1) as [[b2 ->]| ->];
      [repeat constructor; lia| |by right].
    cbn [obind]. apply (IH paths'); [done|].
    apply Exists_cons in Hex as [Hbad|Hex]; [|done].
    destruct Hbad. by eapply utf16be_encode_encodable.
Qed.

(** X7. A crate with a track path that cannot be encoded (it holds a lone
    surrogate) is not written at all by the binary writer: the call raises
    before the file is opened and leaves the folder exactly as it was, so a
    crate file of that name keeps its content. *)
Theorem write_crate_binary_unencodable `{System}
  (crate_file : str) (crate_plan : CratePlan) (resolve_path : Path -> outcome str)
  (paths : list str) (w : World) :
  omap resolve_path (tracks crate_plan) = Returns paths ->
  Exists (fun p => ~ encodable p) paths ->
  exists e,
    (e = UnicodeEncodeError \/ e = StructError)
    /\ write_crate_binary crate_file crate_plan resolve_path w = (Raises e, w).
Proof.
  intros Hr Hex. unfold write_crate_binary, crate_chunks, st_bind, st_lift.
  assert (exists v, (version_data <- encode_string version_string ;;
                     make_tag (lit "vrsn") version_data)%out = Returns v) as [v Hv].
  { eexists. vm_compute. reflexivity. }
  destruct (encode_string version_string) as [vd| |] eqn:Hvd; try done.
  cbn [obind] in *. rewrite Hv. cbn [obind].
  destruct (track_chunks_unencodable resolve_path _ _ ([] ++ [v]) Hr Hex) as [-> | ->];
    eauto.
Qed.

Lemma write_crate_binary_unencodable_witness :
  exists e,
    (e = UnicodeEncodeError \/ e = StructError)
    /\ @write_crate_binary calm_system (lit "Broken.crate") broken_crate
         (fun p => Returns (@path_str posix_canonical p)) test_serato_world
       = (Raises e, test_serato_world).
Proof.
  apply (@write_crate_binary_unencodable calm_system (lit "Broken.crate") broken_crate
           (fun p => Returns (@path_str posix_canonical p))
           (map (@path_str posix_canonical) (tracks broken_crate))).
  - vm_compute. reflexivity.
  - apply Exists_cons_tl, Exists_cons_hd. intros Henc.
    apply Forall_forall with (x := 0xDCE9) in Henc; [by vm_compute in Henc|].
    vm_compute. set_solver.
Defined.

(** * More on the folder scanner *)

(** ** The order of paths *)

Lemma str_ltb_irrefl a : str_ltb a a = false.
Proof.
  induction a as [|x a IH]; simpl; [done|].
  rewrite IH, andb_false_r, orb_false_r. lia.
Qed.

Lemma str_ltb_asym a b : str_ltb a b = true -> str_ltb b a = false.
Proof.
  revert b. induction a as [|x a IH]; intros [|y b]; simpl; try done.
  intros [H|[H1 H2]%andb_prop]%orb_prop.
  - apply orb_false_intro; [lia|]. apply andb_false_intro1. lia.
  - apply orb_false_intro; [lia|]. apply andb_false_intro2. by apply IH.
Qed.

Lemma str_ltb_negtrans a b c :
  str_ltb a c = true -> str_ltb a b = true \/ str_ltb b c = true.
Proof.
  revert b c. induction a as [|x a IH]; intros [|y b] [|z c]; simpl; try done; auto.
  intros [H|[H1 H2]%andb_prop]%orb_prop.
  - destruct (Z.lt_total x y) as [?|[->|?]].
    + left. apply orb_true_intro. left. lia.
    + right. apply orb_true_intro. left. lia.
    + right. apply orb_true_intro. left. lia.
  - assert (x = z) as -> by lia.
    destruct (Z.lt_total z y) as [?|[->|?]].
    + left. apply orb_true_intro. left. lia.
    + destruct (IH b c H2) as [E|E]; [left|right]; rewrite E, Z.eqb_refl;
        by rewrite orb_true_r.
    + right. apply orb_true_intro. left. lia.
Qed.

Lemma str_ltb_total a b : a = b \/ str_ltb a b = true \/ str_ltb b a = true.
Proof.
  revert b. induction a as [|x a IH]; intros [|y b]; simpl; auto.
  destruct (Z.lt_total x y) as [?|[->|?]].
  - right; left. apply orb_true_intro. left. lia.
  - rewrite Z.eqb_refl. simpl.
    destruct (IH b) as [->|[E|E]]; rewrite ?E, ?orb_true_r; auto.
  - right; right. apply orb_true_intro. left. lia.
Qed.

Lemma str_eqb_eq a b : str_eqb a b = true <-> a = b.
Proof. unfold str_eqb. apply bool_decide_eq_true. Qed.

Lemma str_eqb_refl a : str_eqb a a = true.
Proof. by apply str_eqb_eq. Qed.

Lemma parts_ltb_asym a b : parts_ltb a b = true -> parts_ltb b a = false.
Proof.
  revert b. induction a as [|x a IH]; intros [|y b]; simpl; try done.
  intros [H|[H1%str_eqb_eq H2]%andb_prop]%orb_prop.
  - apply orb_false_intro; [by apply str_ltb_asym|].
    apply andb_false_intro1. apply not_true_is_false. intros ->%str_eqb_eq.
    by rewrite str_ltb_irrefl in H.
  - subst y. rewrite str_ltb_irrefl. simpl.
    apply andb_false_intro2. by apply IH.
Qed.

Lemma parts_ltb_negtrans a b c :
  parts_ltb a c = true -> parts_ltb a b = true \/ parts_ltb b c = true.
Proof.
  revert b c. induction a as [|x a IH]; intros [|y b] [|z c]; simpl; try done; auto.
  intros [H|[H1%str_eqb_eq H2]%andb_prop]%orb_prop.
  - destruct (str_ltb_negtrans x y z H) as [E|E]; rewrite E; auto.
  - subst z. destruct (str_ltb_total x y) as [->|[E|E]].
    + rewrite str_ltb_irrefl, str_eqb_refl. simpl.
      destruct (IH b c H2) as [E|E]; rewrite E; auto.
    + rewrite E. auto.
    + rewrite E. auto.
Qed.

Section Order.
Context `{U : Unicode} `{P : Platform}.

Lemma path_ltb_asym a b : path_ltb a b = true -> path_ltb b a = false.
Proof. apply parts_ltb_asym. Qed.

Lemma path_ltb_negtrans a b c :
  path_ltb a c = true -> path_ltb a b = true \/ path_ltb b c = true.
Proof. apply parts_ltb_negtrans. Qed.

End Order.

(** ** [sorted] sorts *)

Section Sorting.
Context {A : Type} (ltb : A -> A -> bool).
Hypothesis ltb_asym : forall x y, ltb x y = true -> ltb y x = false.
Hypothesis ltb_negtrans :
  forall x y z, ltb x z = true -> ltb x y = true \/ ltb y z = true.

Let le (x y : A) : Prop := ltb y x = false.

Lemma le_trans x y z : le x y -> le y z -> le x z.
Proof.
  unfold le. intros Hxy Hyz. apply not_true_is_false. intros H.
  destruct (ltb_negtrans z y x H); congruence.
Qed.

Lemma insert_sorted_perm x l : insert_sorted ltb x l ≡ₚ x :: l.
Proof.
  induction l as [|y l IH]; simpl; [done|].
  destruct (ltb x y); [done|]. rewrite IH. apply Permutation_swap.
Qed.

Lemma insert_sorted_sorted x l :
  StronglySorted le l -> StronglySorted le (insert_sorted ltb x l).
Proof.
  induction 1 as [|y l Hs IH Hy]; simpl.
  - repeat constructor.
  - destruct (ltb x y) eqn:E.
    + constructor; [by constructor|]. constructor; [by apply ltb_asym|].
      eapply Forall_impl; [exact Hy|]. intros z Hz.
      eapply le_trans; [|exact Hz]. by apply ltb_asym.
    + constructor; [done|].
      rewrite insert_sorted_perm. by constructor.
Qed.

Lemma fold_insert_perm l acc :
  fold_left (fun acc x => insert_sorted ltb x acc) l acc ≡ₚ acc ++ l.
Proof.
  revert acc. induction l as [|x l IH]; intros acc; simpl.
  - by rewrite app_nil_r.
  - rewrite IH, insert_sorted_perm. by rewrite <- Permutation_middle.
Qed.

Lemma sorted_perm l : sorted ltb l ≡ₚ l.
Proof. unfold sorted. by rewrite fold_insert_perm. Qed.

Lemma sorted_sorted l : StronglySorted le (sorted ltb l).
Proof.
  unfold sorted.
  assert (forall acc, StronglySorted le acc ->
            StronglySorted le (fold_left (fun acc x => insert_sorted ltb x acc) l acc)) as H.
  { induction l as [|x l IH]; intros acc Hacc; simpl; [done|].
    apply IH. by apply insert_sorted_sorted. }
  apply H. constructor.
Qed.

End Sorting.

(** ** What the scan of one folder returns *)

Lemma filter_perm {A} (f : A -> bool) l l' : l ≡ₚ l' -> List.filter f l ≡ₚ List.filter f l'.
Proof.
  induction 1 as [|x l l' _ IH|x y l|l1 l2 l3 _ IH1 _ IH2]; simpl.
  - done.
  - destruct (f x); [by constructor|done].
  - destruct (f x), (f y); try done. apply Permutation_swap.
  - by etrans.
Qed.

Lemma filter_sorted {A} (R : A -> A -> Prop) (f : A -> bool) l :
  StronglySorted R l -> StronglySorted R (List.filter f l).
Proof.
  induction 1 as [|x l Hs IH Hx]; simpl; [constructor|].
  destruct (f x); [|done]. constructor; [done|].
  apply Forall_forall. intros y [Hy _]%list_elem_of_In%filter_In.
  rewrite Forall_forall in Hx. by apply Hx, list_elem_of_In.
Qed.

Lemma map_sorted {A B} (R : B -> B -> Prop) (g : A -> B) l :
  StronglySorted (fun a b => R (g a) (g b)) l -> StronglySorted R (map g l).
Proof.
  induction 1 as [|x l Hs IH Hx]; simpl; constructor; [done|].
  apply Forall_forall. intros y (a & -> & Ha)%list_elem_of_fmap.
  rewrite Forall_forall in Hx. by apply Hx.
Qed.

Lemma strongly_sorted_impl {A} (R R' : A -> A -> Prop) l :
  (forall a b, R a b -> R' a b) -> StronglySorted R l -> StronglySorted R' l.
Proof.
  intros HR. induction 1 as [|x l Hs IH Hx]; constructor; [done|].
  eapply Forall_impl; [exact Hx|]. intros y. apply HR.
Qed.

Section Scan.
Context `{U : Unicode} `{P : Platform}.

(** An entry that the scan takes as a track. *)
Let audio_item (extensions : gset str) (it : Path * FsNode) : bool :=
  match snd it with
  | FsFile _ => bool_decide (lower (path_suffix (fst it)) ∈ extensions)
  | _ => false
  end.

Lemma scan_items_filter items extensions acc :
  Forall (fun it => forall n, snd it <> FsDenied n) items ->
  scan_items items extensions acc
  = Returns (acc ++ map fst (List.filter (audio_item extensions) items)).
Proof.
  intros Hok. revert acc.
  induction Hok as [|[item n] items Hn _ IH]; intros acc; simpl.
  - by rewrite app_nil_r.
  - unfold is_audio_file, audio_item at 1. simpl.
    destruct n as [nm|nm l es|nm|nm]; simpl; rewrite ?IH; try done.
    + destruct (bool_decide _); simpl; [|done].
      by rewrite <- app_assoc.
    + by destruct (Hn nm).
Qed.

Lemma audio_entries_items folder entries extensions :
  audio_entries folder entries extensions
  = map fst (List.filter (audio_item extensions)
               (map (fun e => (path_child folder (fs_name e), e)) entries)).
Proof.
  unfold audio_entries. induction entries as [|e entries IH]; simpl; [done|].
  unfold audio_item at 1. simpl.
  destruct e as [nm|nm l es|nm|nm]; simpl; rewrite ?IH; try done.
  destruct (bool_decide _); simpl; by rewrite IH.
Qed.

(** X8. The scan of a folder that can be listed, none of whose entries
    refuses [stat], returns the folder's audio files, the files whose
    suffix in lower case is one of the extensions: all of them, each once,
    in ascending order of their paths. *)
Theorem scan_folder_sorted_audio_files
  (folder : Path) (name : str) (entries : list FsNode) (extensions : gset str) :
  Forall (fun e => forall n, e <> FsDenied n) entries ->
  exists ts,
    scan_folder_for_tracks folder (FsDir name true entries) extensions = Returns ts
    /\ ts ≡ₚ audio_entries folder entries extensions
    /\ StronglySorted (fun a b => path_leb a b = true) ts.
Proof.
  intros Hok. unfold scan_folder_for_tracks. cbn [iterdir_sorted].
  set (items := map (fun e => (path_child folder (fs_name e), e)) entries).
  set (ltb := fun a b : Path * FsNode => path_ltb (fst a) (fst b)).
  assert (forall x y, ltb x y = true -> ltb y x = false) as Hasym.
  { intros x y. apply path_ltb_asym. }
  assert (forall x y z, ltb x z = true -> ltb x y = true \/ ltb y z = true) as Hneg.
  { intros x y z. apply path_ltb_negtrans. }
  rewrite scan_items_filter.
  2:{ apply Forall_forall. intros it Hit n Hn.
      apply list_elem_of_In, (Permutation_in _ (sorted_perm ltb items)) in Hit.
      apply in_map_iff in Hit as (e & <- & He). simpl in Hn. subst e.
      rewrite Forall_forall in Hok. apply list_elem_of_In in He.
      by apply (Hok (FsDenied n) He n). }
  eexists. split; [reflexivity|]. simpl. split.
  - rewrite audio_entries_items. apply Permutation_map, filter_perm, sorted_perm.
  - apply map_sorted, filter_sorted.
    eapply strongly_sorted_impl; [|apply (sorted_sorted ltb Hasym Hneg)].
    intros a b Hab. unfold path_leb. unfold ltb in Hab. by rewrite Hab.
Qed.

(** ** What can escape from [build_crate_tree] *)

(** X9. Called on a folder, [build_crate_tree] always returns, provided
    the folders are nested less deep than the interpreter allows calls:
    entries and subfolders that refuse access end a loop, they never end
    the scan. Called on a file or on anything else that is no folder it
    returns nothing; only when the root itself refuses [stat] does the
    [PermissionError] come out. *)
Theorem build_crate_tree_never_raises (depth : nat) (folder : Path) (node : FsNode)
  (extensions : gset str) (parent_name : option str) (include_empty : bool) :
  (fs_height node <= depth)%nat ->
  match node with
  | FsDir _ _ _ =>
      exists r, build_crate_tree depth folder node extensions parent_name include_empty
                = Returns r
  | FsDenied _ =>
      build_crate_tree depth folder node extensions parent_name include_empty
      = Raises PermissionError
  | _ =>
      build_crate_tree depth folder node extensions parent_name include_empty
      = Returns None
  end.
Proof.
  intros Hh. destruct node as [nm|nm l es|nm|nm].
  - destruct depth; [simpl in Hh; lia|done].
  - by apply build_crate_tree_returns.
  - destruct depth; [simpl in Hh; lia|done].
  - destruct depth; [simpl in Hh; lia|done].
Qed.

(** ** The shape of the tree *)

Lemma path_name_child p x : path_name (path_child p x) = x.
Proof. unfold path_name, path_child. simpl. apply last_last. Qed.

Lemma collect_children_each (Q : CratePlan -> Prop) build items acc cs :
  (forall sub n c, In (sub, n) items -> startswith [46] (path_name sub) = false ->
                   build sub n = Returns (Some c) -> Q c) ->
  Forall Q acc ->
  collect_children build items acc = Returns cs -> Forall Q cs.
Proof.
  revert acc. induction items as [|[sub n] items IH]; intros acc Hb Hacc;
    cbn [collect_children].
  - intros; by simplify_eq.
  - assert (forall acc, Forall Q acc ->
              collect_children build items acc = Returns cs -> Forall Q cs) as IH'.
    { intros acc' Hacc'. apply IH; [|done]. intros ? ? ? ?. apply Hb. by right. }
    destruct (is_dir n) as [[|]|[]|]; try done; try (by apply IH');
      try (intros; by simplify_eq).
    destruct (startswith [46] (path_name sub)) eqn:Hdot; cbn [negb]; [by apply IH'|].
    destruct (build sub n) as [[c|]|[]|] eqn:Hc; try done; try (by apply IH');
      try (intros; by simplify_eq).
    apply IH'. apply Forall_app; split; [done|]. repeat constructor.
    eapply Hb; [by left|done..].
Qed.

Lemma scan_items_in_folder folder items extensions acc ts :
  Forall (fun it => exists x, fst it = path_child folder x) items ->
  Forall (fun t => exists x, t = path_child folder x) acc ->
  scan_items items extensions acc = Returns ts ->
  Forall (fun t => exists x, t = path_child folder x) ts.
Proof.
  intros Hitems. revert acc.
  induction Hitems as [|[item n] items [x Hx] _ IH]; intros acc Hacc; simpl.
  - intros; by simplify_eq.
  - destruct (is_audio_file item n extensions) as [[|]|[]|]; try done;
      try (by apply IH); try (intros; by simplify_eq).
    apply IH. apply Forall_app; split; [done|]. repeat constructor. eauto.
Qed.

Lemma iterdir_sorted_items folder node items :
  iterdir_sorted folder node = Returns items ->
  Forall (fun it => exists x, fst it = path_child folder x) items.
Proof.
  destruct node as [|nm [|] es| |]; simpl; try done. intros; simplify_eq.
  apply Forall_forall. intros it Hit%list_elem_of_In%sorted_In%in_map_iff.
  destruct Hit as (e & <- & _). simpl. eauto.
Qed.

Lemma scan_folder_in_folder folder node extensions ts :
  scan_folder_for_tracks folder node extensions = Returns ts ->
  Forall (fun t => exists x, t = path_child folder x) ts.
Proof.
  unfold scan_folder_for_tracks.
  destruct (iterdir_sorted folder node) as [items|[]|] eqn:Hit; try done;
    try (intros; simplify_eq; constructor).
  apply scan_items_in_folder; [by eapply iterdir_sorted_items|constructor].
Qed.

(** What a call returns: a crate of the folder it was called on, under the
    parent name it was given, whose children were built from the visible
    entries of that folder. *)
Lemma build_crate_tree_root depth folder node extensions parent include_empty c :
  build_crate_tree depth folder node extensions parent include_empty
    = Returns (Some c) ->
  path c = folder /\ name c = path_name folder /\ parent_name c = parent.
Proof.
  destruct depth as [|depth]; [done|]. rewrite build_crate_tree_unfold.
  destruct (is_dir node) as [[|]| |]; try done.
  destruct (scan_folder_for_tracks _ _ _) as [ts| |]; try done. cbn [obind].
  destruct (subfolder_crates _ _ _ _ _ _) as [cs| |]; try done. cbn [obind].
  destruct (_ || _); [|done]. intros; by simplify_eq.
Qed.

Lemma build_crate_tree_shape depth folder node extensions parent include_empty c :
  build_crate_tree depth folder node extensions parent include_empty
    = Returns (Some c) ->
  every_crate (fun d => mirrors_folder d /\ no_hidden_child d) c.
Proof.
  revert folder node parent c.
  induction depth as [|depth IH]; intros folder node parent c; [done|].
  rewrite build_crate_tree_unfold.
  destruct (is_dir node) as [[|]| |]; try done.
  destruct (scan_folder_for_tracks _ _ _) as [ts| |] eqn:Hts; try done. cbn [obind].
  destruct (subfolder_crates _ _ _ _ _ _) as [cs| |] eqn:Hcs; try done. cbn [obind].
  destruct (_ || _); [|done]. intros; simplify_eq.
  unfold subfolder_crates in Hcs.
  set (prefix := match parent with
                 | None => path_name folder
                 | Some pn => pn ++ lit "%%" ++ path_name folder
                 end) in Hcs.
  assert (Forall (fun e => (path e = path_child folder (name e)
                            /\ parent_name e = Some prefix
                            /\ startswith [46] (name e) = false)
                           /\ every_crate (fun d => mirrors_folder d /\ no_hidden_child d) e)
                 cs) as Hall.
  { destruct (iterdir_sorted folder node) as [items|[]|] eqn:Hit; try done;
      try (simplify_eq; constructor).
    pose proof (iterdir_sorted_items _ _ _ Hit) as Hitems.
    eapply collect_children_each in Hcs; [done| |done].
    intros sub n c Hin Hdot Hc.
    rewrite Forall_forall in Hitems.
    destruct (Hitems (sub, n)) as [x Hx]; [by apply list_elem_of_In|]. simpl in Hx.
    destruct (build_crate_tree_root _ _ _ _ _ _ _ Hc) as (Hp & Hn & Hpn).
    split; [|by eapply IH].
    rewrite Hn, Hp, Hx, path_name_child in *. done. }
  apply every_crate_children. simpl. split; [split|].
  - split; [done|]. split; [by eapply scan_folder_in_folder|].
    eapply Forall_impl; [exact Hall|]. simpl. by intros e [(? & ? & ?) _].
  - eapply Forall_impl; [exact Hall|]. simpl. by intros e [(? & ? & ?) _].
  - eapply Forall_impl; [exact Hall|]. simpl. by intros e [_ ?].
Qed.

Lemma every_crate_impl (Q Q' : CratePlan -> Prop) c :
  (forall d, Q d -> Q' d) -> every_crate Q c -> every_crate Q' c.
Proof.
  intros HQ. induction c as [n p pn ts cs IH] using CratePlan_nested_ind.
  rewrite !every_crate_children. simpl. intros [Hc Hcs]. split; [by apply HQ|].
  rewrite Forall_forall in IH. apply Forall_forall. intros x Hx.
  apply IH; [done|]. rewrite Forall_forall in Hcs. by apply Hcs.
Qed.

(** X10. The tree of crates mirrors the tree of folders. The crate that
    [build_crate_tree] returns is the crate of the folder it was called on;
    every crate of the tree has the name of its folder, its tracks are
    entries of that very folder, and each of its children is the crate of a
    direct subfolder, with the chain of its ancestors' names, joined by
    two percent signs, as parent name. *)
Theorem build_crate_tree_mirrors_folders (depth : nat) (folder : Path) (node : FsNode)
  (extensions : gset str) (parent : option str) (include_empty : bool)
  (c : CratePlan) :
  build_crate_tree depth folder node extensions parent include_empty
    = Returns (Some c) ->
  path c = folder /\ parent_name c = parent /\ every_crate mirrors_folder c.
Proof.
  intros Hc. destruct (build_crate_tree_root _ _ _ _ _ _ _ Hc) as (Hp & _ & Hpn).
  repeat split; [done..|].
  eapply every_crate_impl; [|by eapply build_crate_tree_shape]. by intros d [? _].
Qed.

(** X11. Hidden folders are left out at every level: no crate of the tree
    has a child whose name begins with a dot. (The folder the scan starts
    from is taken whatever its name.) *)
Theorem build_crate_tree_skips_hidden (depth : nat) (folder : Path) (node : FsNode)
  (extensions : gset str) (parent_name : option str) (include_empty : bool)
  (c : CratePlan) :
  build_crate_tree depth folder node extensions parent_name include_empty
    = Returns (Some c) ->
  every_crate no_hidden_child c.
Proof.
  intros Hc.
  eapply every_crate_impl; [|by eapply build_crate_tree_shape]. by intros d [_ ?].
Qed.

End Scan.

Lemma scan_folder_sorted_audio_files_witness :
  exists ts,
    @scan_folder_for_tracks ascii_unicode posix_canonical
      (path_child test_music_root (lit "HipHop")) (FsDir (lit "HipHop") true hiphop_entries)
      test_extensions = Returns ts
    /\ ts ≡ₚ @audio_entries ascii_unicode (path_child test_music_root (lit "HipHop"))
               hiphop_entries test_extensions
    /\ StronglySorted (fun a b => @path_leb ascii_unicode posix_canonical a b = true) ts.
Proof.
  apply (@scan_folder_sorted_audio_files ascii_unicode posix_canonical).
  repeat constructor; intros; discriminate.
Defined.

Lemma build_crate_tree_never_raises_witness :
  exists r,
    @build_crate_tree ascii_unicode posix_canonical 4 test_music_root test_music_folder
      test_extensions None false = Returns r.
Proof.
  apply (@build_crate_tree_never_raises ascii_unicode posix_canonical 4 test_music_root
           test_music_folder test_extensions None false).
  vm_compute. lia.
Defined.

Lemma build_crate_tree_mirrors_folders_witness :
  path test_music_crate = test_music_root
  /\ parent_name test_music_crate = None
  /\ every_crate mirrors_folder test_music_crate.
Proof.
  apply (@build_crate_tree_mirrors_folders ascii_unicode posix_canonical 4 test_music_root
           test_music_folder test_extensions None false).
  vm_compute. reflexivity.
Defined.

Lemma build_crate_tree_skips_hidden_witness : every_crate no_hidden_child test_music_crate.
Proof.
  apply (@build_crate_tree_skips_hidden ascii_unicode posix_canonical 4 test_music_root
           test_music_folder test_extensions None false).
  vm_compute. reflexivity.
Defined.

(** ** Counting *)

Lemma plan_crates_unfold c : plan_crates c = 1 + sum_over plan_crates (children c).
Proof.
  destruct c as [n p pn ts cs]. reflexivity.
Qed.

Lemma plan_tracks_unfold c :
  plan_tracks c = Z.of_nat (length (tracks c)) + sum_over plan_tracks (children c).
Proof.
  destruct c as [n p pn ts cs]. reflexivity.
Qed.

Lemma sum_over_cons {A} (f : A -> Z) x l : sum_over f (x :: l) = f x + sum_over f l.
Proof. reflexivity. Qed.

Lemma sum_over_nil {A} (f : A -> Z) : sum_over f [] = 0.
Proof. reflexivity. Qed.

Lemma fold_count_sums cs :
  Forall (fun c => forall a b,
            count_recursive c (a, b) = (a + plan_crates c, b + plan_tracks c)) cs ->
  forall a b,
    fold_left (fun totals c => count_recursive c totals) cs (a, b)
    = (a + sum_over plan_crates cs, b + sum_over plan_tracks cs).
Proof.
  induction 1 as [|c cs Hc _ IH]; intros a b; cbn [fold_left];
    rewrite ?sum_over_cons, ?sum_over_nil.
  - f_equal; lia.
  - rewrite Hc, IH. f_equal; lia.
Qed.

Lemma count_recursive_sums c a b :
  count_recursive c (a, b) = (a + plan_crates c, b + plan_tracks c).
Proof.
  revert a b. induction c as [n p pn ts cs IH] using CratePlan_nested_ind. intros a b.
  rewrite count_recursive_unfold, plan_crates_unfold, plan_tracks_unfold.
  cbn [children tracks fst snd]. rewrite (fold_count_sums cs IH). f_equal; lia.
Qed.

Lemma plan_crates_pos c : 1 <= plan_crates c.
Proof.
  induction c as [n p pn ts cs IH] using CratePlan_nested_ind.
  rewrite plan_crates_unfold. cbn [children].
  assert (0 <= sum_over plan_crates cs); [|lia].
  induction IH as [|x cs Hx _ IH']; rewrite ?sum_over_cons, ?sum_over_nil; lia.
Qed.

(** X12. [count_crates_and_tracks] returns the number of crates in the
    trees, every crate at every level counted once, and the number of
    tracks these crates hold together; so the crates it counts are at
    least as many as the trees. *)
Theorem count_crates_and_tracks_sums (crates : list CratePlan) :
  count_crates_and_tracks crates
  = (sum_over plan_crates crates, sum_over plan_tracks crates)
  /\ Z.of_nat (length crates) <= fst (count_crates_and_tracks crates).
Proof.
  assert (count_crates_and_tracks crates
          = (sum_over plan_crates crates, sum_over plan_tracks crates)) as E.
  { unfold count_crates_and_tracks. rewrite fold_count_sums; [done|].
    apply Forall_forall. intros; apply count_recursive_sums. }
  split; [done|]. rewrite E. cbn [fst].
  clear E. induction crates as [|c cs IH]; rewrite ?sum_over_cons, ?sum_over_nil;
    cbn [length]; [done|].
  pose proof (plan_crates_pos c). lia.
Qed.

(** * More on the Serato folder *)

Section Folder.
Context `{Sy : System}.

(** ** The backup *)

Lemma syscall_cases w :
  syscall w = (Returns tt, ticked w) /\ fails (ticks w) = false
  \/ syscall w = (Raises OSError, ticked w) /\ fails (ticks w) = true.
Proof. unfold syscall, ticked. destruct (fails (ticks w)); auto. Qed.

Lemma copytree_cases files backup_name w :
  (copytree files backup_name w
     = (Returns tt, {| subcrates := subcrates w;
                       siblings := <[backup_name := files]> (siblings w);
                       ticks := S (ticks w); trace := trace w |})
   /\ siblings w !! backup_name = None /\ fails (ticks w) = false)
  \/ (copytree files backup_name w = (Raises FileExistsError, ticked w)
      /\ is_Some (siblings w !! backup_name) /\ fails (ticks w) = false)
  \/ (copytree files backup_name w = (Raises OSError, ticked w)
      /\ fails (ticks w) = true).
Proof.
  unfold copytree, st_bind.
  destruct (syscall_cases w) as [[-> Hf]|[-> Hf]]; [|by right; right].
  unfold get_world. cbn [siblings ticked].
  destruct (siblings w !! backup_name) eqn:E; [right; left|left]; by eauto.
Qed.

(** X13. Whatever [backup_subcrates] does, it changes nothing that is
    there: the [Subcrates] folder is as it was, and every other folder of
    the Serato root, an earlier backup among them, is still there with the
    files it had. *)
Theorem backup_subcrates_keeps_folders (w : World) :
  subcrates (snd (backup_subcrates w)) = subcrates w
  /\ siblings w ⊆ siblings (snd (backup_subcrates w)).
Proof.
  split; [apply backup_subcrates_subcrates|].
  unfold backup_subcrates, st_bind at 1, get_world.
  destruct (subcrates w) as [files|]; [|done].
  unfold st_bind at 1, emit. unfold st_bind at 1.
  match goal with
  | |- context [copytree files ?b ?w1] =>
      destruct (copytree_cases files b w1) as [(-> & Hnone & _)|[(-> & _)|(-> & _)]]
  end; cbn [snd siblings ticked st_ret]; try done.
  by apply insert_subseteq.
Qed.

(** X14. A second backup within the same second fails: when the folder
    [Subcrates.BACKUP.<timestamp>] is already there, [backup_subcrates]
    raises [FileExistsError] and has copied nothing; the earlier backup and
    the [Subcrates] folder are as they were. *)
Theorem backup_subcrates_same_second (w : World) (files : gmap str bytes) :
  subcrates w = Some files ->
  fails (ticks w) = false ->
  is_Some (siblings w !! (lit "Subcrates.BACKUP." ++ timestamp (ticks w))) ->
  exists w',
    backup_subcrates w = (Raises FileExistsError, w')
    /\ siblings w' = siblings w /\ subcrates w' = subcrates w.
Proof.
  intros Hs Hf Hex. unfold backup_subcrates, st_bind at 1, get_world. rewrite Hs.
  unfold st_bind at 1, emit. unfold st_bind at 1.
  match goal with
  | |- context [copytree files ?b ?w1] =>
      destruct (copytree_cases files b w1) as [(_ & Hnone & _)|[(-> & _)|(_ & Hf')]]
  end.
  - destruct Hex as [x Hx]. cbn in Hnone.
    assert (Some x = None) as E by (etrans; [symmetry; exact Hx|exact Hnone]).
    discriminate E.
  - eexists. split; [reflexivity|]. by cbn.
  - cbn in Hf'. congruence.
Qed.

(** ** Cleaning *)

Lemma unlink_cases f w cur :
  subcrates w = Some cur ->
  (unlink f w = (Returns tt, {| subcrates := Some (delete f cur); siblings := siblings w;
                                ticks := S (ticks w); trace := trace w |})
   /\ fails (ticks w) = false)
  \/ (unlink f w = (Raises OSError, ticked w) /\ fails (ticks w) = true).
Proof.
  intros Hs. unfold unlink, st_bind.
  destruct (syscall_cases w) as [[-> Hf]|[-> Hf]]; [left|by right].
  unfold get_world. cbn [subcrates ticked]. rewrite Hs. by cbn.
Qed.

Lemma clean_loop_spec l : forall d w cur,
  subcrates w = Some cur -> NoDup l -> (forall f, f ∈ l -> is_Some (cur !! f)) ->
  exists n w' cur',
    clean_loop l d w = (Returns n, w')
    /\ siblings w' = siblings w
    /\ subcrates w' = Some cur'
    /\ cur' ⊆ cur
    /\ (forall f, f ∉ l -> cur' !! f = cur !! f)
    /\ n = d + Z.of_nat (size cur) - Z.of_nat (size cur')
    /\ ((forall k, (ticks w <= k)%nat -> fails k = false) ->
        forall f, f ∈ l -> cur' !! f = None).
Proof.
  induction l as [|f l IH]; intros d w cur Hs Hnd Hin; cbn [clean_loop].
  - exists d, w, cur. repeat split; try done; [lia|]. intros _ f Hf. by apply elem_of_nil in Hf.
  - apply NoDup_cons in Hnd as [Hf Hnd].
    unfold st_bind at 1, st_try. unfold st_bind at 1.
    destruct (unlink_cases f w cur Hs) as [[-> Hok]|[-> Hfail]].
    + unfold st_bind at 1, emit, st_ret. cbn [fst snd].
      match goal with |- context [clean_loop l ?d' ?w1] =>
        destruct (IH d' w1 (delete f cur)) as (n & w' & cur' & -> & Hsib & Hsub & Hle & Hout & Hn & Hall)
      end; [done|done| |].
      { intros g Hg. rewrite lookup_delete_ne by (intros ->; done).
        apply Hin. by right. }
      exists n, w', cur'. split; [done|]. split; [done|]. split; [done|].
      split; [etrans; [exact Hle|apply delete_subseteq]|].
      split.
      { intros g Hg. apply not_elem_of_cons in Hg as [Hgf Hg].
        rewrite Hout by done. by apply lookup_delete_ne. }
      split.
      { rewrite Hn, map_size_delete_Some by (apply Hin; by left).
        assert (size cur <> 0%nat).
        { destruct (Hin f) as [x Hx]; [by left|].
          apply map_size_ne_0_lookup. eauto. }
        lia. }
      intros Hcalm g [->|Hg]%elem_of_cons.
      * rewrite Hout by done. apply lookup_delete_eq.
      * apply Hall; [|done]. intros k Hk. apply Hcalm. cbn in Hk. lia.
    + unfold st_bind at 1, emit, st_ret. cbn [fst snd].
      match goal with |- context [clean_loop l ?d' ?w1] =>
        destruct (IH d' w1 cur) as (n & w' & cur' & -> & Hsib & Hsub & Hle & Hout & Hn & Hall)
      end; [done|done| |].
      { intros g Hg. apply Hin. by right. }
      exists n, w', cur'. split; [done|]. split; [done|]. split; [done|].
      split; [done|]. split.
      { intros g Hg. apply not_elem_of_cons in Hg as [Hgf Hg]. by apply Hout. }
      split; [done|].
      intros Hcalm. rewrite Hcalm in Hfail by done. discriminate.
Qed.

Lemma glob_crate_spec files f :
  f ∈ glob_crate files <-> endswith (lit ".crate") f = true /\ is_Some (files !! f).
Proof.
  unfold glob_crate. rewrite list_elem_of_In, filter_In, <- list_elem_of_In.
  rewrite list_elem_of_fmap. split.
  - intros [([k v] & -> & Hkv%elem_of_map_to_list) He]. simpl in *. eauto.
  - intros [He [v Hv]]. split; [|done]. exists (f, v). split; [done|].
    by apply elem_of_map_to_list.
Qed.

Lemma glob_crate_NoDup files : NoDup (glob_crate files).
Proof.
  unfold glob_crate. apply NoDup_ListNoDup, List.NoDup_filter, NoDup_ListNoDup.
  apply NoDup_fst_map_to_list.
Qed.


(** ** The crates that exist *)

Lemma path_name_child_eq p x : path_name (path_child p x) = x.
Proof. unfold path_name, path_child. simpl. apply last_last. Qed.

Lemma rfind_from_None ch s i : rfind_from ch s i = None <-> ch ∉ s.
Proof.
  revert i. induction s as [|c s IH]; intros i; simpl.
  - split; [intros _; apply not_elem_of_nil|done].
  - destruct (rfind_from ch s (S i)) as [j|] eqn:E.
    + split; [done|]. intros Hn. apply not_elem_of_cons in Hn as [_ Hn].
      apply (proj2 (IH (S i))) in Hn. congruence.
    + apply (proj1 (IH (S i))) in E. destruct (c =? ch) eqn:Ec.
      * apply Z.eqb_eq in Ec as ->. split; [done|]. intros []. by left.
      * apply Z.eqb_neq in Ec. split; [|done]. intros _.
        apply not_elem_of_cons. split; [congruence|done].
Qed.

Lemma rfind_from_Some ch s i j :
  rfind_from ch s i = Some j ->
  exists a b, s = a ++ (ch :: b) /\ (ch ∉ b) /\ j = (i + length a)%nat.
Proof.
  revert i j. induction s as [|c s IH]; intros i j; simpl; [done|].
  destruct (rfind_from ch s (S i)) as [k|] eqn:E.
  - apply IH in E as (a & b & -> & Hb & ->).
    intros [= <-]. exists (c :: a), b. repeat split; [done|]. simpl. lia.
  - apply rfind_from_None in E. destruct (c =? ch) eqn:Ec; [|done].
    apply Z.eqb_eq in Ec as ->.
    intros [= <-]. exists [], s. repeat split; [done|]. simpl. lia.
Qed.

(** A name with the suffix [.crate] is a stem, not empty, followed by
    [.crate]. *)
Lemma crate_suffix_stem folder f :
  str_eqb (path_suffix (path_child folder f)) (lit ".crate") = true
  <-> path_stem (path_child folder f) <> []
      /\ f = path_stem (path_child folder f) ++ lit ".crate".
Proof.
  assert (forall g : str, g <> g ++ lit ".crate") as Hlen.
  { intros g Heq. apply (f_equal length) in Heq. rewrite length_app in Heq.
    change (length (lit ".crate")) with 6%nat in Heq. lia. }
  assert ([] <> lit ".crate") as Hnil.
  { intros Heq. apply (f_equal length) in Heq. by vm_compute in Heq. }
  unfold path_suffix, path_stem. rewrite path_name_child_eq.
  unfold str_eqb. rewrite bool_decide_eq_true.
  destruct (rfind_from 46 f 0) as [i|] eqn:E.
  - apply rfind_from_Some in E as (a & b & -> & Hb & ->). rewrite Nat.add_0_l.
    unfold str, codepoint in *.
    destruct ((0 <? length a)%nat && (length a <? length (a ++ 46%Z :: b) - 1)%nat) eqn:C.
    + apply andb_prop in C as [Ha%Nat.ltb_lt _].
      rewrite drop_app_length, take_app_length. split.
      * intros Heq. split; [intros ->; simpl in Ha; lia|]. by rewrite Heq.
      * intros [_ Heq]. by apply app_inv_head in Heq.
    + split; [done|]. intros [_ Heq]. by apply Hlen in Heq.
  - split; [done|]. intros [_ Heq]. by apply Hlen in Heq.
Qed.

Lemma rfind_from_app ch a b i :
  ch ∉ b -> rfind_from ch (a ++ (ch :: b)) i = Some (i + length a)%nat.
Proof.
  intros Hb. revert i. induction a as [|c a IH]; intros i; simpl.
  - apply rfind_from_None with (i := S i) in Hb. rewrite Hb, Z.eqb_refl.
    f_equal. lia.
  - rewrite IH. f_equal. lia.
Qed.

Lemma crate_name_stem folder n :
  n <> [] ->
  path_suffix (path_child folder (n ++ lit ".crate")) = lit ".crate"
  /\ path_stem (path_child folder (n ++ lit ".crate")) = n.
Proof.
  intros Hn. unfold path_suffix, path_stem. rewrite path_name_child_eq.
  change (lit ".crate") with (46 :: lit "crate").
  assert (46 ∉ lit "crate") as Hdot.
  { intros H. vm_compute in H.
    repeat (apply elem_of_cons in H as [H|H]; [discriminate H|]).
    by apply elem_of_nil in H. }
  rewrite rfind_from_app by done. rewrite Nat.add_0_l.
  unfold str, codepoint in *.
  assert (((0 <? length n)%nat && (length n <? length (n ++ 46%Z :: lit "crate") - 1)%nat)
          = true) as ->.
  { rewrite length_app. change (length (46%Z :: lit "crate")) with 6%nat.
    apply andb_true_intro. split; apply Nat.ltb_lt; [|lia].
    destruct n; [done|simpl; lia]. }
  by rewrite drop_app_length, take_app_length.
Qed.

Lemma path_child_inj folder x y : path_child folder x = path_child folder y -> x = y.
Proof.
  unfold path_child. intros [= H]. by apply app_inv_head in H as [= ->].
Qed.

Lemma get_existing_crate_names_lists_names serato_root w :
  exists names, get_existing_crate_names serato_root w = (Returns names, w).
Proof.
  unfold get_existing_crate_names, st_bind, get_world.
  destruct (subcrates w); by eexists.
Qed.

(** X16. [get_existing_crate_names] reads the folder and changes nothing.
    It lists exactly the names [n], not empty, for which [Subcrates] holds
    an entry [n.crate], each once; without a [Subcrates] folder it lists
    nothing. *)
Theorem get_existing_crate_names_lists_crate_files (serato_root : Path) (w : World) :
  exists names,
    get_existing_crate_names serato_root w = (Returns names, w)
    /\ NoDup names
    /\ forall n,
         n ∈ names <->
         n <> [] /\ exists files,
                      subcrates w = Some files /\ is_Some (files !! (n ++ lit ".crate")).
Proof.
  unfold get_existing_crate_names, st_bind, get_world.
  destruct (subcrates w) as [files|] eqn:Hs.
  2:{ exists []. split; [done|]. split; [constructor|]. intros n. split.
      - intros H. by apply elem_of_nil in H.
      - by intros [_ (files & ? & _)]. }
  set (folder := get_subcrates_folder serato_root).
  set (paths := List.filter (fun f => str_eqb (path_suffix f) (lit ".crate"))
                  (map (fun kv => path_child folder (fst kv)) (map_to_list files))).
  assert (forall p, p ∈ paths <->
            exists k, p = path_child folder k /\ is_Some (files !! k)
                      /\ str_eqb (path_suffix p) (lit ".crate") = true) as Hpaths.
  { intros p. unfold paths.
    rewrite list_elem_of_In, filter_In, <- list_elem_of_In, list_elem_of_fmap. split.
    - intros [([k v] & -> & Hkv%elem_of_map_to_list) Hp]. exists k. simpl in *. eauto.
    - intros (k & -> & [v Hv] & Hp). split; [|done]. exists (k, v). split; [done|].
      by apply elem_of_map_to_list. }
  exists (map path_stem paths). split; [done|]. split.
  - apply NoDup_fmap_2_strong.
    + intros p q (kp & -> & _ & Hp)%Hpaths (kq & -> & _ & Hq)%Hpaths Heq.
      apply crate_suffix_stem in Hp as [_ Hp], Hq as [_ Hq].
      rewrite Hp, Hq, Heq. done.
    + unfold paths. apply NoDup_ListNoDup, List.NoDup_filter, NoDup_ListNoDup.
      assert (map (fun kv : str * bytes => path_child folder (fst kv)) (map_to_list files)
              = path_child folder <$> (map_to_list files).*1) as ->.
      { by rewrite <- list_fmap_compose. }
      apply NoDup_fmap_2_strong; [|apply NoDup_fst_map_to_list].
      intros x y _ _. apply path_child_inj.
  - intros n. rewrite list_elem_of_fmap. split.
    + intros (p & -> & (k & -> & [v Hv] & Hp)%Hpaths).
      apply crate_suffix_stem in Hp as [Hne Hk]. split; [done|].
      exists files. split; [done|]. rewrite <- Hk. eauto.
    + intros [Hne (files' & [= <-] & Hv)].
      destruct (crate_name_stem folder n Hne) as [Hsuf Hstem].
      exists (path_child folder (n ++ lit ".crate")). split; [done|].
      apply Hpaths. exists (n ++ lit ".crate"). split; [done|]. split; [done|].
      rewrite Hsuf. by apply bool_decide_eq_true.
Qed.

End Folder.

(** ** The writer of crate files *)

Ltac inv_run :=
  repeat match goal with
    | H : st_bind _ _ _ = (Returns _, _) |- _ =>
        apply st_bind_returns in H as (? & ? & ? & H)
    | H : st_try _ _ _ = (Returns _, _) |- _ =>
        apply st_try_returns in H as [H|(? & ? & ? & H)]
    | H : st_ret _ _ = (Returns _, _) |- _ => unfold st_ret in H; simplify_eq
    | H : emit _ _ = (Returns _, _) |- _ => unfold emit in H; simplify_eq
    end.

Lemma stable_bind_at {S A B} (R : S -> S -> Prop) (m : ST S A) (k : A -> ST S B) s :
  (forall s1 s2 s3, R s1 s2 -> R s2 s3 -> R s1 s3) ->
  R s (snd (m s)) -> (forall a, stable R (k a)) -> R s (snd (st_bind m k s)).
Proof.
  intros R_trans Hm Hk. unfold st_bind.
  destruct (m s) as [[a| |] s1]; simpl in *; [|done|done].
  eapply R_trans; [exact Hm|apply Hk].
Qed.

Section Keeping.
Context `{U : Unicode} `{P : Platform} `{Sy : System}.
Variable orig : gmap str bytes.

Lemma keeps_files_refl w : keeps_files orig w w.
Proof. by intros ?. Qed.

Lemma keeps_files_trans w1 w2 w3 :
  keeps_files orig w1 w2 -> keeps_files orig w2 w3 -> keeps_files orig w1 w3.
Proof. unfold keeps_files. auto. Qed.

Lemma keeps_files_same w w' : subcrates w' = subcrates w -> keeps_files orig w w'.
Proof. intros E (cur & Hs & Hsub). exists cur. by rewrite E. Qed.

Lemma emit_keeps ev : stable (keeps_files orig) (emit ev).
Proof. intros w. by apply keeps_files_same. Qed.

Lemma syscall_keeps : stable (keeps_files orig) syscall.
Proof. intros w. apply keeps_files_same. unfold syscall. by destruct (fails _). Qed.

Lemma get_world_keeps : stable (keeps_files orig) get_world.
Proof. intros w. apply keeps_files_refl. Qed.

Ltac keep_steps :=
  repeat first
    [ simple apply (stable_ret _ keeps_files_refl)
    | simple apply (stable_lift _ keeps_files_refl)
    | simple apply emit_keeps | simple apply syscall_keeps | simple apply get_world_keeps
    | match goal with H : _ |- stable _ _ => simple apply H end
    | simple apply (stable_bind _ keeps_files_trans); [|intros ?]
    | simple apply (stable_try _ keeps_files_trans); [|intros ?]
    | match goal with |- stable _ (match ?x with _ => _ end) => destruct x end
    | match goal with |- stable _ (if ?x then _ else _) => destruct x end ].

(** Writing a file that is not one of [orig] keeps [orig]. *)
Lemma open_and_write_keeps file_name chunks :
  orig !! file_name = None -> stable (keeps_files orig) (open_and_write file_name chunks).
Proof.
  intros Hnone. unfold open_and_write. keep_steps.
  intros w (cur & Hs & Hsub). exists (<[file_name := concat chunks]> cur).
  split; [by apply write_file_subcrates|]. by apply insert_subseteq_r.
Qed.

Lemma write_file_keeps file_name chunks :
  orig !! file_name = None ->
  stable (keeps_files orig) (fun w => (Returns tt, write_file file_name chunks w)).
Proof.
  intros Hnone w (cur & Hs & Hsub). exists (<[file_name := concat chunks]> cur).
  split; [by apply write_file_subcrates|]. by apply insert_subseteq_r.
Qed.

Lemma mkdir_keeps : stable (keeps_files orig) mkdir_subcrates.
Proof.
  intros w Hw. unfold mkdir_subcrates, st_bind.
  destruct (syscall_cases w) as [[-> _]|[-> _]]; cbn [snd];
    destruct Hw as (cur & Hs & Hsub).
  - unfold get_world. cbn [subcrates ticked]. rewrite Hs. by exists cur.
  - by exists cur.
Qed.

Lemma write_crate_recursive_keeps write delim pm mr c prefix counts :
  stable (keeps_files orig)
    (write_crate_recursive write false delim pm mr c prefix counts).
Proof.
  revert prefix counts. induction c as [n p pn ts cs IH] using CratePlan_nested_ind.
  intros prefix counts w. cbn [write_crate_recursive].
  unfold st_bind at 1, st_lift at 1.
  destruct (sanitize_crate_filename _ _) as [crate_filename| |];
    try apply keeps_files_refl.
  unfold st_bind at 1, get_world at 1.
  apply (stable_bind_at _ _ _ _ keeps_files_trans).
  - intros Hw. pose proof Hw as (cur & Hs & Hsub). revert Hw. rewrite Hs.
    destruct (bool_decide (is_Some (cur !! (crate_filename ++ lit ".crate")))) eqn:Hex;
      cbn [andb negb].
    + assert (stable (keeps_files orig)
                (emit (LogSkipping crate_filename) ;;; st_ret (fst counts, snd counts + 1))%st)
        as Hst by keep_steps.
      apply Hst.
    + apply bool_decide_eq_false in Hex.
      assert (orig !! (crate_filename ++ lit ".crate") = None) as Hnone.
      { destruct (orig !! (crate_filename ++ lit ".crate")) as [x|] eqn:Hx; [|done].
        destruct Hex. exists x. by eapply lookup_weaken. }
      match goal with |- _ -> holds_files orig (snd (?m w)) =>
        assert (stable (keeps_files orig) m) as Hst; [|apply Hst] end.
      unfold write_with_library, write_crate_binary.
      pose proof (fun chunks => open_and_write_keeps _ chunks Hnone) as Hopen.
      pose proof (fun chunks => write_file_keeps _ chunks Hnone) as Hfile.
      keep_steps.
  - intros counts'. cbn [children]. revert counts'.
    induction IH as [|c cs Hc _ IHcs]; intros counts'; [keep_steps|].
    apply (stable_bind _ keeps_files_trans); [apply Hc|apply IHcs].
Qed.

Lemma write_crates_keeps plan delim pm :
  stable (keeps_files orig) (write_crates_with_serato_crate plan false delim pm).
Proof.
  unfold write_crates_with_serato_crate. destruct serato_crate as [write|]; [|keep_steps].
  apply (stable_bind _ keeps_files_trans); [apply mkdir_keeps|intros _].
  generalize (0, 0). induction (crates plan) as [|c cs IH]; intros counts; cbn [write_each].
  - keep_steps.
  - apply (stable_bind _ keeps_files_trans);
      [apply write_crate_recursive_keeps|intros ?; apply IH].
Qed.

Lemma backup_keeps : stable (keeps_files orig) backup_subcrates.
Proof. intros w. apply keeps_files_same. apply backup_subcrates_subcrates. Qed.

Lemma execute_sync_keeps plan delim pm :
  stable (keeps_files orig) (execute_sync plan false false delim pm).
Proof.
  unfold execute_sync. cbn [orb].
  pose proof backup_keeps. pose proof mkdir_keeps.
  pose proof (write_crates_keeps plan delim pm).
  keep_steps.
Qed.

End Keeping.

Section Running.
Context `{U : Unicode} `{P : Platform} `{Sy : System}.

(** X17. A run without [overwrite] and without [clean] leaves every crate
    file that exists alone: however the run ends, each file that was in
    [Subcrates] before it is there afterwards, with the content it had.
    Crates of the plan whose file exists are skipped, and what is written
    goes to names that were free. *)
Theorem execute_sync_keeps_existing_crates (plan : SyncPlan)
  (subcrate_delimiter path_mode : str) (w : World) (files : gmap str bytes) :
  subcrates w = Some files ->
  exists files',
    subcrates (snd (execute_sync plan false false subcrate_delimiter path_mode w))
      = Some files'
    /\ files ⊆ files'.
Proof.
  intros Hs. apply (execute_sync_keeps files plan subcrate_delimiter path_mode w).
  by exists files.
Qed.

(** ** Counting the crates written *)

Lemma write_crate_recursive_counts write overwrite delim pm mr c prefix counts w r w' :
  write_crate_recursive write overwrite delim pm mr c prefix counts w = (Returns r, w') ->
  fst counts <= fst r /\ snd counts <= snd r
  /\ fst r + snd r <= fst counts + snd counts + plan_crates c.
Proof.
  revert prefix counts w r w'. induction c as [n p pn ts cs IH] using CratePlan_nested_ind.
  intros prefix counts w r w'. cbn [write_crate_recursive]. intros H.
  apply st_bind_returns in H as (crate_filename & w1 & _ & H).
  apply st_bind_returns in H as (w2 & w3 & _ & H).
  apply st_bind_returns in H as (counts1 & w4 & Hc & H).
  assert (fst counts <= fst counts1 /\ snd counts <= snd counts1
          /\ fst counts1 + snd counts1 <= fst counts + snd counts + 1) as Hstep.
  { clear H. destruct (_ && _); inv_run; cbn [fst snd]; lia. }
  clear Hc. rewrite plan_crates_unfold. cbn [children] in *.
  assert (fst counts1 <= fst r /\ snd counts1 <= snd r
          /\ fst r + snd r <= fst counts1 + snd counts1 + sum_over plan_crates cs);
    [|lia].
  clear Hstep. revert counts1 w4 H.
  induction IH as [|c cs Hc _ IHcs]; intros counts1 w4 H;
    rewrite ?sum_over_cons, ?sum_over_nil.
  - inv_run. lia.
  - apply st_bind_returns in H as (counts2 & w5 & H1 & H).
    apply Hc in H1. apply IHcs in H. lia.
Qed.

Lemma write_each_counts write overwrite delim pm mr cs counts w r w' :
  write_each write overwrite delim pm mr cs counts w = (Returns r, w') ->
  fst counts <= fst r /\ snd counts <= snd r
  /\ fst r + snd r <= fst counts + snd counts + sum_over plan_crates cs.
Proof.
  revert counts w; induction cs as [|c cs IH]; intros counts w H; cbn [write_each] in H;
    rewrite ?sum_over_cons, ?sum_over_nil.
  - inv_run. lia.
  - apply st_bind_returns in H as (counts1 & w2 & H1 & H).
    apply write_crate_recursive_counts in H1. apply IH in H. lia.
Qed.

(** ** Without the library *)

Lemma nothing_written_refl w : nothing_written w w.
Proof. unfold nothing_written. reflexivity. Qed.

Lemma nothing_written_trans w1 w2 w3 :
  nothing_written w1 w2 -> nothing_written w2 w3 -> nothing_written w1 w3.
Proof. unfold nothing_written. intros H1 H2. by etrans. Qed.

Lemma nothing_written_same w w' : subcrates w' = subcrates w -> nothing_written w w'.
Proof. unfold nothing_written, crate_files. by intros ->. Qed.

Lemma emit_nothing_written ev : stable nothing_written (emit ev).
Proof. intros w. by apply nothing_written_same. Qed.

Lemma backup_nothing_written : stable nothing_written backup_subcrates.
Proof. intros w. apply nothing_written_same. apply backup_subcrates_subcrates. Qed.

Lemma mkdir_nothing_written : stable nothing_written mkdir_subcrates.
Proof.
  intros w. unfold mkdir_subcrates, st_bind.
  destruct (syscall_cases w) as [[-> _]|[-> _]]; cbn [snd];
    [|by apply nothing_written_same].
  unfold get_world. cbn [subcrates ticked].
  destruct (subcrates w) eqn:Hs; unfold nothing_written, crate_files; cbn; by rewrite Hs.
Qed.

Lemma clean_nothing_written : stable nothing_written clean_existing_crates.
Proof.
  intros w. unfold clean_existing_crates, st_bind, get_world.
  destruct (subcrates w) as [files|] eqn:Hs;
    [|apply nothing_written_same; by rewrite Hs].
  destruct (clean_loop_spec (glob_crate files) 0 w files Hs (glob_crate_NoDup files))
    as (n & w' & files' & -> & _ & Hsub & Hle & _).
  { intros f Hf. by apply glob_crate_spec in Hf as [_ ?]. }
  unfold nothing_written, crate_files. cbn [snd]. by rewrite Hsub, Hs.
Qed.

Ltac written_steps :=
  repeat first
    [ simple apply (stable_ret _ nothing_written_refl)
    | simple apply emit_nothing_written
    | match goal with H : _ |- stable _ _ => simple apply H end
    | simple apply (stable_bind _ nothing_written_trans); [|intros ?]
    | match goal with |- stable _ (match ?x with _ => _ end) => destruct x end
    | match goal with |- stable _ (if ?x then _ else _) => destruct x end ].

(** X19. Without the [serato_crate] library the run writes no crate at
    all: the import fails before the fallback writer can be reached. Every
    file in [Subcrates] after the run was there before it, unchanged (with
    [clean], the crate files are deleted and none is written); and when
    the run returns, it has reported that the library is missing and that
    no crate was created or skipped. *)
Theorem execute_sync_without_library (plan : SyncPlan) (overwrite clean : bool)
  (subcrate_delimiter path_mode : str) (w : World) :
  serato_crate = None ->
  crate_files (snd (execute_sync plan overwrite clean subcrate_delimiter path_mode w))
    ⊆ crate_files w
  /\ forall b w',
       execute_sync plan overwrite clean subcrate_delimiter path_mode w = (Returns b, w') ->
       In LogNotInstalled (trace w') /\ In (PrintCreated 0) (trace w')
       /\ In (PrintSkipped 0) (trace w').
Proof.
  intros Hlib. split.
  - assert (stable nothing_written
              (execute_sync plan overwrite clean subcrate_delimiter path_mode)) as Hst;
      [|apply Hst].
    unfold execute_sync, write_crates_with_serato_crate. rewrite Hlib.
    pose proof backup_nothing_written. pose proof mkdir_nothing_written.
    pose proof clean_nothing_written.
    written_steps.
  - intros b w'. unfold execute_sync, write_crates_with_serato_crate. rewrite Hlib.
    intros H. inv_run. cbn [trace fst snd].
    match goal with
    | H : match ?bp with Some _ => _ | None => _ end _ = (Returns _, w') |- _ =>
        destruct bp; inv_run; cbn [trace];
        rewrite <- ?app_assoc; cbn [app];
        rewrite !in_app_iff; cbn [In]; auto 10
    end.
Qed.

(** ** The backup comes first *)

(** X20. Whenever [execute_sync] returns, whatever the flags, and there
    was a [Subcrates] folder, the run has added exactly one folder to the
    Serato root: a backup under a name that was free, holding the files of
    [Subcrates] as they were before the run. *)
Theorem execute_sync_backs_up_first (plan : SyncPlan) (overwrite clean : bool)
  (subcrate_delimiter path_mode : str) (w w' : World) (b : bool)
  (files : gmap str bytes) :
  execute_sync plan overwrite clean subcrate_delimiter path_mode w = (Returns b, w') ->
  subcrates w = Some files ->
  exists backup_name,
    siblings w !! backup_name = None
    /\ siblings w' = <[backup_name := files]> (siblings w).
Proof.
  intros Hrun Hs.
  assert (exists bp w1, backup_subcrates w = (Returns bp, w1)) as (bp & w1 & Hb).
  { unfold execute_sync in Hrun. apply st_bind_returns in Hrun as (bp & w1 & Hb & _). eauto. }
  pose proof (execute_sync_keeps_siblings plan overwrite clean subcrate_delimiter
                path_mode _ _ _ Hb) as Hsib.
  rewrite Hrun in Hsib. unfold same_siblings in Hsib. cbn [snd] in Hsib.
  exists (lit "Subcrates.BACKUP." ++ timestamp (ticks w)).
  rewrite Hsib. clear Hsib Hrun.
  unfold backup_subcrates, st_bind at 1, get_world in Hb. rewrite Hs in Hb.
  unfold st_bind at 1, emit in Hb. unfold st_bind at 1 in Hb.
  match type of Hb with
  | context [copytree files ?bn ?w0] =>
      destruct (copytree_cases files bn w0) as [(Hc & Hnone & _)|[(Hc & _)|(Hc & _)]];
        rewrite Hc in Hb; try discriminate Hb
  end.
  unfold st_ret in Hb. injection Hb as _ <-. cbn in *. done.
Qed.

End Running.

(** ** The plan *)

Section Planning.
Context `{U : Unicode} `{P : Platform}.

(** X21. [create_sync_plan] only reads: the Serato folder is as it was
    when the plan is returned. The plan has at most one top-level crate,
    the one [build_crate_tree] makes of the music root; its totals are the
    number of crates of that tree and the number of tracks they hold, and
    both are zero when there is no crate; its existing crates are those
    [get_existing_crate_names] lists. *)
Theorem create_sync_plan_consistent (depth : nat) (root : Path) (music : FsNode)
  (serato : Path) (extensions : gset str) (include_empty : bool)
  (w w' : World) (plan : SyncPlan) :
  create_sync_plan depth root music serato extensions include_empty w
    = (Returns plan, w') ->
  w' = w
  /\ music_root plan = root /\ serato_root plan = serato
  /\ fst (get_existing_crate_names serato w) = Returns (existing_crates plan)
  /\ match crates plan with
     | [] =>
         build_crate_tree depth root music extensions None include_empty
           = Returns None
         /\ total_crates plan = 0 /\ total_tracks plan = 0
     | [c] =>
         build_crate_tree depth root music extensions None include_empty
           = Returns (Some c)
         /\ total_crates plan = plan_crates c /\ total_tracks plan = plan_tracks c
         /\ 1 <= total_crates plan
     | _ => False
     end.
Proof.
  unfold create_sync_plan. intros H.
  apply st_bind_returns in H as (root_crate & w1 & Hb & H).
  apply st_bind_returns in H as (existing & w2 & He & H).
  unfold st_ret in H. injection H as <- <-.
  unfold st_lift in Hb. injection Hb as Hb <-.
  destruct (get_existing_crate_names_lists_names serato w) as (names & Hn).
  rewrite Hn in He. injection He as <- <-.
  split; [done|]. split; [done|]. split; [done|]. split; [by rewrite Hn|].
  cbn [crates total_crates total_tracks].
  destruct root_crate as [c|]; cbn [app].
  - unfold count_crates_and_tracks. cbn [fold_left].
    rewrite count_recursive_sums. cbn [fst snd].
    pose proof (plan_crates_pos c). repeat split; [done|lia..].
  - done.
Qed.

End Planning.

(** * The properties at work *)

Lemma backup_subcrates_same_second_witness :
  exists w',
    @backup_subcrates calm_system backed_up_world = (Raises FileExistsError, w')
    /\ siblings w' = siblings backed_up_world /\ subcrates w' = subcrates backed_up_world.
Proof.
  apply (@backup_subcrates_same_second calm_system backed_up_world
           {[ lit "ExistingCrate.crate" := [] ]}).
  - reflexivity.
  - reflexivity.
  - by eexists.
Defined.

Lemma execute_sync_keeps_existing_crates_witness :
  exists files',
    subcrates (snd (@execute_sync ascii_unicode posix_canonical library_system sample_plan
                      false false (lit "%%") (lit "absolute") house_world))
      = Some files'
    /\ {[ lit "House.crate" := [7] ]} ⊆ files'.
Proof.
  apply (@execute_sync_keeps_existing_crates ascii_unicode posix_canonical library_system).
  reflexivity.
Defined.

Lemma execute_sync_without_library_witness :
  crate_files (snd (@execute_sync ascii_unicode posix_canonical calm_system sample_plan
                      false true (lit "%%") (lit "absolute") house_world))
    ⊆ crate_files house_world
  /\ forall b w',
       @execute_sync ascii_unicode posix_canonical calm_system sample_plan
         false true (lit "%%") (lit "absolute") house_world = (Returns b, w') ->
       In LogNotInstalled (trace w') /\ In (PrintCreated 0) (trace w')
       /\ In (PrintSkipped 0) (trace w').
Proof.
  apply (@execute_sync_without_library ascii_unicode posix_canonical calm_system).
  reflexivity.
Defined.

Lemma execute_sync_backs_up_first_witness :
  exists backup_name,
    siblings house_world !! backup_name = None
    /\ siblings (snd (@execute_sync ascii_unicode posix_canonical library_system sample_plan
                        true false (lit "%%") (lit "absolute") house_world))
       = <[backup_name := {[ lit "House.crate" := [7] ]}]> (siblings house_world).
Proof.
  apply (@execute_sync_backs_up_first ascii_unicode posix_canonical library_system
           sample_plan true false (lit "%%") (lit "absolute") house_world _ true).
  - vm_compute. reflexivity.
  - reflexivity.
Defined.

Lemma create_sync_plan_consistent_witness :
  test_serato_world = test_serato_world
  /\ music_root test_plan = test_music_root /\ serato_root test_plan = test_serato_root
  /\ fst (get_existing_crate_names test_serato_root test_serato_world)
     = Returns (existing_crates test_plan)
  /\ match crates test_plan with
     | [] =>
         @build_crate_tree ascii_unicode posix_canonical 4 test_music_root
           test_music_folder test_extensions None false = Returns None
         /\ total_crates test_plan = 0 /\ total_tracks test_plan = 0
     | [c] =>
         @build_crate_tree ascii_unicode posix_canonical 4 test_music_root
           test_music_folder test_extensions None false = Returns (Some c)
         /\ total_crates test_plan = plan_crates c /\ total_tracks test_plan = plan_tracks c
         /\ 1 <= total_crates test_plan
     | _ => False
     end.
Proof.
  apply (@create_sync_plan_consistent ascii_unicode posix_canonical 4 test_music_root
           test_music_folder test_serato_root test_extensions false).
  vm_compute. reflexivity.
Defined.

(** The plan of the test suite: five crates, five tracks, one crate that
    exists. *)
Example test_plan_totals :
  total_crates test_plan = 5 /\ total_tracks test_plan = 5
  /\ existing_crates test_plan = [lit "ExistingCrate"].
Proof. vm_compute. repeat split; reflexivity. Qed.

(** * More on the SQLite writer *)

Section Rows.
Context `{Sy : System}.

(** What [sqlite_session] does when it returns: the loop over the crates
    of the plan runs on the database as it was found, from the revision
    stored in it. *)
Lemma sqlite_session_run plan delim s counts s' :
  sqlite_session plan delim s = (Returns counts, s') ->
  exists next_order sa loc sb,
    db sa = db s
    /\ create_each delim (crates plan) next_order
         {| crates_created := 0; crates_skipped := 0;
            revision := first_revision (db s) |} sa = (Returns loc, sb)
    /\ container (db s') = container (db sb)
    /\ counts = (crates_created loc, crates_skipped loc).
Proof.
  unfold sqlite_session. intros H.
  apply st_bind_returns in H as (? & s1 & ->%sql_call_returns & H).
  apply st_bind_returns in H as (row & s2 & Hrow & H).
  apply st_bind_returns in H as (next_order & s3 & Hord & H).
  apply st_bind_returns in H as (loc & s4 & Hloop & H).
  apply st_bind_returns in H as (? & s5 & Hupd & H).
  apply st_bind_returns in H as (? & s6 & ->%sql_call_returns & H).
  unfold st_ret in H. injection H as <- <-.
  unfold select_revision in Hrow.
  apply st_bind_returns in Hrow as (? & ? & ->%sql_call_returns & Hrow).
  unfold st_bind, get_db, st_ret in Hrow. injection Hrow as <- <-.
  unfold select_next_order in Hord.
  apply st_bind_returns in Hord as (? & ? & ->%sql_call_returns & Hord).
  unfold st_bind, get_db, st_ret in Hord. injection Hord as _ <-.
  unfold update_revision in Hupd.
  apply st_bind_returns in Hupd as (? & ? & ->%sql_call_returns & Hupd).
  unfold st_bind, get_db, set_db in Hupd. injection Hupd as _ <-.
  exists next_order, (called (called (called s))), loc, s4.
  split; [done|]. split; [exact Hloop|]. done.
Qed.

(** A session in which no call fails returns. *)
Lemma sqlite_session_calm plan delim s :
  (forall n, (calls s <= n)%nat -> fails n = false) ->
  exists counts s', sqlite_session plan delim s = (Returns counts, s').
Proof.
  intros Hcalm. pose proof (honest_sqlite_session plan delim s) as Hh.
  destruct (sqlite_session plan delim s) as [[counts| |] s'] eqn:E; [by eauto| |];
    destruct Hh as (Hlt & Hf & _); rewrite Hcalm in Hf by lia; discriminate.
Qed.

(** ** Every crate is counted *)

Lemma create_children_tally_from delim cs :
  Forall (fun c => forall parent_id parent_prefix list_order loc s cid loc' s',
            create_crate_recursive delim c parent_id parent_prefix list_order loc s
              = (Returns (cid, loc'), s') ->
            crates_created loc' + crates_skipped loc'
            = crates_created loc + crates_skipped loc + plan_crates c) cs ->
  forall crate_id display_name child_order loc s loc' s',
    create_children delim cs crate_id display_name child_order loc s = (Returns loc', s') ->
    crates_created loc' + crates_skipped loc'
    = crates_created loc + crates_skipped loc + sum_over plan_crates cs.
Proof.
  induction 1 as [|c cs Hc _ IH]; intros crate_id display_name child_order loc s loc' s' H;
    cbn [create_children] in H; rewrite ?sum_over_cons, ?sum_over_nil.
  - unfold st_ret in H. simplify_eq. lia.
  - apply st_bind_returns in H as ([cid loc1] & s1 & H1 & H).
    apply Hc in H1. apply IH in H. cbn [snd] in H. lia.
Qed.

Lemma create_crate_recursive_tally delim c parent_id parent_prefix list_order
  loc s cid loc' s' :
  create_crate_recursive delim c parent_id parent_prefix list_order loc s
    = (Returns (cid, loc'), s') ->
  crates_created loc' + crates_skipped loc'
  = crates_created loc + crates_skipped loc + plan_crates c.
Proof.
  revert parent_id parent_prefix list_order loc s cid loc' s'.
  induction c as [n p pn ts cs IH] using CratePlan_nested_ind.
  intros parent_id parent_prefix list_order loc s cid loc' s'.
  rewrite create_crate_recursive_unfold. intros H.
  apply st_bind_returns in H as (existing & s1 & [-> ->]%select_existing_returns & H).
  apply st_bind_returns in H as ([cid1 loc1] & s2 & Hnode & H).
  apply st_bind_returns in H as (loc2 & s3 & Hch & H).
  unfold st_ret in H. simplify_eq. cbn [fst snd children] in Hch.
  apply (create_children_tally_from delim cs IH) in Hch.
  rewrite plan_crates_unfold. cbn [children].
  assert (crates_created loc1 + crates_skipped loc1
          = crates_created loc + crates_skipped loc + 1); [|lia].
  destruct (List.find _ _) as [r|]; cbn [option_map] in Hnode.
  - unfold st_ret in Hnode. simplify_eq. cbn. lia.
  - apply st_bind_returns in Hnode as (now & s4 & Hnow & Hnode).
    apply st_bind_returns in Hnode as (cid2 & s5 & Hins & Hnode).
    unfold st_ret in Hnode. simplify_eq. cbn. lia.
Qed.

Lemma create_each_tally delim cs next_order loc s loc' s' :
  create_each delim cs next_order loc s = (Returns loc', s') ->
  crates_created loc' + crates_skipped loc'
  = crates_created loc + crates_skipped loc + sum_over plan_crates cs.
Proof.
  revert next_order loc s; induction cs as [|c cs IH]; intros next_order loc s H;
    cbn [create_each] in H; rewrite ?sum_over_cons, ?sum_over_nil.
  - unfold st_ret in H. simplify_eq. lia.
  - apply st_bind_returns in H as ([cid loc1] & s1 & H1 & H).
    apply create_crate_recursive_tally in H1. apply IH in H. cbn [snd] in H. lia.
Qed.

(** X22. When no call into SQLite fails, [write_crates_to_sqlite] accounts
    for every crate of the plan: the crates it reports as created and the
    crates it reports as skipped are together as many as
    [count_crates_and_tracks] counts in the plan. *)
Theorem sqlite_every_crate_counted (plan : SyncPlan) (subcrate_delimiter : str)
  (st : Store) (d : Database) :
  db_file st = Some d ->
  (forall n, (sql_calls st <= n)%nat -> fails n = false) ->
  fst (fst (write_crates_to_sqlite plan subcrate_delimiter st))
  + snd (fst (write_crates_to_sqlite plan subcrate_delimiter st))
  = fst (count_crates_and_tracks (crates plan)).
Proof.
  intros Hd Hcalm. unfold write_crates_to_sqlite. rewrite Hd.
  destruct (sqlite_session_calm plan subcrate_delimiter
              {| db := d; calls := sql_calls st |} Hcalm) as (counts & s' & E).
  rewrite E. cbn [fst].
  apply sqlite_session_run in E as (next_order & sa & loc & sb & _ & Hloop & _ & ->).
  apply create_each_tally in Hloop. cbn in Hloop. cbn [fst snd].
  unfold count_crates_and_tracks. rewrite fold_count_sums.
  - cbn [fst]. lia.
  - apply Forall_forall. intros; apply count_recursive_sums.
Qed.

(** ** Rows hang below rows *)

Lemma known_parent_app rows more parent_id :
  known_parent rows parent_id -> known_parent (rows ++ more) parent_id.
Proof.
  intros [->|(p & Hp & Hid)]; [by left|right].
  exists p. split; [|done]. apply elem_of_app. by left.
Qed.

Lemma parents_exist_snoc rows r :
  parents_exist rows -> known_parent rows (row_parent_id r) ->
  parents_exist (rows ++ [r]).
Proof.
  intros Hrows Hr. apply Forall_app. split.
  - eapply Forall_impl; [exact Hrows|]. intros x Hx. by apply known_parent_app.
  - constructor; [|constructor]. by apply known_parent_app.
Qed.

Lemma find_elem_of {A} (f : A -> bool) l r : List.find f l = Some r -> r ∈ l.
Proof. intros H. apply find_some in H as [H _]. by apply list_elem_of_In. Qed.

(** What one crate, with all below it, keeps and yields: the rows stay
    below rows, and the id returned is the id of a row. *)
Lemma create_children_parents_from delim cs :
  Forall (fun c => forall parent_id parent_prefix list_order loc s cid loc' s',
            create_crate_recursive delim c parent_id parent_prefix list_order loc s
              = (Returns (cid, loc'), s') ->
            known_parent (container (db s)) parent_id ->
            parents_exist (container (db s)) ->
            parents_exist (container (db s'))) cs ->
  forall crate_id display_name child_order loc s loc' s',
    create_children delim cs crate_id display_name child_order loc s = (Returns loc', s') ->
    known_parent (container (db s)) crate_id ->
    parents_exist (container (db s)) ->
    parents_exist (container (db s')).
Proof.
  induction 1 as [|c cs Hc _ IH]; intros crate_id display_name child_order loc s loc' s' H
    Hk Hp; cbn [create_children] in H.
  - unfold st_ret in H. by simplify_eq.
  - apply st_bind_returns in H as ([cid loc1] & s1 & H1 & H).
    pose proof (create_crate_recursive_grown delim c crate_id display_name child_order loc s)
      as (added & Hadd & _).
    rewrite H1 in Hadd. cbn [snd] in Hadd.
    eapply IH; [exact H| |by eapply Hc].
    rewrite Hadd. by apply known_parent_app.
Qed.

Lemma create_crate_recursive_parents delim c parent_id parent_prefix list_order
  loc s cid loc' s' :
  create_crate_recursive delim c parent_id parent_prefix list_order loc s
    = (Returns (cid, loc'), s') ->
  known_parent (container (db s)) parent_id ->
  parents_exist (container (db s)) ->
  parents_exist (container (db s')).
Proof.
  revert parent_id parent_prefix list_order loc s cid loc' s'.
  induction c as [n p pn ts cs IH] using CratePlan_nested_ind.
  intros parent_id parent_prefix list_order loc s cid loc' s'.
  rewrite create_crate_recursive_unfold. intros H Hk Hp.
  apply st_bind_returns in H as (existing & s1 & [-> ->]%select_existing_returns & H).
  apply st_bind_returns in H as ([cid1 loc1] & s2 & Hnode & H).
  apply st_bind_returns in H as (loc2 & s3 & Hch & H).
  unfold st_ret in H. simplify_eq. cbn [fst snd children] in Hch.
  eapply (create_children_parents_from delim cs IH); [exact Hch| |].
  - destruct (List.find _ _) as [r|] eqn:Hfind; cbn [option_map] in Hnode.
    + unfold st_ret in Hnode. simplify_eq. right. exists r.
      split; [|done]. by eapply find_elem_of.
    + apply st_bind_returns in Hnode as (now & s4 & Hnow & Hnode).
      unfold time_now in Hnow. simplify_eq.
      apply st_bind_returns in Hnode as (cid2 & s5 & Hins & Hnode).
      unfold st_ret in Hnode. simplify_eq.
      apply insert_container_returns in Hins as (_ & _ & _ & Hcon).
      rewrite Hcon. right. eexists. split; [apply elem_of_app; right; by left|done].
  - destruct (List.find _ _) as [r|] eqn:Hfind; cbn [option_map] in Hnode.
    + unfold st_ret in Hnode. by simplify_eq.
    + apply st_bind_returns in Hnode as (now & s4 & Hnow & Hnode).
      unfold time_now in Hnow. simplify_eq.
      apply st_bind_returns in Hnode as (cid2 & s5 & Hins & Hnode).
      unfold st_ret in Hnode. simplify_eq.
      apply insert_container_returns in Hins as (_ & _ & _ & Hcon).
      rewrite Hcon. by apply parents_exist_snoc.
Qed.

Lemma create_each_parents delim cs next_order loc s loc' s' :
  create_each delim cs next_order loc s = (Returns loc', s') ->
  parents_exist (container (db s)) ->
  parents_exist (container (db s')).
Proof.
  revert next_order loc s; induction cs as [|c cs IH]; intros next_order loc s H Hp;
    cbn [create_each] in H.
  - unfold st_ret in H. by simplify_eq.
  - apply st_bind_returns in H as ([cid loc1] & s1 & H1 & H).
    eapply IH; [exact H|].
    eapply create_crate_recursive_parents; [exact H1|by left|done].
Qed.

(** X23. The writer keeps the tree of containers whole. If every row of
    [container] hangs below the root (parent id 0) or below a row of the
    table before the call, then so it is afterwards, however the call
    ends: each crate is inserted below the row of its parent crate, which
    is there, found or inserted before it. *)
Theorem sqlite_parents_exist (plan : SyncPlan) (subcrate_delimiter : str)
  (st : Store) (d : Database) :
  db_file st = Some d ->
  parents_exist (container d) ->
  exists d',
    db_file (snd (write_crates_to_sqlite plan subcrate_delimiter st)) = Some d'
    /\ parents_exist (container d').
Proof.
  intros Hd Hp. unfold write_crates_to_sqlite. rewrite Hd.
  destruct (sqlite_session _ _ _) as [[counts| |] s'] eqn:E; cbn [snd db_file];
    [|by exists d..].
  exists (db s'). split; [done|].
  apply sqlite_session_run in E as (next_order & sa & loc & sb & Hsa & Hloop & -> & _).
  eapply create_each_parents; [exact Hloop|]. by rewrite Hsa.
Qed.

(** ** The rows added *)

Lemma joined_names_snoc delim above n :
  joined_names delim (above ++ [n])
  = if truthy (joined_names delim above) then joined_names delim above ++ delim ++ n else n.
Proof. unfold joined_names. by rewrite fold_left_app. Qed.

Lemma crate_row_mono chains1 chains2 delim r :
  chains1 ⊆ chains2 -> crate_row chains1 delim r -> crate_row chains2 delim r.
Proof.
  intros Hsub (Ht & He & above & Hin & Hp). repeat split; [done|done|].
  exists above. split; [by apply Hsub|done].
Qed.

Lemma logged_refl chains delim loc s : logged chains delim loc loc s s.
Proof.
  exists []. rewrite app_nil_r. repeat split; [simpl; lia| |constructor].
  intros i r Hi. by rewrite lookup_nil in Hi.
Qed.

Lemma logged_mono chains1 chains2 delim l1 l2 s1 s2 :
  chains1 ⊆ chains2 -> logged chains1 delim l1 l2 s1 s2 -> logged chains2 delim l1 l2 s1 s2.
Proof.
  intros Hsub (a & HC & HR & HN & HT). exists a. repeat split; try done.
  eapply Forall_impl; [exact HT|]. intros r. by apply crate_row_mono.
Qed.

Lemma logged_trans chains1 chains2 delim l1 l2 l3 s1 s2 s3 :
  logged chains1 delim l1 l2 s1 s2 -> logged chains2 delim l2 l3 s2 s3 ->
  logged (chains1 ++ chains2) delim l1 l3 s1 s3.
Proof.
  intros (a1 & C1 & R1 & N1 & T1) (a2 & C2 & R2 & N2 & T2).
  exists (a1 ++ a2). rewrite C2, C1, R2, R1, length_app.
  repeat split; [by rewrite app_assoc|lia| |].
  - intros i r Hi. apply lookup_app_Some in Hi as [Hi|[Hle Hi]].
    + by apply N1.
    + apply N2 in Hi. rewrite Hi, R1. lia.
  - apply Forall_app. split.
    + eapply Forall_impl; [exact T1|]. intros r. apply crate_row_mono.
      intros x Hx. apply elem_of_app. by left.
    + eapply Forall_impl; [exact T2|]. intros r. apply crate_row_mono.
      intros x Hx. apply elem_of_app. by right.
Qed.

Lemma create_children_logged_from delim cs :
  Forall (fun c => forall above parent_id list_order loc s cid loc' s',
            create_crate_recursive delim c parent_id (joined_names delim above)
              list_order loc s = (Returns (cid, loc'), s') ->
            logged (name_chains above c) delim loc loc' s s') cs ->
  forall above crate_id child_order loc s loc' s',
    create_children delim cs crate_id (joined_names delim above) child_order loc s
      = (Returns loc', s') ->
    logged (flat_map (name_chains above) cs) delim loc loc' s s'.
Proof.
  induction 1 as [|c cs Hc _ IH]; intros above crate_id child_order loc s loc' s' H;
    cbn [create_children] in H.
  - unfold st_ret in H. simplify_eq. apply logged_refl.
  - apply st_bind_returns in H as ([cid loc1] & s1 & H1 & H).
    cbn [flat_map]. eapply logged_trans; [eapply Hc, H1|eapply IH, H].
Qed.

Lemma create_crate_recursive_logged delim c above parent_id list_order
  loc s cid loc' s' :
  create_crate_recursive delim c parent_id (joined_names delim above) list_order loc s
    = (Returns (cid, loc'), s') ->
  logged (name_chains above c) delim loc loc' s s'.
Proof.
  revert above parent_id list_order loc s cid loc' s'.
  induction c as [n p pn ts cs IH] using CratePlan_nested_ind.
  intros above parent_id list_order loc s cid loc' s'.
  rewrite create_crate_recursive_unfold. intros H.
  apply st_bind_returns in H as (existing & s1 & [-> ->]%select_existing_returns & H).
  apply st_bind_returns in H as ([cid1 loc1] & s2 & Hnode & H).
  apply st_bind_returns in H as (loc2 & s3 & Hch & H).
  unfold st_ret in H. simplify_eq. cbn [fst snd children] in Hch.
  assert (display_name_of delim (joined_names delim above) (mkCratePlan n p pn ts cs)
          = joined_names delim (above ++ [n])) as Hname.
  { unfold display_name_of. cbn [name]. by rewrite joined_names_snoc. }
  rewrite Hname in Hch.
  cbn [name_chains name children].
  change ((above ++ [n]) :: flat_map (name_chains (above ++ [n])) cs)
    with ([above ++ [n]] ++ flat_map (name_chains (above ++ [n])) cs).
  eapply logged_trans; [|eapply create_children_logged_from; [exact IH|exact Hch]].
  destruct (List.find _ _) as [r|]; cbn [option_map] in Hnode.
  - unfold st_ret in Hnode. simplify_eq. exists []. rewrite app_nil_r. simpl.
    repeat split; [lia| |constructor]. intros i r' Hi. by rewrite lookup_nil in Hi.
  - apply st_bind_returns in Hnode as (now & s4 & Hnow & Hnode).
    unfold time_now in Hnow. simplify_eq.
    apply st_bind_returns in Hnode as (cid2 & s5 & Hins & Hnode).
    unfold st_ret in Hnode. simplify_eq.
    apply insert_container_returns in Hins as (_ & _ & _ & Hcon).
    eexists. split; [exact Hcon|]. simpl. split; [lia|]. split.
    + intros [|i] r Hi; simpl in Hi; [|by rewrite lookup_nil in Hi].
      injection Hi as <-. simpl. lia.
    + apply Forall_cons. split; [|constructor].
      split; [done|]. split; [done|]. cbn [row_name row_portable_id].
      exists above. split; [by left|].
      by rewrite Hname.
Qed.

Lemma create_each_logged delim cs next_order loc s loc' s' :
  create_each delim cs next_order loc s = (Returns loc', s') ->
  logged (flat_map (name_chains []) cs) delim loc loc' s s'.
Proof.
  revert next_order loc s; induction cs as [|c cs IH]; intros next_order loc s H;
    cbn [create_each] in H.
  - unfold st_ret in H. simplify_eq. apply logged_refl.
  - apply st_bind_returns in H as ([cid loc1] & s1 & H1 & H).
    cbn [flat_map].
    eapply logged_trans;
      [eapply (create_crate_recursive_logged delim c []), H1|eapply IH, H].
Qed.

(** X24. However [write_crates_to_sqlite] ends, the table [container] of
    the database file is the table as it was with rows appended. Every row
    appended is the row of a crate of the plan: a user crate (type 1), not
    expanded, with the name of that crate, and with the portable id
    [crate://] followed by the names from the plan's top-level crate down
    to it, joined by the delimiter. The rows appended carry the revisions
    that follow the stored one, one after the other in the order of
    insertion. *)
Theorem sqlite_rows_appended (plan : SyncPlan) (subcrate_delimiter : str)
  (st : Store) (d : Database) :
  db_file st = Some d ->
  exists d' added,
    db_file (snd (write_crates_to_sqlite plan subcrate_delimiter st)) = Some d'
    /\ container d' = container d ++ added
    /\ Forall (crate_row (flat_map (name_chains []) (crates plan)) subcrate_delimiter) added
    /\ numbered (first_revision d) added.
Proof.
  intros Hd. unfold write_crates_to_sqlite. rewrite Hd.
  destruct (sqlite_session _ _ _) as [[counts| |] s'] eqn:E; cbn [snd db_file].
  - apply sqlite_session_run in E as (next_order & sa & loc & sb & Hsa & Hloop & Hc & _).
    apply create_each_logged in Hloop as (added & Hadd & _ & Hn & Hrows).
    exists (db s'), added. rewrite Hc, Hadd, Hsa. by repeat split.
  - exists d, []. rewrite app_nil_r. repeat split; [constructor|].
    intros i r Hi. by rewrite lookup_nil in Hi.
  - exists d, []. rewrite app_nil_r. repeat split; [constructor|].
    intros i r Hi. by rewrite lookup_nil in Hi.
Qed.

End Rows.

Lemma sqlite_every_crate_counted_witness :
  fst (fst (@write_crates_to_sqlite calm_system sample_plan (lit "%%") sample_store))
  + snd (fst (@write_crates_to_sqlite calm_system sample_plan (lit "%%") sample_store))
  = fst (count_crates_and_tracks (crates sample_plan)).
Proof.
  apply (@sqlite_every_crate_counted calm_system sample_plan (lit "%%") sample_store
           sample_database).
  - reflexivity.
  - reflexivity.
Defined.

Lemma sqlite_parents_exist_witness :
  exists d',
    db_file (snd (@write_crates_to_sqlite calm_system sample_plan (lit "%%") sample_store))
      = Some d'
    /\ parents_exist (container d').
Proof.
  apply (@sqlite_parents_exist calm_system sample_plan (lit "%%") sample_store
           sample_database).
  - reflexivity.
  - unfold parents_exist, sample_database. cbn [container].
    apply Forall_cons; split; [by left|].
    apply Forall_cons; split.
    { right. exists (sample_row 1 0 "House" 1 1). split; [by left|done]. }
    apply Forall_cons; split; [by left|].
    apply Forall_cons; split; [by left|]. constructor.
Defined.

Lemma sqlite_rows_appended_witness :
  exists d' added,
    db_file (snd (@write_crates_to_sqlite calm_system sample_plan (lit "%%") sample_store))
      = Some d'
    /\ container d' = container sample_database ++ added
    /\ Forall (crate_row (flat_map (name_chains []) (crates sample_plan)) (lit "%%")) added
    /\ numbered (first_revision sample_database) added.
Proof.
  apply (@sqlite_rows_appended calm_system sample_plan (lit "%%") sample_store
           sample_database).
  reflexivity.
Defined.

(** * The extensions option *)

Lemma split_comma_nonempty s : split_comma s <> [].
Proof.
  destruct s as [|c s]; simpl; [done|].
  destruct (c =? 44); [done|]. by destruct (split_comma s).
Qed.

Lemma fold_union_list {A} (f : A -> str) (l : list A) (acc : gset str) :
  fold_left (fun extensions x => extensions ∪ {[ f x ]}) l acc
  = acc ∪ list_to_set (map f l).
Proof.
  revert acc. induction l as [|x l IH]; intros acc; simpl.
  - by rewrite (right_id_L ∅ (∪)).
  - rewrite IH. by rewrite (assoc_L (∪)).
Qed.

Lemma extension_of_dotted `{Unicode} part : startswith [46] (extension_of part) = true.
Proof.
  unfold extension_of. destruct (startswith [46] (lower (strip part))) eqn:E; [done|].
  reflexivity.
Qed.

(** X25. [parse_extensions] returns the set of the pieces of the option
    between its commas, each stripped of white space and put in lower
    case, with a dot in front unless it has one. The set is never empty
    (an empty option gives the single extension [.]), and every extension
    in it begins with a dot, as the suffix of a file does. *)
Theorem parse_extensions_dotted `{Unicode} (ext_str : str) :
  parse_extensions ext_str = list_to_set (map extension_of (split_comma ext_str))
  /\ parse_extensions ext_str <> ∅
  /\ forall ext, ext ∈ parse_extensions ext_str -> startswith [46] ext = true.
Proof.
  assert (parse_extensions ext_str = list_to_set (map extension_of (split_comma ext_str)))
    as E.
  { unfold parse_extensions.
    assert (forall l acc,
              fold_left (fun extensions ext =>
                           let ext := lower (strip ext) in
                           let ext := if negb (startswith [46] ext) then [46] ++ ext else ext in
                           extensions ∪ {[ ext ]}) l acc
              = fold_left (fun extensions x => extensions ∪ {[ extension_of x ]}) l acc) as ->.
    { induction l as [|x l IH]; intros acc; cbn [fold_left]; [done|]. rewrite IH.
      cbn zeta. unfold extension_of. by destruct (startswith [46] (lower (strip x))). }
    rewrite fold_union_list. by rewrite (left_id_L ∅ (∪)). }
  split; [exact E|]. rewrite E. split.
  - pose proof (split_comma_nonempty ext_str) as Hne.
    destruct (split_comma ext_str) as [|p ps]; [done|]. simpl.
    intros Hempty. assert (extension_of p ∈ (∅ : gset str)) as Hin.
    { rewrite <- Hempty. apply elem_of_union. left. by apply elem_of_singleton. }
    by apply not_elem_of_empty in Hin.
  - intros ext Hext. apply elem_of_list_to_set, list_elem_of_fmap in Hext as (p & -> & _).
    apply extension_of_dotted.
Qed.

(** The default of the option gives the default extensions, and the
    examples of the test suite. *)
Example parse_extensions_default :
  @parse_extensions ascii_unicode (lit "mp3,m4a,aiff,aif,wav,flac") = test_extensions.
Proof. vm_compute. reflexivity. Qed.

Example parse_extensions_mixed :
  @parse_extensions ascii_unicode (lit "mp3, .wav, FLAC")
  = list_to_set [lit ".mp3"; lit ".wav"; lit ".flac"].
Proof. vm_compute. reflexivity. Qed.

Example parse_extensions_empty : @parse_extensions ascii_unicode [] = {[ [46] ]}.
Proof. vm_compute. reflexivity. Qed.

(** * The database file *)

Section Database.
Context `{Sy : System}.

Lemma backup_name_differs suffix : lit "database_V2.BACKUP." ++ suffix <> database_v2.
Proof.
  intros Heq. apply (f_equal (take 9)) in Heq. vm_compute in Heq. discriminate Heq.
Qed.

Lemma root_call_cases r :
  let r' := {| root_files := root_files r; root_ticks := S (root_ticks r);
               root_log := root_log r |} in
  root_call r = (Returns tt, r') /\ fails (root_ticks r) = false
  \/ root_call r = (Raises OSError, r') /\ fails (root_ticks r) = true.
Proof. unfold root_call. destruct (fails (root_ticks r)); auto. Qed.

(** X26. [clear_serato_database] always returns and never loses the
    database. Without a file [database V2] it returns [False] and changes
    no file. With one, it returns [True] only when the file is gone and a
    backup [database_V2.BACKUP.<timestamp>] holds what the file held; when
    it returns [False] the file is still there with its content. No other
    file of the Serato root is touched. *)
Theorem clear_serato_database_keeps_content (r : RootFolder) :
  let backup_name := lit "database_V2.BACKUP." ++ timestamp (root_ticks r) in
  exists b r',
    clear_serato_database r = (Returns b, r')
    /\ (forall k, k <> database_v2 -> k <> backup_name ->
                  root_files r' !! k = root_files r !! k)
    /\ match root_files r !! database_v2 with
       | None => b = false /\ root_files r' = root_files r
       | Some data =>
           if b then root_files r' !! database_v2 = None
                     /\ root_files r' !! backup_name = Some data
           else root_files r' !! database_v2 = Some data
       end.
Proof.
  intros backup_name.
  unfold clear_serato_database, st_try, copy2, unlink_root_file, st_bind,
    get_root, root_call, root_log_event, set_root_files, st_ret, st_lift.
  fold backup_name.
  assert (backup_name <> database_v2) as Hdiff by apply backup_name_differs.
  destruct (root_files r !! database_v2) as [data|] eqn:Hdb;
    cbn [root_files root_ticks root_log].
  2:{ do 2 eexists. split; [reflexivity|]. by cbn. }
  destruct (fails (root_ticks r)) eqn:F1; cbn [root_files root_ticks root_log].
  { do 2 eexists. split; [reflexivity|]. by cbn. }
  rewrite Hdb. cbn [root_files root_ticks root_log].
  destruct (fails (S (root_ticks r))) eqn:F2; cbn [root_files root_ticks root_log].
  { do 2 eexists. split; [reflexivity|]. cbn [root_files]. split.
    - intros k _ Hk. by rewrite lookup_insert_ne.
    - by rewrite lookup_insert_ne. }
  rewrite lookup_insert_ne, Hdb by done. cbn [root_files root_ticks root_log].
  do 2 eexists. split; [reflexivity|]. cbn [root_files]. split.
  - intros k Hk1 Hk2. rewrite lookup_delete_ne, lookup_insert_ne; done.
  - split; [apply lookup_delete_eq|].
    rewrite lookup_delete_ne by done. apply lookup_insert_eq.
Qed.

End Database.

(** A run in which every call goes through, and one in which the copy is
    made and the deletion fails. *)
Example clear_serato_database_clears :
  let result := @clear_serato_database calm_system test_root_folder in
  fst result = Returns true
  /\ root_files (snd result)
     = {[ lit "database_V2.BACKUP.20240101_120000" := [1; 2; 3]; lit "crates.idx" := [9] ]}.
Proof. vm_compute. split; reflexivity. Qed.

(** * The guide *)

Section Guide.
Context `{U : Unicode} `{P : Platform}.

(** ** One line for each folder counted *)

Lemma print_returns line out u out' :
  print line out = (Returns u, out') -> out' = out ++ [line].
Proof. unfold print. congruence. Qed.

Lemma print_items_lines below extensions prefix deeper n_items rest :
  (forall item sub new_prefix out total out',
     below item sub new_prefix out = (Returns total, out') ->
     exists lines, out' = out ++ lines /\ Z.of_nat (length lines) = total) ->
  forall i total_folders out total out',
    print_items below extensions prefix deeper n_items rest i total_folders out
      = (Returns total, out') ->
    exists lines,
      out' = out ++ lines /\ Z.of_nat (length lines) = total - total_folders.
Proof.
  intros Hbelow. induction rest as [|[item sub] rest IH];
    intros i total_folders out total out' H; cbn [print_items] in H.
  - unfold st_ret in H. injection H as <- <-. exists []. rewrite app_nil_r.
    split; [done|simpl; lia].
  - apply st_bind_returns in H as (track_count & o1 & Ht & H).
    unfold st_lift in Ht. injection Ht as _ <-.
    apply st_bind_returns in H as (subfolder_count & o2 & Hs & H).
    unfold st_lift in Hs. injection Hs as _ <-.
    apply st_bind_returns in H as (? & o3 & Hp & H).
    apply print_returns in Hp as ->.
    apply st_bind_returns in H as (total1 & o4 & Hd & H).
    apply IH in H as (lines & -> & Hlen).
    destruct deeper.
    + apply st_bind_returns in Hd as (found & o5 & Hb & Hd).
      unfold st_ret in Hd. injection Hd as <- <-.
      apply Hbelow in Hb as (lines1 & -> & Hlen1).
      eexists. rewrite <- !app_assoc. split; [reflexivity|].
      rewrite !length_app. simpl. lia.
    + unfold st_ret in Hd. injection Hd as <- <-.
      eexists. rewrite <- !app_assoc. split; [reflexivity|].
      rewrite !length_app. simpl. lia.
Qed.

(** X27. The number [print_folder_tree] returns is the number of lines it
    has printed: what was on the output stays, and one line is added for
    each folder counted. *)
Theorem print_folder_tree_counts_lines (fuel : nat) (max_depth : Z)
  (extensions : gset str) (folder : Path) (node : FsNode) (prefix : str) (depth : Z)
  (out out' : list str) (total : Z) :
  print_folder_tree fuel max_depth extensions folder node prefix depth out
    = (Returns total, out') ->
  exists lines, out' = out ++ lines /\ Z.of_nat (length lines) = total.
Proof.
  revert folder node prefix depth out out' total.
  induction fuel as [|fuel IH]; intros folder node prefix depth out out' total H;
    cbn [print_folder_tree] in H; [done|].
  destruct (depth >? max_depth).
  { unfold st_ret in H. injection H as <- <-. exists []. by rewrite app_nil_r. }
  destruct (obind (iterdir folder node) _) as [dirs|[]|]; try done;
    try (unfold st_ret in H; injection H as <- <-; exists []; by rewrite app_nil_r).
  apply print_items_lines in H as (lines & -> & Hlen).
  - exists lines. split; [done|lia].
  - intros item sub new_prefix o t o'. apply IH.
Qed.

(** ** The folders counted *)

Lemma readable_dir name listable entries :
  readable (FsDir name listable entries) = true ->
  listable = true /\ Forall (fun e => readable e = true) entries.
Proof.
  cbn [readable]. intros [-> H]%andb_prop. split; [done|].
  apply Forall_forall. intros e He%list_elem_of_In.
  rewrite forallb_forall in H. by apply H.
Qed.

Lemma readable_not_denied e : readable e = true -> forall n, e <> FsDenied n.
Proof. by destruct e. Qed.

Lemma visible_dirs_readable folder entries :
  Forall (fun e => readable e = true) entries ->
  visible_dirs (map (fun e => (path_child folder (fs_name e), e)) entries)
  = Returns (map (fun e => (path_child folder (fs_name e), e))
               (List.filter visible entries)).
Proof.
  induction 1 as [|e entries He _ IH]; [done|].
  cbn [map visible_dirs List.filter]. rewrite IH. rewrite path_name_child.
  destruct e as [nm|nm l es|nm|nm]; cbn [is_dir obind andb visible fs_name];
    try done.
  by destruct (startswith [46] nm).
Qed.

Lemma count_items_returns items extensions count :
  Forall (fun it => forall n, snd it <> FsDenied n) items ->
  exists c, count_items items extensions count = Returns c.
Proof.
  intros Hok. revert count.
  induction Hok as [|[item n] items Hn _ IH]; intros count; cbn [count_items]; [eauto|].
  destruct n as [nm|nm l es|nm|nm]; cbn; try apply IH.
  - destruct (bool_decide _); apply IH.
  - by destruct (Hn nm).
Qed.

Lemma count_tracks_returns folder name listable entries extensions :
  readable (FsDir name listable entries) = true ->
  exists c, count_tracks folder (FsDir name listable entries) extensions = Returns c.
Proof.
  intros [-> Hes]%readable_dir. unfold count_tracks. cbn [iterdir].
  apply count_items_returns. apply Forall_forall.
  intros it (e & -> & He)%list_elem_of_fmap. cbn [snd].
  rewrite Forall_forall in Hes. by apply readable_not_denied, Hes.
Qed.

Lemma sum_over_perm {A} (f : A -> Z) l l' : l ≡ₚ l' -> sum_over f l = sum_over f l'.
Proof.
  induction 1 as [|x l l' _ IH|x y l|l1 l2 l3 _ IH1 _ IH2];
    rewrite ?sum_over_cons, ?sum_over_nil; lia.
Qed.

Lemma sum_over_visible {A} (mk : FsNode -> A) (f : A -> Z) entries :
  sum_over f (map mk (List.filter visible entries))
  = sum_over (fun e => if visible e then f (mk e) else 0) entries.
Proof.
  induction entries as [|e entries IH]; [done|].
  cbn [List.filter]. rewrite sum_over_cons. destruct (visible e).
  - cbn [map]. rewrite sum_over_cons. lia.
  - lia.
Qed.

Lemma sum_over_ext {A} (f g : A -> Z) l :
  (forall x, In x l -> f x = g x) -> sum_over f l = sum_over g l.
Proof.
  induction l as [|x l IH]; intros Hfg; [done|]. rewrite !sum_over_cons.
  rewrite Hfg by (by left). rewrite IH; [done|]. intros y Hy. apply Hfg. by right.
Qed.

(** The loop over folders that can be read: each counts for one, and for
    what the call on it returns when the level below is shown. *)
Lemma print_items_total below extensions prefix deeper n_items (g : FsNode -> Z) rest :
  Forall (fun it => readable (snd it) = true /\ visible (snd it) = true) rest ->
  (deeper = true ->
   forall item sub new_prefix out, In (item, sub) rest ->
     exists out', below item sub new_prefix out = (Returns (g sub), out')) ->
  forall i total_folders out,
    exists out',
      print_items below extensions prefix deeper n_items rest i total_folders out
      = (Returns (total_folders
                  + sum_over (fun it => 1 + if deeper then g (snd it) else 0) rest),
         out').
Proof.
  induction 1 as [|[item sub] rest [Hr Hv] _ IH]; intros Hbelow i total_folders out;
    cbn [print_items].
  - rewrite sum_over_nil, Z.add_0_r. by eexists.
  - destruct sub as [nm|nm l es|nm|nm]; try done. cbn [snd] in *.
    destruct (count_tracks_returns item nm l es extensions Hr) as [c ->].
    pose proof Hr as [-> Hes]%readable_dir.
    cbn [iterdir obind]. rewrite visible_dirs_readable by done.
    unfold st_bind at 1, st_lift at 1. unfold st_bind at 1, st_lift at 1. cbn [obind].
    unfold st_bind at 1, print at 1.
    rewrite sum_over_cons. cbn [snd].
    destruct deeper.
    + unfold st_bind at 1. unfold st_bind at 1.
      match goal with |- context [below item ?s ?np ?o] =>
        destruct (Hbelow eq_refl item s np o) as [o' ->]; [by left|]
      end.
      unfold st_ret at 1.
      match goal with |- context [print_items _ _ _ _ _ rest ?i' ?t' ?o''] =>
        destruct (IH (fun _ it sb np o Hin => Hbelow eq_refl it sb np o (or_intror Hin))
                    i' t' o'') as [out' ->]
      end.
      exists out'. f_equal. f_equal. lia.
    + unfold st_bind at 1, st_ret at 1.
      match goal with |- context [print_items _ _ _ _ _ rest ?i' ?t' ?o''] =>
        destruct (IH (fun E => False_ind _ (Bool.diff_false_true E)) i' t' o'')
          as [out' ->]
      end.
      exists out'. f_equal. f_equal. lia.
Qed.

(** X28. On a folder tree that can be read throughout, [print_folder_tree]
    returns the number of visible folders found within
    [max_depth - depth + 1] levels below the folder it is called on: a
    call at depth 0 counts the folders of [max_depth + 1] levels, one
    level for [max_depth = 0], and none at all for a negative [max_depth]. *)
Theorem print_folder_tree_counts_folders (fuel : nat) (max_depth : Z)
  (extensions : gset str) (folder : Path) (name : str) (listable : bool)
  (entries : list FsNode) (prefix : str) (depth : Z) (out : list str) :
  readable (FsDir name listable entries) = true ->
  (Z.to_nat (max_depth - depth + 1) < fuel)%nat ->
  exists out',
    print_folder_tree fuel max_depth extensions folder (FsDir name listable entries)
      prefix depth out
    = (Returns (folders_within (Z.to_nat (max_depth - depth + 1))
                  (FsDir name listable entries)), out').
Proof.
  revert folder name listable entries prefix depth out.
  induction fuel as [|fuel IH]; intros folder name listable entries prefix depth out Hr Hf;
    [lia|].
  cbn [print_folder_tree].
  destruct (depth >? max_depth) eqn:Hd.
  { replace (Z.to_nat (max_depth - depth + 1)) with 0%nat by lia. by eexists. }
  pose proof Hr as [-> Hes]%readable_dir.
  cbn [iterdir obind]. rewrite visible_dirs_readable by done.
  set (dirs := map (fun e => (path_child folder (fs_name e), e)) (List.filter visible entries)).
  set (ltb := fun a b : Path * FsNode => path_ltb (fst a) (fst b)).
  pose proof (sorted_perm ltb dirs) as Hperm.
  assert (exists k, Z.to_nat (max_depth - depth + 1) = S k
                    /\ k = Z.to_nat (max_depth - depth)) as (k & Hk & Hk').
  { exists (Z.to_nat (max_depth - depth)). split; [lia|done]. }
  rewrite Hk in *.
  destruct (print_items_total
              (fun item sub new_prefix =>
                 print_folder_tree fuel max_depth extensions item sub new_prefix (depth + 1))
              extensions prefix (depth <? max_depth) (length (sorted ltb dirs))
              (folders_within k) (sorted ltb dirs)) with (i := 0%nat) (total_folders := 0)
              (out := out) as [out' ->].
  - apply Forall_forall. intros it Hit.
    apply list_elem_of_In in Hit. apply (Permutation_in _ Hperm) in Hit.
    apply in_map_iff in Hit as (e & <- & [He Hv]%filter_In). cbn [snd].
    rewrite Forall_forall in Hes. split; [|done]. by apply Hes, list_elem_of_In.
  - intros Hdeep item sub new_prefix o Hin.
    apply (Permutation_in _ Hperm), in_map_iff in Hin as (e & He & [Hin Hv]%filter_In).
    injection He as <- <-.
    destruct e as [nm|nm l es|nm|nm]; try done.
    replace k with (Z.to_nat (max_depth - (depth + 1) + 1)) by lia.
    apply IH; [|lia].
    rewrite Forall_forall in Hes. by apply Hes, list_elem_of_In.
  - exists out'. f_equal. f_equal. rewrite Z.add_0_l.
    rewrite (sum_over_perm _ _ _ Hperm). unfold dirs. rewrite sum_over_visible.
    cbn [folders_within snd]. apply sum_over_ext. intros e _.
    destruct (visible e); [|done]. f_equal.
    destruct (depth <? max_depth) eqn:Hlt; [done|].
    assert (k = 0%nat) as -> by lia. done.
Qed.

(** ** A crate for every folder *)

Lemma sum_over_app {A} (f : A -> Z) l l' :
  sum_over f (l ++ l') = sum_over f l + sum_over f l'.
Proof.
  induction l as [|x l IH]; cbn [app]; rewrite ?sum_over_cons, ?sum_over_nil; lia.
Qed.

Lemma sum_over_map {A B} (f : B -> Z) (g : A -> B) l :
  sum_over f (map g l) = sum_over (fun x => f (g x)) l.
Proof.
  induction l as [|x l IH]; cbn [map]; rewrite ?sum_over_cons, ?sum_over_nil; lia.
Qed.

Lemma collect_children_readable build items :
  Forall (fun it => readable (snd it) = true
                    /\ path_name (fst it) = fs_name (snd it)) items ->
  (forall sub n, In (sub, n) items -> visible n = true ->
     exists c, build sub n = Returns (Some c) /\ plan_crates c = 1 + folders_below n) ->
  forall acc,
    exists cs,
      collect_children build items acc = Returns cs
      /\ sum_over plan_crates cs
         = sum_over plan_crates acc
           + sum_over (fun it => if visible (snd it) then 1 + folders_below (snd it) else 0)
               items.
Proof.
  induction 1 as [|[sub n] items [Hr Hn] _ IH]; intros Hb acc; cbn [collect_children].
  - exists acc. rewrite sum_over_nil. split; [done|lia].
  - assert (forall acc, exists cs,
              collect_children build items acc = Returns cs
              /\ sum_over plan_crates cs
                 = sum_over plan_crates acc
                   + sum_over (fun it => if visible (snd it)
                                         then 1 + folders_below (snd it) else 0) items)
      as IH'.
    { apply IH. intros s m Hin. apply Hb. by right. }
    rewrite sum_over_cons. cbn [fst snd] in *.
    destruct n as [nm|nm l es|nm|nm]; cbn [is_dir visible]; try done;
      try (destruct (IH' acc) as (cs & -> & Hcs); exists cs; split; [done|lia]).
    rewrite Hn. cbn [fs_name].
    destruct (startswith [46] nm) eqn:Hdot; cbn [negb].
    + destruct (IH' acc) as (cs & -> & Hcs). exists cs. split; [done|lia].
    + destruct (Hb sub (FsDir nm l es)) as (c & -> & Hc); [by left|by cbn [visible]; rewrite Hdot|].
      destruct (IH' (acc ++ [c])) as (cs & -> & Hcs). exists cs. split; [done|].
      rewrite Hcs, sum_over_app, sum_over_cons, sum_over_nil. lia.
Qed.

(** X29. With [include_empty], every visible folder gets its crate. On a
    folder tree that can be read throughout and is no deeper than the
    interpreter allows calls, [build_crate_tree] returns a crate for the
    folder it is called on, and the tree below that crate has exactly one
    crate more than there are visible folders below the folder, at any
    depth. *)
Theorem build_crate_tree_every_folder (depth : nat) (folder : Path) (name : str)
  (listable : bool) (entries : list FsNode) (extensions : gset str)
  (parent : option str) :
  readable (FsDir name listable entries) = true ->
  (fs_height (FsDir name listable entries) <= depth)%nat ->
  exists c,
    build_crate_tree depth folder (FsDir name listable entries) extensions parent true
      = Returns (Some c)
    /\ plan_crates c = 1 + folders_below (FsDir name listable entries).
Proof.
  revert folder name listable entries parent.
  induction depth as [|depth IH]; intros folder name listable entries parent Hr Hh.
  { simpl in Hh. lia. }
  rewrite build_crate_tree_unfold. cbn [is_dir].
  destruct (scan_folder_returns folder name listable entries extensions) as [ts ->].
  cbn [obind]. pose proof Hr as [-> Hes]%readable_dir.
  unfold subfolder_crates. cbn [iterdir_sorted].
  set (ltb := fun a b : Path * FsNode => path_ltb (fst a) (fst b)).
  set (all := map (fun e => (path_child folder (fs_name e), e)) entries).
  pose proof (sorted_perm ltb all) as Hperm.
  match goal with |- context [collect_children ?b _ []] =>
    destruct (collect_children_readable b (sorted ltb all)) with (acc := @nil CratePlan)
      as (cs & -> & Hcs)
  end.
  - apply Forall_forall. intros it Hit. apply list_elem_of_In in Hit.
    apply (Permutation_in _ Hperm), in_map_iff in Hit as (e & <- & He). cbn [fst snd].
    rewrite path_name_child. split; [|done].
    rewrite Forall_forall in Hes. by apply Hes, list_elem_of_In.
  - intros sub n Hin Hv.
    apply (Permutation_in _ Hperm), in_map_iff in Hin as (e & He & Hin).
    injection He as <- <-. destruct e as [nm|nm l es|nm|nm]; try done.
    apply IH.
    + rewrite Forall_forall in Hes. by apply Hes, list_elem_of_In.
    + apply fs_height_entry in Hin. simpl in *. lia.
  - cbn [obind]. rewrite orb_true_r. eexists. split; [reflexivity|].
    rewrite plan_crates_unfold. cbn [children]. rewrite Hcs, sum_over_nil.
    rewrite (sum_over_perm _ _ _ Hperm). unfold all. rewrite sum_over_map.
    cbn [snd folders_below]. lia.
Qed.

End Guide.

Lemma print_folder_tree_counts_lines_witness :
  exists lines,
    snd (@print_folder_tree ascii_unicode posix_canonical 4 2 test_extensions
           test_music_root test_music_folder [] 0 []) = [] ++ lines
    /\ Z.of_nat (length lines) = 5.
Proof.
  apply (@print_folder_tree_counts_lines ascii_unicode posix_canonical 4 2 test_extensions
           test_music_root test_music_folder [] 0 []).
  vm_compute. reflexivity.
Defined.

Lemma print_folder_tree_counts_folders_witness :
  exists out',
    @print_folder_tree ascii_unicode posix_canonical 4 0 test_extensions
      test_music_root test_music_folder [] 0 []
    = (Returns (folders_within 1 test_music_folder), out').
Proof.
  apply (@print_folder_tree_counts_folders ascii_unicode posix_canonical 4 0 test_extensions
           test_music_root (lit "MusicRoot") true).
  - reflexivity.
  - vm_compute. lia.
Defined.

(** The guide of the test folder with the default of [--max-depth]: five
    folders below the root, the hidden one left out. *)
Example guide_total :
  fst (@print_folder_tree ascii_unicode posix_canonical 4 2 test_extensions
         test_music_root test_music_folder [] 0 []) = Returns 5
  /\ folders_within 3 test_music_folder = 5
  /\ folders_within 1 test_music_folder = 3.
Proof. vm_compute. repeat split; reflexivity. Qed.

Lemma build_crate_tree_every_folder_witness :
  exists c,
    @build_crate_tree ascii_unicode posix_canonical 4 test_music_root test_music_folder
      test_extensions None true = Returns (Some c)
    /\ plan_crates c = 1 + folders_below test_music_folder.
Proof.
  apply (@build_crate_tree_every_folder ascii_unicode posix_canonical 4 test_music_root
           (lit "MusicRoot") true).
  - reflexivity.
  - vm_compute. lia.
Defined.

(** * Which folders get a crate *)

Lemma until_denied_In item items : item ∈ until_denied items -> item ∈ items.
Proof.
  induction items as [|[p n] items IH]; cbn [until_denied]; [done|].
  destruct n as [nm|nm l es|nm|nm];
    try (intros [->|H]%elem_of_cons; [by left|right; by apply IH]).
  intros H. by apply elem_of_nil in H.
Qed.

Lemma until_denied_all items :
  Forall (fun item => forall n, snd item <> FsDenied n) items -> until_denied items = items.
Proof.
  induction 1 as [|[p n] items Hn _ IH]; cbn [until_denied]; [done|].
  destruct n as [nm|nm l es|nm|nm]; try (by rewrite IH). by destruct (Hn nm).
Qed.

Section Presence.
Context `{U : Unicode} `{P : Platform}.

Lemma scan_items_seen items extensions acc :
  scan_items items extensions acc
  = Returns (acc ++ map fst (List.filter (is_track extensions) (until_denied items))).
Proof.
  revert acc; induction items as [|[p n] items IH]; intros acc;
    cbn [scan_items until_denied].
  { cbn. by rewrite app_nil_r. }
  unfold is_audio_file.
  destruct n as [nm|nm l es|nm|nm]; cbn [is_file obind andb List.filter is_track snd fst].
  - destruct (bool_decide _); rewrite IH; cbn [map fst]; [|done].
    by rewrite <- app_assoc.
  - by rewrite IH.
  - by rewrite IH.
  - cbn. by rewrite app_nil_r.
Qed.

Lemma scan_folder_seen folder name listable entries extensions :
  scan_folder_for_tracks folder (FsDir name listable entries) extensions
  = Returns (map fst (List.filter (is_track extensions)
                        (seen folder (FsDir name listable entries)))).
Proof.
  unfold scan_folder_for_tracks, seen. cbn [iterdir_sorted].
  destruct listable; [|done]. apply (scan_items_seen _ _ []).
Qed.

Lemma collect_children_seen build items acc :
  (forall item, item ∈ until_denied items -> is_subfolder item = true ->
                exists r, build (fst item) (snd item) = Returns r) ->
  exists cs,
    collect_children build items acc = Returns (acc ++ cs)
    /\ forall c, c ∈ cs <->
                 exists item, item ∈ until_denied items /\ is_subfolder item = true
                              /\ build (fst item) (snd item) = Returns (Some c).
Proof.
  revert acc; induction items as [|[p n] items IH]; intros acc Hb;
    cbn [collect_children until_denied].
  { exists []. rewrite app_nil_r. split; [done|]. intros c. split.
    - intros H. by apply elem_of_nil in H.
    - intros (item & H & _). by apply elem_of_nil in H. }
  destruct n as [nm|nm l es|nm|nm]; cbn [is_dir].
  - destruct (IH acc) as (cs & -> & Hcs).
    { intros item Hi. apply Hb. cbn [until_denied]. by right. }
    exists cs. split; [done|]. intros c. rewrite Hcs. split.
    + intros (item & Hi & Hs & Hr). exists item. split; [by right|done].
    + intros (item & [->|Hi]%elem_of_cons & Hs & Hr); [done|]. by exists item.
  - destruct (negb (startswith [46] (path_name p))) eqn:Hdot.
    + destruct (Hb (p, FsDir nm l es)) as [r Hr]; [by left|exact Hdot|].
      cbn [fst snd] in Hr. rewrite Hr. destruct r as [child|].
      * destruct (IH (acc ++ [child])) as (cs & -> & Hcs).
        { intros item Hi. apply Hb. by right. }
        exists (child :: cs). split; [by rewrite <- app_assoc|].
        intros c. rewrite elem_of_cons, Hcs. split.
        -- intros [->|(item & Hi & Hs & Hc)].
           ++ exists (p, FsDir nm l es). split; [by left|]. split; [exact Hdot|exact Hr].
           ++ exists item. split; [by right|done].
        -- intros (item & [->|Hi]%elem_of_cons & Hs & Hc).
           ++ left. cbn [fst snd] in Hc. congruence.
           ++ right. by exists item.
      * destruct (IH acc) as (cs & -> & Hcs).
        { intros item Hi. apply Hb. by right. }
        exists cs. split; [done|]. intros c. rewrite Hcs. split.
        -- intros (item & Hi & Hs & Hc). exists item. split; [by right|done].
        -- intros (item & [->|Hi]%elem_of_cons & Hs & Hc).
           ++ cbn [fst snd] in Hc. congruence.
           ++ by exists item.
    + destruct (IH acc) as (cs & -> & Hcs).
      { intros item Hi. apply Hb. by right. }
      exists cs. split; [done|]. intros c. rewrite Hcs. split.
      * intros (item & Hi & Hs & Hc). exists item. split; [by right|done].
      * intros (item & [->|Hi]%elem_of_cons & Hs & Hc).
        -- unfold is_subfolder in Hs. cbn [fst snd] in Hs. congruence.
        -- by exists item.
  - destruct (IH acc) as (cs & -> & Hcs).
    { intros item Hi. apply Hb. cbn [until_denied]. by right. }
    exists cs. split; [done|]. intros c. rewrite Hcs. split.
    + intros (item & Hi & Hs & Hr). exists item. split; [by right|done].
    + intros (item & [->|Hi]%elem_of_cons & Hs & Hr); [done|]. by exists item.
  - exists []. rewrite app_nil_r. split; [done|]. intros c. split.
    + intros H. by apply elem_of_nil in H.
    + intros (item & H & _). by apply elem_of_nil in H.
Qed.

Lemma seen_entry folder name listable entries item :
  item ∈ seen folder (FsDir name listable entries) ->
  exists e, In e entries /\ item = (path_child folder (fs_name e), e).
Proof.
  unfold seen. cbn [iterdir_sorted]. destruct listable.
  - intros H%until_denied_In%list_elem_of_In%sorted_In%in_map_iff.
    destruct H as (e & <- & He). by exists e.
  - intros H. by apply elem_of_nil in H.
Qed.

Lemma seen_unlistable folder name entries : seen folder (FsDir name false entries) = [].
Proof. reflexivity. Qed.

(** What the builder returns for a folder, in terms of what the folder
    holds. *)
Lemma build_crate_tree_seen depth :
  forall folder name listable entries extensions parent include_empty,
    (fs_height (FsDir name listable entries) <= depth)%nat ->
    exists r,
      build_crate_tree depth folder (FsDir name listable entries) extensions parent
        include_empty = Returns r
      /\ (is_Some r <->
          appears extensions include_empty folder (FsDir name listable entries))
      /\ forall c, r = Some c ->
           tracks c = map fst (List.filter (is_track extensions)
                                 (seen folder (FsDir name listable entries)))
           /\ forall p,
                (exists child, child ∈ children c /\ path child = p)
                <-> (exists e, (p, e) ∈ seen folder (FsDir name listable entries)
                               /\ is_subfolder (p, e) = true
                               /\ appears extensions include_empty p e).
Proof.
  induction depth as [|depth IH];
    intros folder name listable entries extensions parent include_empty Hh.
  { simpl in Hh. lia. }
  set (node := FsDir name listable entries).
  assert (forall item parent',
            item ∈ seen folder node -> is_subfolder item = true ->
            exists r,
              build_crate_tree depth (fst item) (snd item) extensions parent' include_empty
                = Returns r
              /\ (is_Some r <-> appears extensions include_empty (fst item) (snd item)))
    as Hsub.
  { intros item parent' Hin Hs.
    destruct (seen_entry _ _ _ _ _ Hin) as (e & He & ->).
    unfold is_subfolder in Hs. cbn [fst snd] in *.
    destruct e as [|nm l es| |]; try done.
    apply fs_height_entry in He. cbn [fs_height] in Hh, He.
    destruct (IH (path_child folder (fs_name (FsDir nm l es))) nm l es extensions
                parent' include_empty) as (r & Hr & Hiff & _);
      [cbn [fs_height]; lia|].
    by exists r. }
  rewrite build_crate_tree_unfold. cbn [is_dir].
  unfold node. rewrite scan_folder_seen. fold node. cbn [obind].
  set (ts := map fst (List.filter (is_track extensions) (seen folder node))).
  set (parent' := Some (match parent with
                        | None => path_name folder
                        | Some pn => pn ++ lit "%%" ++ path_name folder
                        end)).
  assert (exists cs,
            subfolder_crates depth folder node extensions parent include_empty = Returns cs
            /\ forall c, c ∈ cs <->
                 exists item, item ∈ seen folder node /\ is_subfolder item = true
                   /\ build_crate_tree depth (fst item) (snd item) extensions parent'
                        include_empty = Returns (Some c)) as (cs & -> & Hcs).
  { unfold subfolder_crates, seen, node. cbn [iterdir_sorted]. destruct listable.
    - match goal with |- context [collect_children ?b ?items []] =>
        destruct (collect_children_seen b items []) as (cs & Hc & Hcs)
      end.
      { intros item Hin Hs.
        destruct (Hsub item parent') as (r & Hr & _); [|done|by exists r].
        unfold seen, node. cbn [iterdir_sorted]. exact Hin. }
      exists cs. split; [exact Hc|exact Hcs].
    - exists []. split; [done|]. intros c. split.
      + intros H. by apply elem_of_nil in H.
      + intros (item & H & _). by apply elem_of_nil in H. }
  cbn [obind].
  assert (truthy ts = true <->
          exists item, item ∈ seen folder node /\ is_track extensions item = true) as Hts.
  { rewrite truthy_nonempty. unfold ts. split.
    - intros Hne. destruct (List.filter _ _) as [|item l] eqn:Hf; [done|].
      assert (In item (List.filter (is_track extensions) (seen folder node))) as Hin
        by (rewrite Hf; by left).
      apply filter_In in Hin as [Hin Ht]. exists item. split; [by apply list_elem_of_In|done].
    - intros (item & Hin & Ht) Hnil.
      assert (In item (List.filter (is_track extensions) (seen folder node))) as Hin'
        by (apply filter_In; split; [by apply list_elem_of_In|done]).
      destruct (List.filter _ _); [done|discriminate Hnil]. }
  assert (truthy cs = true <->
          exists item, item ∈ seen folder node /\ is_subfolder item = true
                       /\ appears extensions include_empty (fst item) (snd item)) as Hch.
  { rewrite truthy_nonempty. split.
    - intros Hne. destruct cs as [|c cs']; [done|].
      destruct (proj1 (Hcs c)) as (item & Hin & Hs & Hr); [by left|].
      exists item. split; [done|]. split; [done|].
      destruct (Hsub item parent' Hin Hs) as (r & Hr' & Hiff).
      apply Hiff. rewrite Hr in Hr'. injection Hr' as <-. by eexists.
    - intros (item & Hin & Hs & Ha) Hnil.
      destruct (Hsub item parent' Hin Hs) as (r & Hr & Hiff).
      pose proof (proj2 Hiff Ha) as [c Hc']. rewrite Hc' in Hr.
      assert (c ∈ cs) as Hc by (apply Hcs; by exists item).
      rewrite Hnil in Hc. by apply elem_of_nil in Hc. }
  assert (truthy ts || truthy cs || include_empty = true
          <-> appears extensions include_empty folder node) as Happ.
  { rewrite !orb_true_iff, Hts, Hch. split.
    - intros [[(item & Hin & Ht)|(item & Hin & Hs & Ha)]|Hie].
      + by eapply appears_track.
      + by eapply appears_child.
      + by apply appears_forced.
    - intros Ha. inversion Ha; subst; [by right|left; left|left; right]; by eexists. }
  destruct (truthy ts || truthy cs || include_empty) eqn:Hj.
  - exists (Some (mkCratePlan (path_name folder) folder parent ts cs)).
    split; [reflexivity|]. split.
    { split; [intros _; by apply Happ|by eexists]. }
    intros c Hc. injection Hc as <-. cbn [tracks children]. split; [done|].
    intros p. split.
    + intros (child & Hin & Hp). apply Hcs in Hin as (item & Hin & Hs & Hr).
      destruct (build_crate_tree_root _ _ _ _ _ _ _ Hr) as (Hpath & _).
      destruct item as [q e]. cbn [fst snd] in *. exists e.
      assert (q = p) as -> by congruence.
      split; [done|]. split; [done|].
      destruct (Hsub (p, e) parent' Hin Hs) as (r & Hr' & Hiff).
      apply Hiff. cbn [fst snd] in Hr'. rewrite Hr in Hr'. injection Hr' as <-. by eexists.
    + intros (e & Hin & Hs & Ha).
      destruct (Hsub (p, e) parent' Hin Hs) as (r & Hr & Hiff).
      pose proof (proj2 Hiff Ha) as [child Hchild]. rewrite Hchild in Hr.
      exists child. split.
      * apply Hcs. by exists (p, e).
      * by destruct (build_crate_tree_root _ _ _ _ _ _ _ Hr) as (Hpath & _).
  - exists None. split; [done|]. split; [|done].
    split; [by intros [? ?]|]. intros Ha. apply Happ in Ha. done.
Qed.

(** C9. Which folders get a crate. For every folder tree that is not
    nested deeper than the interpreter allows calls, [build_crate_tree]
    returns, and it returns a crate for the folder exactly when the folder
    [appears]: empty crates are asked for, or the folder has a track, a
    file with a recognised extension, or it has a subfolder, not hidden,
    that gets a crate itself. The crate holds exactly the tracks of the
    folder, and its children are at exactly the subfolders that get a
    crate; every crate of the tree is there for that reason. The files and
    subfolders in question are the entries of the folder up to the first
    that refuses access, which is all of them when the folder can be
    listed and none refuses. *)
Theorem build_crate_tree_presence (depth : nat) (folder : Path) (name : str)
  (listable : bool) (entries : list FsNode) (extensions : gset str)
  (parent : option str) (include_empty : bool) :
  (fs_height (FsDir name listable entries) <= depth)%nat ->
  exists r,
    build_crate_tree depth folder (FsDir name listable entries) extensions parent
      include_empty = Returns r
    /\ (is_Some r <-> appears extensions include_empty folder (FsDir name listable entries))
    /\ (forall c, r = Some c ->
          tracks c = map fst (List.filter (is_track extensions)
                                (seen folder (FsDir name listable entries)))
          /\ (forall p,
                (exists child, child ∈ children c /\ path child = p)
                <-> (exists e, (p, e) ∈ seen folder (FsDir name listable entries)
                               /\ is_subfolder (p, e) = true
                               /\ appears extensions include_empty p e))
          /\ every_crate (justified include_empty) c)
    /\ (include_empty = false ->
        Forall (fun e => is_track extensions (path_child folder (fs_name e), e) = false)
          entries ->
        Forall (fun e => is_subfolder (path_child folder (fs_name e), e) = true ->
                         ~ appears extensions include_empty
                             (path_child folder (fs_name e)) e) entries ->
        r = None)
    /\ (listable = true ->
        Forall (fun e => forall n, e <> FsDenied n) entries ->
        seen folder (FsDir name listable entries)
        ≡ₚ map (fun e => (path_child folder (fs_name e), e)) entries).
Proof.
  intros Hh.
  destruct (build_crate_tree_seen depth folder name listable entries extensions parent
              include_empty Hh) as (r & Hr & Hiff & Htree).
  exists r. split; [exact Hr|]. split; [exact Hiff|]. split; [|split].
  - intros c ->. destruct (Htree c eq_refl) as [Ht Hc].
    split; [exact Ht|]. split; [exact Hc|].
    by eapply build_crate_tree_justified.
  - intros Hie Hfiles Hdirs. destruct r as [c|]; [|done].
    assert (appears extensions include_empty folder (FsDir name listable entries)) as Ha
      by (apply Hiff; by eexists).
    rewrite Forall_forall in Hfiles, Hdirs.
    inversion Ha as [? ? ? ? Hf|? ? ? ? item Hin Ht|? ? ? ? item Hin Hs Hsub]; subst.
    + congruence.
    + destruct (seen_entry _ _ _ _ _ Hin) as (e & He & ->).
      rewrite Hfiles in Ht by (by apply list_elem_of_In). done.
    + destruct (seen_entry _ _ _ _ _ Hin) as (e & He & ->).
      destruct (Hdirs e); [by apply list_elem_of_In|done|done].
  - intros -> Hok. unfold seen. cbn [iterdir_sorted].
    rewrite until_denied_all.
    + apply sorted_perm.
    + apply Forall_forall. intros item Hin%list_elem_of_In%sorted_In%in_map_iff.
      destruct Hin as (e & <- & He). cbn [snd]. intros n ->.
      rewrite Forall_forall in Hok.
      apply (Hok (FsDenied n) (proj2 (list_elem_of_In _ _) He) n eq_refl).
Qed.

End Presence.

(** The music folder of the test suite, scanned: it gets a crate, with a
    child at [House] and at [HipHop] and none at the empty and at the
    hidden folder. *)
Lemma build_crate_tree_presence_witness :
  exists r,
    @build_crate_tree ascii_unicode posix_canonical 4 test_music_root test_music_folder
      test_extensions None false = Returns r
    /\ (is_Some r <-> @appears ascii_unicode posix_canonical test_extensions false
                        test_music_root test_music_folder)
    /\ (forall c, r = Some c ->
          tracks c = map fst (List.filter (@is_track ascii_unicode test_extensions)
                                (@seen ascii_unicode posix_canonical test_music_root
                                   test_music_folder))
          /\ (forall p,
                (exists child, child ∈ children c /\ path child = p)
                <-> (exists e, (p, e) ∈ @seen ascii_unicode posix_canonical test_music_root
                                          test_music_folder
                               /\ is_subfolder (p, e) = true
                               /\ @appears ascii_unicode posix_canonical test_extensions
                                    false p e))
          /\ every_crate (justified false) c).
Proof.
  destruct (@build_crate_tree_presence ascii_unicode posix_canonical 4 test_music_root
              (lit "MusicRoot") true test_music_entries test_extensions None false)
    as (r & Hr & Hiff & Htree & _); [vm_compute; lia|].
  exists r. split; [exact Hr|]. split; [exact Hiff|exact Htree].
Defined.

(** A folder with nothing but a track gets a crate; the same folder with
    an entry that refuses access sorted before the track does not, since
    the scan ends at that entry. *)
Example track_behind_refusal :
  is_Some (match @build_crate_tree ascii_unicode posix_canonical 2
                   (path_child test_music_root (lit "Live"))
                   (FsDir (lit "Live") true [FsFile (lit "set.mp3")])
                   test_extensions None false with
           | Returns r => r
           | _ => None
           end)
  /\ @build_crate_tree ascii_unicode posix_canonical 2
       (path_child test_music_root (lit "Live")) guarded_folder test_extensions None false
     = Returns None
  /\ @seen ascii_unicode posix_canonical (path_child test_music_root (lit "Live"))
       guarded_folder = [].
Proof. vm_compute. split; [by eexists|done]. Qed.

(** * The crates a run writes, skips and gives up *)

Lemma count_events_app p l1 l2 :
  count_events p (l1 ++ l2) = count_events p l1 + count_events p l2.
Proof. unfold count_events. rewrite List.filter_app, length_app. lia. Qed.

Lemma count_events_nonneg p l : 0 <= count_events p l.
Proof. unfold count_events. lia. Qed.

Lemma tallied_refl counts w : tallied 0 counts counts w w.
Proof. exists []. rewrite app_nil_r. unfold count_events. simpl. repeat split; lia. Qed.

Lemma tallied_trans n1 n2 c0 c1 c2 w0 w1 w2 :
  tallied n1 c0 c1 w0 w1 -> tallied n2 c1 c2 w1 w2 -> tallied (n1 + n2) c0 c2 w0 w2.
Proof.
  intros (l1 & T1 & A1 & B1 & C1) (l2 & T2 & A2 & B2 & C2). exists (l1 ++ l2).
  rewrite !count_events_app, T2, T1, app_assoc. repeat split; lia.
Qed.

Lemma same_trace_refl w : same_trace w w.
Proof. reflexivity. Qed.

Lemma same_trace_trans w1 w2 w3 : same_trace w1 w2 -> same_trace w2 w3 -> same_trace w1 w3.
Proof. unfold same_trace. congruence. Qed.

Section Tally.
Context `{U : Unicode} `{P : Platform} `{Sy : System}.

Lemma syscall_same_trace : stable same_trace syscall.
Proof. intros w. unfold syscall, same_trace. by destruct (fails _). Qed.

Lemma get_world_same_trace : stable same_trace get_world.
Proof. intros w. reflexivity. Qed.

Lemma set_subcrates_same_trace d : stable same_trace (set_subcrates d).
Proof. intros w. reflexivity. Qed.

Lemma write_file_same_trace file_name chunks :
  stable same_trace (fun w => (Returns tt, write_file file_name chunks w)).
Proof. intros w. unfold same_trace, write_file. cbn [snd]. by destruct (subcrates w). Qed.

Ltac quiet_steps :=
  repeat first
    [ simple apply (stable_ret _ same_trace_refl)
    | simple apply (stable_lift _ same_trace_refl)
    | simple apply syscall_same_trace | simple apply get_world_same_trace
    | simple apply set_subcrates_same_trace | simple apply write_file_same_trace
    | match goal with H : _ |- stable _ _ => simple apply H end
    | simple apply (stable_bind _ same_trace_trans); [|intros ?]
    | match goal with |- stable _ (match ?x with _ => _ end) => destruct x end ].

Lemma open_and_write_same_trace file_name chunks :
  stable same_trace (open_and_write file_name chunks).
Proof. unfold open_and_write. quiet_steps. Qed.

Lemma mkdir_same_trace : stable same_trace mkdir_subcrates.
Proof. unfold mkdir_subcrates. quiet_steps. Qed.

Lemma write_with_library_same_trace write crate_file c pm mr :
  stable same_trace (write_with_library write crate_file c pm mr).
Proof.
  unfold write_with_library. pose proof open_and_write_same_trace. quiet_steps.
Qed.

Lemma write_crate_binary_same_trace crate_file c resolve :
  stable same_trace (write_crate_binary crate_file c resolve).
Proof.
  unfold write_crate_binary. pose proof open_and_write_same_trace. quiet_steps.
Qed.

(** One crate in the writer: skipped, written by the library, written by
    the fallback, or given up. *)
Lemma write_step_tallied (lib bin : IO unit) fn n counts (skip : bool) w counts1 w1 :
  stable same_trace lib -> stable same_trace bin ->
  (if skip then
     emit (LogSkipping fn) ;;; st_ret (fst counts, snd counts + 1)
   else
     st_try (lib ;;; emit (LogCreated fn n) ;;; st_ret (fst counts + 1, snd counts))
       (fun _ =>
          emit (LogFailed fn) ;;;
          st_try (bin ;;; emit (LogCreatedBinary fn n) ;;; st_ret (fst counts + 1, snd counts))
            (fun _ => emit LogBinaryFailed ;;; st_ret counts)))%st w
  = (Returns counts1, w1) ->
  tallied 1 counts counts1 w w1.
Proof.
  intros Hlib Hbin H. destruct skip.
  - unfold st_bind, emit, st_ret in H. injection H as <- <-.
    exists [LogSkipping fn]. cbn. unfold count_events. cbn. repeat split; lia.
  - unfold st_try at 1, st_bind at 1 in H. pose proof (Hlib w) as Tl.
    destruct (lib w) as [[[]|e|] wa]; cbn [snd] in Tl; unfold same_trace in Tl.
    + unfold st_bind, emit, st_ret in H. injection H as <- <-.
      exists [LogCreated fn n]. cbn [trace]. rewrite Tl. unfold count_events. cbn.
      repeat split; lia.
    + unfold st_bind at 1, emit at 1 in H.
      unfold st_try at 1, st_bind at 1 in H.
      match type of H with context [bin ?w2] => pose proof (Hbin w2) as Tb; revert H Tb;
        destruct (bin w2) as [[[]|e2|] wb]; intros H Tb end;
        cbn [snd] in Tb; unfold same_trace in Tb; cbn [trace] in Tb.
      * unfold st_bind, emit, st_ret in H. injection H as <- <-.
        exists [LogFailed fn; LogCreatedBinary fn n]. cbn [trace].
        rewrite Tb, Tl, <- app_assoc. unfold count_events. cbn. repeat split; lia.
      * unfold st_bind, emit, st_ret in H. injection H as <- <-.
        exists [LogFailed fn; LogBinaryFailed]. cbn [trace].
        rewrite Tb, Tl, <- app_assoc. unfold count_events. cbn. repeat split; lia.
      * discriminate H.
    + discriminate H.
Qed.

Lemma write_crate_recursive_tallied write overwrite delim pm mr c prefix counts w r w' :
  write_crate_recursive write overwrite delim pm mr c prefix counts w = (Returns r, w') ->
  tallied (plan_crates c) counts r w w'.
Proof.
  revert prefix counts w r w'. induction c as [n p pn ts cs IH] using CratePlan_nested_ind.
  intros prefix counts w r w'. cbn [write_crate_recursive]. intros H.
  apply st_bind_returns in H as (crate_filename & w1 & Hs & H).
  assert (w1 = w) as ->.
  { unfold st_lift in Hs. by injection Hs as _ <-. }
  clear Hs.
  apply st_bind_returns in H as (w2 & w3 & Hg & H).
  unfold get_world in Hg. injection Hg as <- <-.
  apply st_bind_returns in H as (counts1 & w4 & Hc & H).
  apply write_step_tallied in Hc;
    [|apply write_with_library_same_trace|apply write_crate_binary_same_trace].
  rewrite plan_crates_unfold. cbn [children] in *.
  eapply tallied_trans; [exact Hc|]. clear Hc.
  revert counts1 w4 H.
  induction IH as [|c cs Hc _ IHcs]; intros counts1 w4 H;
    rewrite ?sum_over_cons, ?sum_over_nil.
  - unfold st_ret in H. injection H as <- <-. apply tallied_refl.
  - apply st_bind_returns in H as (counts2 & w5 & H1 & H).
    eapply tallied_trans; [eapply Hc, H1|eapply IHcs, H].
Qed.

Lemma write_each_tallied write overwrite delim pm mr cs counts w r w' :
  write_each write overwrite delim pm mr cs counts w = (Returns r, w') ->
  tallied (sum_over plan_crates cs) counts r w w'.
Proof.
  revert counts w; induction cs as [|c cs IH]; intros counts w H; cbn [write_each] in H;
    rewrite ?sum_over_cons, ?sum_over_nil.
  - unfold st_ret in H. injection H as <- <-. apply tallied_refl.
  - apply st_bind_returns in H as (counts1 & w2 & H1 & H).
    eapply tallied_trans; [eapply write_crate_recursive_tallied, H1|eapply IH, H].
Qed.

(** X18. The two numbers [write_crates_with_serato_crate] returns are
    counts of crates of the plan: neither is negative, and together they
    are at most the number of crates that [count_crates_and_tracks] counts
    in the plan. The first is the number of crates the run reports as
    created, by the library or by the fallback, and the second the number
    it reports as skipped. With the library installed, every crate of the
    plan is reported as created, as skipped or as given up, when the
    fallback failed as well: a crate neither the library nor the fallback
    could write is in neither count. *)
Theorem write_crates_counts_within_plan (plan : SyncPlan) (overwrite : bool)
  (subcrate_delimiter path_mode : str) (w w' : World) (created skipped : Z) :
  write_crates_with_serato_crate plan overwrite subcrate_delimiter path_mode w
    = (Returns (created, skipped), w') ->
  0 <= created /\ 0 <= skipped
  /\ created + skipped <= fst (count_crates_and_tracks (crates plan))
  /\ exists later,
       trace w' = trace w ++ later
       /\ created = count_events reports_created later
       /\ skipped = count_events reports_skipped later
       /\ (serato_crate <> None ->
           created + skipped + count_events reports_given_up later
           = fst (count_crates_and_tracks (crates plan))).
Proof.
  unfold write_crates_with_serato_crate. intros H.
  assert (fst (count_crates_and_tracks (crates plan)) = sum_over plan_crates (crates plan))
    as ->.
  { unfold count_crates_and_tracks. rewrite fold_count_sums; [done|].
    apply Forall_forall. intros; apply count_recursive_sums. }
  destruct serato_crate as [write|].
  - apply st_bind_returns in H as ([] & w1 & Hm & H).
    pose proof (mkdir_same_trace w) as Tm. rewrite Hm in Tm. cbn [snd] in Tm.
    apply write_each_tallied in H as (later & Ht & Hc & Hs & Hall).
    cbn [fst snd] in Hc, Hs.
    pose proof (count_events_nonneg reports_created later).
    pose proof (count_events_nonneg reports_skipped later).
    pose proof (count_events_nonneg reports_given_up later).
    split; [lia|]. split; [lia|]. split; [lia|].
    exists later. rewrite Ht, Tm. repeat split; try lia. 
  - unfold st_bind, emit, st_ret in H. injection H as <- <- <-.
    assert (0 <= sum_over plan_crates (crates plan)).
    { induction (crates plan) as [|c cs IH]; rewrite ?sum_over_cons, ?sum_over_nil; [done|].
      pose proof (plan_crates_pos c). lia. }
    split; [lia|]. split; [lia|]. split; [lia|].
    exists [LogNotInstalled]. cbn [trace]. unfold count_events. cbn.
    repeat split; try lia. intros Hne. by destruct Hne.
Qed.

End Tally.

(** The sample plan written to a disk that refuses two calls, into a
    folder that holds [House.crate]: that crate is skipped, [House%%Deep]
    can be opened neither by the library nor by the fallback and is given
    up, the other two are created. *)
Lemma write_crates_counts_within_plan_witness :
  0 <= 2 /\ 0 <= 1
  /\ 2 + 1 <= fst (count_crates_and_tracks (crates sample_plan))
  /\ exists later,
       trace (snd (@write_crates_with_serato_crate ascii_unicode posix_canonical
                     flaky_disk_system sample_plan false (lit "%%") (lit "absolute")
                     house_world))
       = trace house_world ++ later
       /\ 2 = count_events reports_created later
       /\ 1 = count_events reports_skipped later
       /\ (@serato_crate flaky_disk_system <> None ->
           2 + 1 + count_events reports_given_up later
           = fst (count_crates_and_tracks (crates sample_plan))).
Proof.
  apply (@write_crates_counts_within_plan ascii_unicode posix_canonical flaky_disk_system
           sample_plan false (lit "%%") (lit "absolute") house_world
           (snd (@write_crates_with_serato_crate ascii_unicode posix_canonical
                   flaky_disk_system sample_plan false (lit "%%") (lit "absolute")
                   house_world))).
  vm_compute. reflexivity.
Defined.

Example flaky_disk_gives_up_one :
  let run := @write_crates_with_serato_crate ascii_unicode posix_canonical
               flaky_disk_system sample_plan false (lit "%%") (lit "absolute")
               house_world in
  fst run = Returns (2, 1)
  /\ count_events reports_given_up (trace (snd run)) = 1
  /\ fst (count_crates_and_tracks (crates sample_plan)) = 4.
Proof. vm_compute. done. Qed.

(** * A run with [clean] *)

Lemma emits_only_refl allowed w : emits_only allowed w w.
Proof. exists []. by rewrite app_nil_r. Qed.

Lemma emits_only_trans allowed w1 w2 w3 :
  emits_only allowed w1 w2 -> emits_only allowed w2 w3 -> emits_only allowed w1 w3.
Proof.
  intros (l1 & T1 & A1) (l2 & T2 & A2). exists (l1 ++ l2).
  rewrite T2, T1, app_assoc. split; [done|]. by apply Forall_app.
Qed.

Lemma emits_bind {A B} allowed (m : IO A) (k : A -> IO B) w :
  emits_only allowed w (snd (m w)) ->
  (forall a w1, m w = (Returns a, w1) -> emits_only allowed w1 (snd (k a w1))) ->
  emits_only allowed w (snd (st_bind m k w)).
Proof.
  intros Hm Hk. unfold st_bind. destruct (m w) as [[a|e|] w1]; cbn [snd] in *; [|done|done].
  eapply emits_only_trans; [exact Hm|]. by apply Hk.
Qed.

Lemma st_bind_intro {S A B} (m : ST S A) (k : A -> ST S B) s a s1 r :
  m s = (Returns a, s1) -> k a s1 = r -> st_bind m k s = r.
Proof. intros Hm Hk. unfold st_bind. by rewrite Hm. Qed.

Section Cleaning.
Context `{U : Unicode} `{P : Platform} `{Sy : System}.
Variable files : gmap str bytes.

Lemma emit_allowed ev :
  clean_run_event files ev -> stable (emits_only (clean_run_event files)) (emit ev).
Proof. intros H w. exists [ev]. split; [done|]. by constructor. Qed.

Lemma quiet_emits_only {A} (m : IO A) :
  stable same_trace m -> stable (emits_only (clean_run_event files)) m.
Proof. intros H w. exists []. rewrite app_nil_r. split; [apply H|constructor]. Qed.

Ltac clean_steps :=
  repeat first
    [ simple apply (stable_ret _ (emits_only_refl (clean_run_event files)))
    | simple apply (stable_lift _ (emits_only_refl (clean_run_event files)))
    | (simple apply emit_allowed; exact I)
    | match goal with H : _ |- stable _ _ => simple apply H end
    | simple apply (stable_bind _ (emits_only_trans (clean_run_event files))); [|intros ?]
    | simple apply (stable_try _ (emits_only_trans (clean_run_event files))); [|intros ?]
    | match goal with |- stable _ (match ?x with _ => _ end) => destruct x end
    | match goal with |- stable _ (if ?x then _ else _) => destruct x end ].

Lemma write_crate_recursive_clean write delim pm mr c prefix counts :
  stable (emits_only (clean_run_event files))
    (write_crate_recursive write true delim pm mr c prefix counts).
Proof.
  revert prefix counts. induction c as [n p pn ts cs IH] using CratePlan_nested_ind.
  intros prefix counts. cbn [write_crate_recursive].
  apply (stable_bind _ (emits_only_trans _)); [clean_steps|intros crate_filename].
  apply (stable_bind _ (emits_only_trans _));
    [apply quiet_emits_only, get_world_same_trace|intros w0].
  apply (stable_bind _ (emits_only_trans _)).
  { cbn [negb]. rewrite andb_false_r.
    pose proof (quiet_emits_only _
      (write_with_library_same_trace write (crate_filename ++ lit ".crate")
         (mkCratePlan n p pn ts cs) pm mr)) as Hlib.
    pose proof (quiet_emits_only _
      (write_crate_binary_same_trace (crate_filename ++ lit ".crate")
         (mkCratePlan n p pn ts cs) (resolve_track_path pm mr))) as Hbin.
    clean_steps. }
  intros counts'. cbn [children]. revert counts'.
  induction IH as [|c cs Hc _ IHcs]; intros counts'; [clean_steps|].
  apply (stable_bind _ (emits_only_trans _)); [apply Hc|apply IHcs].
Qed.

Lemma write_crates_clean plan delim pm :
  stable (emits_only (clean_run_event files))
    (write_crates_with_serato_crate plan true delim pm).
Proof.
  unfold write_crates_with_serato_crate. destruct serato_crate as [write|]; [|clean_steps].
  apply (stable_bind _ (emits_only_trans _));
    [apply quiet_emits_only, mkdir_same_trace|intros _].
  generalize (0, 0). induction (crates plan) as [|c cs IH]; intros counts; cbn [write_each].
  - clean_steps.
  - apply (stable_bind _ (emits_only_trans _));
      [apply write_crate_recursive_clean|intros ?; apply IH].
Qed.

Lemma clean_loop_clean l d :
  (forall f, f ∈ l -> is_Some (files !! f)) ->
  stable (emits_only (clean_run_event files)) (clean_loop l d).
Proof.
  revert d. induction l as [|f l IH]; intros d Hin; cbn [clean_loop]; [clean_steps|].
  apply (stable_bind _ (emits_only_trans _)).
  - apply (stable_try _ (emits_only_trans _)); [|intros ?; clean_steps].
    apply (stable_bind _ (emits_only_trans _)).
    + apply quiet_emits_only. unfold unlink.
      apply (stable_bind _ same_trace_trans); [apply syscall_same_trace|intros ?].
      apply (stable_bind _ same_trace_trans); [apply get_world_same_trace|intros w0].
      destruct (subcrates w0); [apply set_subcrates_same_trace|].
      apply (stable_lift _ same_trace_refl).
    + intros ?. apply (stable_bind _ (emits_only_trans _)); [|intros ?; clean_steps].
      apply emit_allowed. cbn. apply Hin. by left.
  - intros d'. apply IH. intros g Hg. apply Hin. by right.
Qed.

Lemma clean_existing_clean w :
  within_files files w -> emits_only (clean_run_event files) w (snd (clean_existing_crates w)).
Proof.
  intros Hw. unfold clean_existing_crates, st_bind, get_world.
  destruct (subcrates w) as [cur|] eqn:Hs; [|apply emits_only_refl].
  apply clean_loop_clean. intros f [_ Hf]%glob_crate_spec. by eapply Hw.
Qed.

Lemma mkdir_within w u w' :
  mkdir_subcrates w = (Returns u, w') -> within_files files w -> within_files files w'.
Proof.
  unfold mkdir_subcrates. intros H Hw.
  apply st_bind_returns in H as (? & w1 & Hc & H).
  destruct (syscall_cases w) as [[E _]|[E _]]; rewrite E in Hc; [|discriminate Hc].
  injection Hc as _ <-.
  apply st_bind_returns in H as (w2 & w3 & Hg & H).
  unfold get_world in Hg. injection Hg as <- <-. cbn [subcrates ticked] in H.
  destruct (subcrates w) as [cur|] eqn:Hs.
  - unfold st_ret in H. injection H as _ <-. intros c f Hc. cbn [subcrates ticked] in Hc.
    by apply Hw.
  - unfold set_subcrates in H. injection H as _ <-. intros c f Hc.
    cbn [subcrates] in Hc. injection Hc as <-. intros [data Hdata].
    by rewrite lookup_empty in Hdata.
Qed.

(** After the backup and its announcement: when [Subcrates] holds only
    files of [files], a run with [clean] reports no crate as skipped, and
    as deleted only files of [files]. *)
Lemma clean_run_after_backup plan overwrite delim pm w backup_path w1 :
  backup_subcrates w = (Returns backup_path, w1) ->
  within_files files w1 ->
  emits_only (clean_run_event files)
    (match backup_path with
     | Some b => {| subcrates := subcrates w1; siblings := siblings w1; ticks := ticks w1;
                    trace := trace w1 ++ [PrintBackupCreated b] |}
     | None => w1
     end)
    (snd (execute_sync plan overwrite true delim pm w)).
Proof.
  intros Hb Hw. unfold execute_sync, st_bind at 1. rewrite Hb.
  rewrite orb_true_r. unfold st_bind at 1.
  match goal with |- emits_only _ ?x _ => set (w2 := x) end.
  assert (within_files files w2) as Hw2.
  { unfold w2. destruct backup_path; [|exact Hw]. intros cur f Hc. cbn [subcrates] in Hc.
    by apply Hw. }
  assert (forall (k : unit -> IO bool),
            emits_only (clean_run_event files) w2 (snd (k tt w2)) ->
            emits_only (clean_run_event files) w2
              (snd (let (o, s') := match backup_path with
                                   | Some b => emit (PrintBackupCreated b)
                                   | None => st_ret tt
                                   end w1 in
                    match o with
                    | Returns a => k a s'
                    | Raises e => (Raises e, s')
                    | Loops => (Loops, s')
                    end))) as Hstep.
  { intros k Hk. unfold w2 in *. by destruct backup_path. }
  apply Hstep. clear Hstep.
  apply emits_bind; [apply quiet_emits_only, mkdir_same_trace|].
  intros [] w3 Hm. pose proof (mkdir_within _ _ _ Hm Hw2) as Hw3.
  apply emits_bind.
  { apply emits_bind; [by apply emit_allowed|]. intros [] w4 He.
    unfold emit in He. injection He as <-.
    apply emits_bind; [by apply clean_existing_clean|].
    intros deleted w5 _. by apply emit_allowed. }
  intros [] w4 _.
  match goal with |- emits_only _ _ (snd (?m w4)) =>
    assert (stable (emits_only (clean_run_event files)) m) as Hst; [|apply Hst] end.
  pose proof (write_crates_clean plan delim pm). clean_steps.
Qed.

End Cleaning.

Section CleanRun.
Context `{U : Unicode} `{P : Platform} `{Sy : System}.

(** The folder a backup is copied to did not exist before. *)
Lemma backup_is_new w b w1 :
  backup_subcrates w = (Returns (Some b), w1) -> siblings w !! b = None.
Proof.
  unfold backup_subcrates, st_bind at 1, get_world. intros Hb.
  destruct (subcrates w) as [files|] eqn:Hs.
  - apply st_bind_returns in Hb as (? & w2 & He & Hb).
    unfold emit in He. injection He as _ <-.
    apply st_bind_returns in Hb as (? & w3 & Hc & Hb).
    unfold st_ret in Hb. injection Hb as <- <-.
    match type of Hc with copytree _ _ ?w0 = _ =>
      destruct (copytree_cases files (lit "Subcrates.BACKUP." ++ timestamp (ticks w)) w0)
        as [(_ & Hfree & _)|[(Hc' & _)|(Hc' & _)]] end.
    + exact Hfree.
    + rewrite Hc' in Hc. discriminate Hc.
    + rewrite Hc' in Hc. discriminate Hc.
  - apply st_bind_returns in Hb as (? & w2 & _ & Hb). unfold st_ret in Hb. discriminate Hb.
Qed.

(** C7: a run with the clean flag set. It does what the run with
    [overwrite] set does, whatever the caller's flag. When the backup
    fails the run ends there, with [Subcrates] as it was and nothing
    reported as deleted. When the backup completes, [Subcrates] is still
    untouched and nothing is reported as deleted up to then, and the copy
    is still in place, whole, at the end of the run. In the output of the
    run no crate is reported as skipped; and if a file is reported as
    deleted, the output begins with the backup being made and announced,
    the backup is a new folder, it holds the file, and it is there at the
    end. Whenever a file of [Subcrates] is gone or changed after the run,
    a new folder of the Serato root holds the files of [Subcrates] as they
    were. A run that returns has gone through the steps in this order: the
    backup, the deletion of the crate files in the folder the backup left,
    and the write step with [overwrite] set in the folder the deletion
    left, which skipped no crate. *)
Theorem execute_sync_clean plan overwrite delim pm w :
  execute_sync plan overwrite true delim pm w = execute_sync plan true true delim pm w
  /\ (forall e w1,
        backup_subcrates w = (Raises e, w1) ->
        execute_sync plan overwrite true delim pm w = (Raises e, w1)
        /\ subcrates w1 = subcrates w
        /\ (forall f, In (LogDeleted f) (trace w1) -> In (LogDeleted f) (trace w)))
  /\ (forall backup_path w1,
        backup_subcrates w = (Returns backup_path, w1) ->
        subcrates w1 = subcrates w
        /\ (forall f, In (LogDeleted f) (trace w1) -> In (LogDeleted f) (trace w))
        /\ (exists later,
              trace (snd (execute_sync plan overwrite true delim pm w)) = trace w1 ++ later)
        /\ (forall files,
              subcrates w = Some files ->
              exists b, backup_path = Some b
                /\ siblings w1 !! b = Some files
                /\ siblings (snd (execute_sync plan overwrite true delim pm w)) !! b
                   = Some files))
  /\ (exists later,
        trace (snd (execute_sync plan overwrite true delim pm w)) = trace w ++ later
        /\ (forall crate_filename, ~ In (LogSkipping crate_filename) later)
        /\ (forall f,
              In (LogDeleted f) later ->
              exists b files rest,
                later = LogCreatingBackup b :: PrintBackupCreated b :: rest
                /\ subcrates w = Some files /\ is_Some (files !! f)
                /\ siblings w !! b = None
                /\ siblings (snd (execute_sync plan overwrite true delim pm w)) !! b
                   = Some files))
  /\ (forall files f data,
        subcrates w = Some files -> files !! f = Some data ->
        subcrates (snd (execute_sync plan overwrite true delim pm w)) ≫= (.!! f)
          <> Some data ->
        exists b,
          siblings w !! b = None
          /\ siblings (snd (execute_sync plan overwrite true delim pm w)) !! b
             = Some files)
  /\ (forall r w',
        execute_sync plan overwrite true delim pm w = (Returns r, w') ->
        exists backup_path w1 w2 deleted w3 created w4 restore,
          backup_subcrates w = (Returns backup_path, w1)
          /\ (match backup_path with
              | Some b => emit (PrintBackupCreated b)
              | None => st_ret tt
              end ;;; mkdir_subcrates ;;; emit PrintCleaning)%st w1 = (Returns tt, w2)
          /\ clean_existing_crates w2 = (Returns deleted, w3)
          /\ (emit (PrintDeleted deleted) ;;; emit PrintWriting ;;;
              write_crates_with_serato_crate plan true delim pm)%st w3
             = (Returns (created, 0), w4)
          /\ r = true
          /\ subcrates w' = subcrates w4 /\ siblings w' = siblings w4
          /\ trace w' = trace w4
                        ++ [PrintSyncComplete; PrintCreated created; PrintSkipped 0]
                        ++ restore).
Proof.
  split; [unfold execute_sync; by rewrite !orb_true_r|].
  split; [|split; [|split; [|split]]].
  - intros e w1 Hb.
    pose proof (backup_subcrates_subcrates w) as Hs.
    pose proof (backup_subcrates_nothing_deleted w) as Hn.
    rewrite Hb in Hs, Hn. split; [|split; [exact Hs|]].
    + unfold execute_sync, st_bind at 1. by rewrite Hb.
    + intros f. by apply nothing_deleted_In.
  - intros backup_path w1 Hb.
    pose proof (backup_subcrates_subcrates w) as Hs.
    pose proof (backup_subcrates_nothing_deleted w) as Hn.
    rewrite Hb in Hs, Hn. split; [exact Hs|]. split.
    { intros f. by apply nothing_deleted_In. }
    split; [exact (execute_sync_trace_grows _ _ _ _ _ _ _ _ Hb)|].
    intros files Hfiles.
    destruct (backup_holds_files _ _ _ _ Hb Hfiles) as (b & -> & Hcopy).
    exists b. split; [done|]. split; [done|].
    by rewrite (execute_sync_keeps_siblings plan overwrite true delim pm _ _ _ Hb).
  - destruct (subcrates w) as [files|] eqn:Hsub.
    + (* there is a folder to back up *)
      set (b := lit "Subcrates.BACKUP." ++ timestamp (ticks w)).
      set (w0 := {| subcrates := subcrates w; siblings := siblings w; ticks := ticks w;
                    trace := trace w ++ [LogCreatingBackup b] |}).
      assert (forall r, copytree files b w0 = r ->
                backup_subcrates w
                = match r with
                  | (Returns _, w1) => (Returns (Some b), w1)
                  | (Raises e, w1) => (Raises e, w1)
                  | (Loops, w1) => (Loops, w1)
                  end) as Hback.
      { intros r <-. unfold backup_subcrates, st_bind at 1, get_world. rewrite Hsub.
        unfold st_bind at 1, emit at 1. fold b. fold w0.
        unfold st_bind at 1. by destruct (copytree files b w0) as [[[]|e|] w1]. }
      destruct (copytree_cases files b w0) as [(Hc & Hfree & _)|[(Hc & _)|(Hc & _)]];
        pose proof (Hback _ Hc) as Hb; cbn iota beta in Hb.
      * match type of Hb with _ = (_, ?x) => set (w1 := x) in * end.
        assert (within_files files w1) as Hw1.
        { intros cur f Hcur. unfold w1 in Hcur. cbn [subcrates] in Hcur.
          unfold w0 in Hcur. cbn [subcrates] in Hcur. rewrite Hsub in Hcur.
          by injection Hcur as <-. }
        destruct (clean_run_after_backup files plan overwrite delim pm w (Some b) w1 Hb Hw1)
          as (rest & Ht & Hall). cbn [trace] in Ht.
        exists (LogCreatingBackup b :: PrintBackupCreated b :: rest).
        split.
        { rewrite Ht. unfold w1, w0. cbn [trace]. by rewrite <- !app_assoc. }
        rewrite Forall_forall in Hall. split.
        { intros fn [Hin|[Hin|Hin]]; [discriminate Hin|discriminate Hin|].
          apply (Hall (LogSkipping fn)). by apply list_elem_of_In. }
        intros f [Hin|[Hin|Hin]]; [discriminate Hin|discriminate Hin|].
        exists b, files, rest. split; [done|]. split; [done|]. split.
        { apply (Hall (LogDeleted f)). by apply list_elem_of_In. }
        split; [exact Hfree|].
        rewrite (execute_sync_keeps_siblings plan overwrite true delim pm _ _ _ Hb).
        unfold w1. cbn [siblings]. apply lookup_insert_eq.
      * exists [LogCreatingBackup b].
        unfold execute_sync, st_bind at 1. rewrite Hb. cbn [snd trace ticked w0].
        split; [done|]. split.
        -- intros fn [Hin|[]]. discriminate Hin.
        -- intros f [Hin|[]]. discriminate Hin.
      * exists [LogCreatingBackup b].
        unfold execute_sync, st_bind at 1. rewrite Hb. cbn [snd trace ticked w0].
        split; [done|]. split.
        -- intros fn [Hin|[]]. discriminate Hin.
        -- intros f [Hin|[]]. discriminate Hin.
    + (* nothing to back up *)
      set (w1 := {| subcrates := subcrates w; siblings := siblings w; ticks := ticks w;
                    trace := trace w ++ [LogNoSubcrates] |}).
      assert (backup_subcrates w = (Returns None, w1)) as Hb.
      { unfold backup_subcrates, st_bind at 1, get_world. by rewrite Hsub. }
      assert (within_files ∅ w1) as Hw1.
      { intros cur f Hcur. unfold w1 in Hcur. cbn [subcrates] in Hcur. congruence. }
      destruct (clean_run_after_backup ∅ plan overwrite delim pm w None w1 Hb Hw1)
        as (later & Ht & Hall).
      exists (LogNoSubcrates :: later). split.
      { rewrite Ht. unfold w1. cbn [trace]. by rewrite <- app_assoc. }
      rewrite Forall_forall in Hall. split.
      * intros fn [Hin|Hin]; [discriminate Hin|].
        apply (Hall (LogSkipping fn)). by apply list_elem_of_In.
      * intros f [Hin|Hin]; [discriminate Hin|].
        apply list_elem_of_In, Hall in Hin. cbn in Hin. destruct Hin as [x Hx].
        by rewrite lookup_empty in Hx.
  - intros files f data Hs Hf Hgone.
    pose proof (backup_subcrates_subcrates w) as Hsame. unfold same_subcrates in Hsame.
    destruct (backup_subcrates w) as [[backup_path|e|] w1] eqn:Hb; cbn [snd] in Hsame.
    + destruct (backup_holds_files _ _ _ _ Hb Hs) as (b & -> & Hcopy).
      exists b. split; [by eapply backup_is_new|].
      by rewrite (execute_sync_keeps_siblings plan overwrite true delim pm _ _ _ Hb).
    + destruct Hgone. unfold execute_sync, st_bind at 1. rewrite Hb. cbn [snd].
      rewrite Hsame, Hs. exact Hf.
    + destruct Hgone. unfold execute_sync, st_bind at 1. rewrite Hb. cbn [snd].
      rewrite Hsame, Hs. exact Hf.
  - intros r w' H. unfold execute_sync in H. rewrite orb_true_r in H.
    apply st_bind_returns in H as (backup_path & w1 & Hb & H).
    apply st_bind_returns in H as ([] & w1a & Ha & H).
    apply st_bind_returns in H as ([] & w1b & Hm & H).
    apply st_bind_returns in H as ([] & w3' & Hblock & H).
    apply st_bind_returns in Hblock as ([] & w2 & Hpc & Hblock).
    apply st_bind_returns in Hblock as (deleted & w3 & Hclean & Hpd).
    apply st_bind_returns in H as ([] & wpw & Hpw & H).
    apply st_bind_returns in H as ([created skipped] & w4 & Hwrite & H).
    assert (skipped = 0) as -> by (by eapply write_crates_no_skip).
    exists backup_path, w1, w2, deleted, w3, created, w4,
      (match backup_path with Some b => [PrintRestore b] | None => [] end).
    split; [exact Hb|]. split.
    { eapply st_bind_intro; [exact Ha|]. eapply st_bind_intro; [exact Hm|]. exact Hpc. }
    split; [exact Hclean|]. split.
    { eapply st_bind_intro; [exact Hpd|]. eapply st_bind_intro; [exact Hpw|]. exact Hwrite. }
    cbn [fst snd] in H.
    destruct backup_path as [b|]; unfold st_bind, emit, st_ret in H;
      injection H as <- <-; cbn [subcrates siblings trace];
      rewrite <- ?app_assoc; by repeat split.
Qed.

End CleanRun.

(** A clean run in which the deletion of [House.crate] is refused: the
    file is still there when the crates are written, and it is written
    anew, not skipped, though the caller did not ask to overwrite. The
    same folder written without [clean] and without [overwrite] skips
    the crate. *)
Example clean_overwrites_what_stays :
  let run := @execute_sync ascii_unicode posix_canonical stubborn_file_system sample_plan
               false true (lit "%%") (lit "absolute") house_world in
  fst run = Returns true
  /\ In (LogCouldNotDelete (lit "House.crate")) (trace (snd run))
  /\ In (LogCreated (lit "House") 0) (trace (snd run))
  /\ In (PrintCreated 4) (trace (snd run))
  /\ In (PrintSkipped 0) (trace (snd run))
  /\ In (LogSkipping (lit "House"))
       (trace (snd (@execute_sync ascii_unicode posix_canonical library_system sample_plan
                      false false (lit "%%") (lit "absolute") house_world))).
Proof. vm_compute. tauto. Qed.
